(** * Colour palette core: conversions, palette generation, tone ladders

    A shallow embedding of [src/lib/color-utils.ts],
    [src/lib/palette-generator.ts] and [src/lib/tone-generator.ts], and
    the properties of it that the specification relies on.

    Modelling conventions.
    - A JavaScript [number] is modelled twice. In [ColorConverter],
      [PaletteGenerator] and [ToneGenerator] it is a rational ([Q]) and
      arithmetic is exact: these are the finite numbers without their
      rounding error, and [NaN], the infinities and the negative zero are
      not among them. These definitions carry the properties that do not
      depend on which of two neighbouring whole numbers a conversion
      answers: ranges, the shape of strings, what is thrown, what the
      generator draws and keeps. In [Double] a number is the IEEE double
      that it is; these definitions carry the properties that depend on
      the values computed, the round trip through HEX and the consistency
      of the tone ladder. The exact computation and the one in doubles
      part only where a value handed to [Math.round] sits within rounding
      error of a half; [doubles_round_as_the_engine] shows three such
      places.
    - A JavaScript string is a [string] of ASCII characters.
    - [throw new Error(..)] is the left injection of a sum; [Error] has
      one constructor for each message the sources throw.
    - [Math.random], [crypto.randomUUID] and [new Date] read a [World]
      that is threaded through the generator; [Math.random] is assumed
      to answer in [0, 1) and nothing else is assumed of it. *)

From Stdlib Require Import ZArith QArith Qround Qabs Qminmax Lqa Lia.
From Stdlib Require Import Bool List String Ascii.
From Stdlib Require Floats Uint63.
Import ListNotations.

Local Open Scope Q_scope.

(** ** Data model ([src/types/index.ts]) *)

Module Types.

Record RGB : Type := { r : Q; g : Q; b : Q }.
Record HSL : Type := { h : Q; s : Q; l : Q }.

Record Color : Type := {
  id : string;
  hex : string;
  rgb : RGB;
  hsl : HSL;
  isLocked : bool
}.

Record ColorTone : Type := {
  label : string;
  lightness : Q;
  toneHex : string
}.

Record Palette : Type := {
  colors : list Color;
  name : option string;
  createdAt : Z
}.

Inductive HarmonyType : Type := random | analogous | complementary.

(** [Partial<PaletteGenerationOptions>]: every field may be absent. *)
Record PaletteGenerationOptions : Type := {
  preserveLocked : option bool;
  harmonyType : option HarmonyType;
  saturationRange : option (Q * Q);
  lightnessRange : option (Q * Q)
}.

(** The messages thrown by the three libraries. *)
Inductive Error : Type :=
| InvalidFormat (hex : string)          (* Invalid HEX color format: .. *)
| InvalidHexColor (hex : string)        (* Invalid HEX color: ..        *)
| InvalidHslValues (h s l : Q)          (* Invalid HSL values: ..       *)
| InvalidRgbValues (r g b : Q)          (* Invalid RGB values: ..       *)
| InvalidLightness (lightness : Q).     (* Invalid lightness value: ..  *)

End Types.

Import Types.

(** ** JavaScript primitives *)

Module JS.

(** [Math.round]: the nearest integer, halves going up. *)
Definition Math_round (x : Q) : Q := inject_Z (Qfloor (x + (1 # 2))).

Definition Math_floor (x : Q) : Q := inject_Z (Qfloor x).

Definition Math_abs (x : Q) : Q := Qabs x.

(** The integer part of a quotient, rounded towards zero. *)
Definition trunc (x : Q) : Z :=
  if Qle_bool 0 x then Qfloor x else Qceiling x.

(** [a % b]: the remainder carries the sign of the dividend. *)
Definition rem (a b : Q) : Q := a - b * inject_Z (trunc (a / b)).

Definition lt (a b : Q) : bool := negb (Qle_bool b a).
Definition le (a b : Q) : bool := Qle_bool a b.
Definition strictEq (a b : Q) : bool := Qeq_bool a b.

(** *** Strings *)

Local Open Scope char_scope.

Definition charCode (c : ascii) : N := N_of_ascii c.

Definition isLower (c : ascii) : bool :=
  (N.leb 97 (charCode c) && N.leb (charCode c) 122)%bool.

Definition upperChar (c : ascii) : ascii :=
  if isLower c then ascii_of_N (charCode c - 32) else c.

(** [String.prototype.toUpperCase] *)
Fixpoint toUpperCase (s : string) : string :=
  match s with
  | EmptyString => EmptyString
  | String c t => String (upperChar c) (toUpperCase t)
  end.

(** [s.replace(c, '')] with a one-character pattern: only the first
    occurrence is removed, wherever it stands. *)
Fixpoint removeFirst (c : ascii) (s : string) : string :=
  match s with
  | EmptyString => EmptyString
  | String d t => if Ascii.eqb d c then t else String d (removeFirst c t)
  end.

(** [s.substring(from, to)] for [0 <= from <= to]. *)
Definition substring (from to : nat) (s : string) : string :=
  String.substring from (to - from) s.

(** The value of a digit in radix 16, if it is one. *)
Definition hexDigitValue (c : ascii) : option Z :=
  let n := charCode c in
  if (N.leb 48 n && N.leb n 57)%bool then Some (Z.of_N (n - 48))
  else if (N.leb 65 n && N.leb n 70)%bool then Some (Z.of_N (n - 55))
  else if (N.leb 97 n && N.leb n 102)%bool then Some (Z.of_N (n - 87))
  else None.

Definition isWhiteSpace (c : ascii) : bool :=
  let n := charCode c in
  ((N.leb 9 n && N.leb n 13) || N.eqb n 32)%bool.

Fixpoint trimStart (s : string) : string :=
  match s with
  | String c t => if isWhiteSpace c then trimStart t else s
  | EmptyString => s
  end.

(** The longest prefix of hexadecimal digits, read as a number; [None]
    when the prefix is empty. *)
Fixpoint hexPrefix (acc : option Z) (s : string) : option Z :=
  match s with
  | EmptyString => acc
  | String c t =>
      match hexDigitValue c with
      | None => acc
      | Some d =>
          hexPrefix (Some (16 * match acc with Some a => a | None => 0 end + d)%Z) t
      end
  end.

Definition stripSign (s : string) : bool * string :=
  match s with
  | String "-" t => (true, t)
  | String "+" t => (false, t)
  | _ => (false, s)
  end.

Definition strip0x (s : string) : string :=
  match s with
  | String "0" (String "x" t) => t
  | String "0" (String "X" t) => t
  | _ => s
  end.

(** [parseInt(s, 16)]: leading blanks, an optional sign and an optional
    [0x] are skipped, then the longest run of digits is read and whatever
    follows is ignored; [None] stands for [NaN]. *)
Definition parseInt16 (s : string) : option Q :=
  let '(neg, body) := stripSign (trimStart s) in
  match hexPrefix None (strip0x body) with
  | None => None
  | Some v => Some (inject_Z (if neg then - v else v))
  end.

Definition hexDigitChar (d : Z) : ascii :=
  if (d <? 10)%Z then ascii_of_N (Z.to_N d + 48) else ascii_of_N (Z.to_N d + 87).

Fixpoint digits16 (fuel : nat) (n : Z) (acc : string) : string :=
  match fuel with
  | O => acc
  | S fuel' =>
      let acc' := String (hexDigitChar (n mod 16)) acc in
      if (n / 16 =? 0)%Z then acc' else digits16 fuel' (n / 16) acc'
  end.

(** [n.toString(16)] for an integer-valued number: lower-case digits, no
    padding, a minus sign for negatives. *)
Definition toString16 (x : Q) : string :=
  let n := Qfloor x in
  let body := digits16 (S (Z.to_nat (Z.log2 (Z.abs n)))) (Z.abs n) EmptyString in
  if (n <? 0)%Z then String "-" body else body.

End JS.

(** ** The ambient sources and the generator monad *)

(** [randomSource] lists the successive results of [Math.random()],
    [uuidSource] those of [crypto.randomUUID()]; [drawn] and [issued]
    count how many of each have been consumed; [now] is what
    [new Date()] reads. *)
Record World : Type := {
  randomSource : nat -> Q;
  uuidSource : nat -> string;
  drawn : nat;
  issued : nat;
  now : Z
}.

(** [Math.random()] answers in the interval [0, 1). *)
Definition unitInterval (w : World) : Prop :=
  forall n : nat, 0 <= randomSource w n /\ randomSource w n < 1.

(** A computation reads and advances the world, or throws. *)
Definition M (A : Type) : Type := World -> Error + (A * World).

Definition ret {A : Type} (a : A) : M A := fun w => inr (a, w).

Definition bind {A B : Type} (c : M A) (k : A -> M B) : M B :=
  fun w => match c w with
           | inl e => inl e
           | inr (a, w') => k a w'
           end.

Definition throw {A : Type} (e : Error) : M A := fun _ => inl e.

(** A call into code that may throw but does not touch the world. *)
Definition liftE {A : Type} (x : Error + A) : M A :=
  fun w => match x with
           | inl e => inl e
           | inr a => inr (a, w)
           end.

Declare Scope js_scope.
Delimit Scope js_scope with js.
Notation "x <- c ;; k" := (bind c (fun x => k))
  (at level 61, c at next level, right associativity) : js_scope.

Definition Math_random : M Q :=
  fun w => inr (randomSource w (drawn w),
                {| randomSource := randomSource w; uuidSource := uuidSource w;
                   drawn := S (drawn w); issued := issued w; now := now w |}).

Definition randomUUID : M string :=
  fun w => inr (uuidSource w (issued w),
                {| randomSource := randomSource w; uuidSource := uuidSource w;
                   drawn := drawn w; issued := S (issued w); now := now w |}).

Definition newDate : M Z := fun w => inr (now w, w).

(** ** [ColorConverter] ([src/lib/color-utils.ts]) *)

Module ColorConverter.

Import JS.

Definition clamp (lo hi x : Q) : Q := Qmax lo (Qmin hi x).

Definition hslToRgb (h0 s0 l0 : Q) : RGB :=
  let h := rem (rem h0 360 + 360) 360 in
  let s := clamp 0 100 s0 / 100 in
  let l := clamp 0 100 l0 / 100 in
  let c := (1 - Math_abs (2 * l - 1)) * s in
  let x := c * (1 - Math_abs (rem (h / 60) 2 - 1)) in
  let m := l - c / 2 in
  let '(r1, g1, b1) :=
    if (le 0 h && lt h 60)%bool then (c, x, 0)
    else if (le 60 h && lt h 120)%bool then (x, c, 0)
    else if (le 120 h && lt h 180)%bool then (0, c, x)
    else if (le 180 h && lt h 240)%bool then (0, x, c)
    else if (le 240 h && lt h 300)%bool then (x, 0, c)
    else if (le 300 h && lt h 360)%bool then (c, 0, x)
    else (0, 0, 0) in
  {| r := Math_round ((r1 + m) * 255);
     g := Math_round ((g1 + m) * 255);
     b := Math_round ((b1 + m) * 255) |}.

Definition rgbToHsl (r0 g0 b0 : Q) : HSL :=
  let r := clamp 0 255 r0 / 255 in
  let g := clamp 0 255 g0 / 255 in
  let b := clamp 0 255 b0 / 255 in
  let max := Qmax (Qmax r g) b in
  let min := Qmin (Qmin r g) b in
  let diff := max - min in
  let l := (max + min) / 2 in
  let '(h, s) :=
    if strictEq diff 0 then (0, 0)
    else
      let s := if lt (1 # 2) l then diff / (2 - max - min) else diff / (max + min) in
      let h :=
        if strictEq max r then ((g - b) / diff + (if lt g b then 6 else 0)) / 6
        else if strictEq max g then ((b - r) / diff + 2) / 6
        else if strictEq max b then ((r - g) / diff + 4) / 6
        else 0 in
      (h, s) in
  {| h := Math_round (h * 360);
     s := Math_round (s * 100);
     l := Math_round (l * 100) |}.

Definition toHex (n : Q) : string :=
  let hex := toString16 (Math_round (clamp 0 255 n)) in
  if Nat.eqb (String.length hex) 1 then String "0" hex else hex.

Definition rgbToHex (r g b : Q) : string :=
  toUpperCase (String "#" (toHex r ++ toHex g ++ toHex b)).

Definition hexToRgb (hex : string) : Error + RGB :=
  let cleanHex := toUpperCase (removeFirst "#" hex) in
  if negb (Nat.eqb (String.length cleanHex) 6) then inl (InvalidFormat hex)
  else
    match parseInt16 (substring 0 2 cleanHex),
          parseInt16 (substring 2 4 cleanHex),
          parseInt16 (substring 4 6 cleanHex) with
    | Some r, Some g, Some b => inr {| r := r; g := g; b := b |}
    | _, _, _ => inl (InvalidFormat hex)
    end.

Definition hexToHsl (hex : string) : Error + HSL :=
  match hexToRgb hex with
  | inl e => inl e
  | inr rgb => inr (rgbToHsl (r rgb) (g rgb) (b rgb))
  end.

Definition hslToHex (h s l : Q) : string :=
  let rgb := hslToRgb h s l in
  rgbToHex (r rgb) (g rgb) (b rgb).

Definition isHexDigit (c : ascii) : bool :=
  match hexDigitValue c with Some _ => true | None => false end.

Fixpoint allHexDigits (s : string) : bool :=
  match s with
  | EmptyString => true
  | String c t => (isHexDigit c && allHexDigits t)%bool
  end.

(** [/^[0-9A-Fa-f]{6}$/.test(s)] *)
Definition sixHexDigits (s : string) : bool :=
  (Nat.eqb (String.length s) 6 && allHexDigits s)%bool.

Definition isValidHex (hex : string) : bool :=
  sixHexDigits (removeFirst "#" hex).

Definition isValidHsl (h s l : Q) : bool :=
  (le 0 h && le h 360 && le 0 s && le s 100 && le 0 l && le l 100)%bool.

Definition isValidRgb (r g b : Q) : bool :=
  (le 0 r && le r 255 && le 0 g && le g 255 && le 0 b && le b 255)%bool.

Local Open Scope js_scope.

Definition createColorFromHsl (h s l : Q) (isLocked : bool) : M Color :=
  if negb (isValidHsl h s l) then throw (InvalidHslValues h s l)
  else
    let rgb := hslToRgb h s l in
    let hex := rgbToHex (r rgb) (g rgb) (b rgb) in
    uuid <- randomUUID ;;
    ret {| id := uuid; hex := hex; rgb := rgb;
           hsl := {| h := h; s := s; l := l |}; isLocked := isLocked |}.

Definition createColorFromRgb (r g b : Q) (isLocked : bool) : M Color :=
  if negb (isValidRgb r g b) then throw (InvalidRgbValues r g b)
  else
    let hex := rgbToHex r g b in
    let hsl := rgbToHsl r g b in
    uuid <- randomUUID ;;
    ret {| id := uuid; hex := hex; rgb := {| r := r; g := g; b := b |};
           hsl := hsl; isLocked := isLocked |}.

Definition createColorFromHex (hex : string) (isLocked : bool) : M Color :=
  if negb (isValidHex hex) then throw (InvalidHexColor hex)
  else
    rgb <- liftE (hexToRgb hex) ;;
    let hsl := rgbToHsl (r rgb) (g rgb) (b rgb) in
    uuid <- randomUUID ;;
    ret {| id := uuid; hex := toUpperCase hex; rgb := rgb;
           hsl := hsl; isLocked := isLocked |}.

End ColorConverter.


(** ** [PaletteGenerator] ([src/lib/palette-generator.ts]) *)

Module PaletteGenerator.

Import JS ColorConverter.
Local Open Scope js_scope.

Definition SATURATION_MIN : Q := 60.
Definition SATURATION_MAX : Q := 100.
Definition LIGHTNESS_MIN : Q := 40.
Definition LIGHTNESS_MAX : Q := 70.
Definition MIN_HUE_DIFFERENCE : Q := 30.
Definition PALETTE_SIZE : nat := 5.

Definition randomInRange (min max : Q) : M Q :=
  u <- Math_random ;;
  ret (Math_floor (u * (max - min + 1)) + min).

Definition generateRandomColor : M Color :=
  hue <- randomInRange 0 359 ;;
  saturation <- randomInRange SATURATION_MIN SATURATION_MAX ;;
  lightness <- randomInRange LIGHTNESS_MIN LIGHTNESS_MAX ;;
  createColorFromHsl hue saturation lightness false.

(** The circular distance between two hues. *)
Definition hueDistance (newHue existingHue : Q) : Q :=
  let diff := Math_abs (newHue - existingHue) in
  Qmin diff (360 - diff).

(** [Math.min(...xs)] for a non-empty argument list. *)
Definition Math_min (x : Q) (xs : list Q) : Q := fold_left Qmin xs x.

Definition getMinHueDifference (newHue : Q) (existingHues : list Q) : Q :=
  match map (hueDistance newHue) existingHues with
  | [] => 360
  | d :: ds => Math_min d ds
  end.

(** The bounded search of [generateDistinctColor]: [Some] is the early
    [return] from inside the loop, [None] is the loop running out. *)
Fixpoint searchDistinctHue (attempts : nat) (existingHues : list Q) : M (option Color) :=
  match attempts with
  | O => ret None
  | S attempts' =>
      hue <- randomInRange 0 359 ;;
      let minDifference := getMinHueDifference hue existingHues in
      if le MIN_HUE_DIFFERENCE minDifference then
        saturation <- randomInRange SATURATION_MIN SATURATION_MAX ;;
        lightness <- randomInRange LIGHTNESS_MIN LIGHTNESS_MAX ;;
        color <- createColorFromHsl hue saturation lightness false ;;
        ret (Some color)
      else searchDistinctHue attempts' existingHues
  end.

Definition generateDistinctColor (existingColors : list Color) (maxAttempts : nat) : M Color :=
  let existingHues := map (fun color => h (hsl color)) existingColors in
  found <- searchDistinctHue maxAttempts existingHues ;;
  match found with
  | Some color => ret color
  | None => generateRandomColor
  end.

(** The filling loop of [generateHarmoniousPalette]; [push] appends. *)
Fixpoint fillPalette (colorsNeeded : nat) (newColors : list Color) : M (list Color) :=
  match colorsNeeded with
  | O => ret newColors
  | S rest =>
      newColor <- generateDistinctColor newColors 50 ;;
      fillPalette rest (newColors ++ [newColor])
  end.

Definition generateHarmoniousPalette
    (existingColors : list Color) (options : option PaletteGenerationOptions) : M Palette :=
  let preserve :=
    match options with
    | Some o => match preserveLocked o with Some v => v | None => true end
    | None => true
    end in
  let lockedColors := if preserve then filter isLocked existingColors else [] in
  let colorsNeeded := (Z.of_nat PALETTE_SIZE - Z.of_nat (List.length lockedColors))%Z in
  newColors <- fillPalette (Z.to_nat colorsNeeded) lockedColors ;;
  let finalColors := firstn PALETTE_SIZE newColors in
  createdAt <- newDate ;;
  ret {| colors := finalColors; name := None; createdAt := createdAt |}.

Definition onlyPreserveLocked (v : bool) : PaletteGenerationOptions :=
  {| preserveLocked := Some v; harmonyType := None;
     saturationRange := None; lightnessRange := None |}.

Definition generateFreshPalette : M Palette :=
  generateHarmoniousPalette [] (Some (onlyPreserveLocked false)).

Definition regeneratePalette (currentPalette : Palette) : M Palette :=
  generateHarmoniousPalette (colors currentPalette) (Some (onlyPreserveLocked true)).

Definition toggleColorLock (palette : Palette) (colorId : string) : Palette :=
  let updatedColors :=
    map (fun color =>
           if String.eqb (id color) colorId
           then {| id := id color; hex := hex color; rgb := rgb color;
                   hsl := hsl color; isLocked := negb (isLocked color) |}
           else color)
        (colors palette) in
  {| colors := updatedColors; name := name palette; createdAt := createdAt palette |}.

End PaletteGenerator.

(** ** [ToneGenerator] ([src/lib/tone-generator.ts]) *)

Module ToneGenerator.

Import JS ColorConverter.

Local Open Scope string_scope.

Definition TONE_STEPS : list ColorTone :=
  [ {| label := "50"; lightness := 95; toneHex := EmptyString |};
    {| label := "100"; lightness := 90; toneHex := EmptyString |};
    {| label := "200"; lightness := 80; toneHex := EmptyString |};
    {| label := "300"; lightness := 70; toneHex := EmptyString |};
    {| label := "400"; lightness := 60; toneHex := EmptyString |};
    {| label := "500"; lightness := 50; toneHex := EmptyString |};
    {| label := "600"; lightness := 40; toneHex := EmptyString |};
    {| label := "700"; lightness := 30; toneHex := EmptyString |};
    {| label := "800"; lightness := 20; toneHex := EmptyString |};
    {| label := "900"; lightness := 10; toneHex := EmptyString |} ].

(** [xs.slice(from, to)] for [0 <= from <= to]. *)
Definition slice {A : Type} (from to : nat) (xs : list A) : list A :=
  firstn (to - from) (skipn from xs).

Definition toneOf (baseColor : Color) (step : ColorTone) : ColorTone :=
  {| label := label step;
     lightness := lightness step;
     toneHex := hslToHex (h (hsl baseColor)) (s (hsl baseColor)) (lightness step) |}.

Definition generateTones (baseColor : Color) : list ColorTone :=
  let selectedSteps := slice 1 8 TONE_STEPS in
  map (toneOf baseColor) selectedSteps.

Definition generateAllTones (baseColor : Color) : list ColorTone :=
  map (toneOf baseColor) TONE_STEPS.

Definition outOfRange (lightness : Q) : bool :=
  (lt lightness 0 || lt 100 lightness)%bool.

Section SpecificTone.

(** [Number.prototype.toString()] prints the shortest decimal that reads
    back as the same double; that depends on the binary representation,
    which the rational model does not have, so the printer is a
    parameter of the one function that calls it. *)
Variable numberToString : Q -> string.

(** [label || fallback]: an absent and an empty label both give way. *)
Definition orElse (label : option string) (fallback : string) : string :=
  match label with
  | None => fallback
  | Some EmptyString => fallback
  | Some text => text
  end.

Definition generateSpecificTone
    (baseColor : Color) (lightness : Q) (label : option string) : Error + ColorTone :=
  if outOfRange lightness then inl (InvalidLightness lightness)
  else
    inr {| label := orElse label (numberToString lightness);
           lightness := lightness;
           toneHex := hslToHex (h (hsl baseColor)) (s (hsl baseColor)) lightness |}.

End SpecificTone.

(** One turn of the scan of [findClosestTone]: the best step so far and
    its distance are replaced only by a strictly closer step. *)
Definition closer (lightness : Q) (best : ColorTone * Q) (tone : ColorTone) : ColorTone * Q :=
  let difference := Math_abs (lightness - Types.lightness tone) in
  if lt difference (snd best) then (tone, difference) else best.

Definition undefinedTone : ColorTone :=
  {| label := EmptyString; lightness := 0; toneHex := EmptyString |}.

Definition findClosestTone (lightness : Q) : Error + ColorTone :=
  if outOfRange lightness then inl (InvalidLightness lightness)
  else
    let closestTone := nth 0 TONE_STEPS undefinedTone in
    let minDifference := Math_abs (lightness - Types.lightness closestTone) in
    inr (fst (fold_left (closer lightness) TONE_STEPS (closestTone, minDifference))).

End ToneGenerator.

(** ** The conversions on IEEE doubles

    The same conversions once more, with a JavaScript [number] as the
    double that it is: [+], [-], [*] and [/] are the operations of
    binary64, rounding to nearest with ties to even, and [NaN], the
    infinities and the negative zero are values. What the engine does
    exactly ([Math.round], [%], printing, [parseInt]) is computed from
    the mantissa and the exponent of the double. The properties whose
    truth depends on the values a conversion computes are stated of
    these definitions. *)

Module Double.

Import Floats PrimInt63.
Local Open Scope float_scope.

Record RGB : Type := { r : float; g : float; b : float }.
Record HSL : Type := { h : float; s : float; l : float }.

Record ColorTone : Type := {
  label : string;
  lightness : float;
  toneHex : string
}.

Record Color : Type := {
  id : string;
  hex : string;
  rgb : RGB;
  hsl : HSL;
  isLocked : bool
}.

(** The double of a whole number below 2^53 in magnitude. *)
Definition ofZ (n : Z) : float :=
  if (n <? 0)%Z then - of_uint63 (Uint63.of_Z (- n)) else of_uint63 (Uint63.of_Z n).

(** The double nearest to any whole number. *)
Definition nearest (n : Z) : float := SF2Prim (binary_normalize prec emax n 0 false).

(** A finite double other than zero is [mantissa * 2 ^ exponent] in
    magnitude, with a mantissa of 53 bits. *)
Definition mantissa (x : float) : Z :=
  Uint63.to_Z (normfr_mantissa (fst (frshiftexp x))).

Definition exponent (x : float) : Z :=
  (Uint63.to_Z (snd (frshiftexp x)) - shift - 53)%Z.

Definition Math_abs (x : float) : float := abs x.

(** [<], [<=] and [===]: all three are false when an argument is [NaN]. *)
Definition lt (a c : float) : bool := a <? c.
Definition le (a c : float) : bool := a <=? c.
Definition strictEq (a c : float) : bool := a =? c.

(** [Math.max] and [Math.min] of two numbers: [NaN] if either is, and
    of the two zeros the positive one is the larger. *)
Definition Math_max (a c : float) : float :=
  if (is_nan a || is_nan c)%bool then nan
  else if a <? c then c
  else if c <? a then a
  else if get_sign a then c else a.

Definition Math_min (a c : float) : float :=
  if (is_nan a || is_nan c)%bool then nan
  else if a <? c then a
  else if c <? a then c
  else if get_sign a then a else c.

(** [Math.round]: the whole number nearest to [x], the upper one of two
    that are equally near; [NaN], the infinities and the zeros are
    returned as they are, and what rounds to zero from below is the
    negative zero. [frshiftexp x] is [(f, e)] with [x = f * 2 ^ (e - 2101)]
    and [1/2 <= |f| < 1], and [normfr_mantissa f] is [|f| * 2 ^ 53]: with
    [k = 2154 - e] the magnitude of [x] is the mantissa over [2 ^ k],
    which is whole when [k <= 0]. Otherwise a positive [x] rounds to
    [(mantissa + 2 ^ (k - 1)) / 2 ^ k] rounded down, and a negative [x] to
    minus [(mantissa + 2 ^ (k - 1) - 1) / 2 ^ k] rounded down, the halves
    going up. *)
Definition Math_round (x : float) : float :=
  if (is_nan x || is_infinity x || is_zero x)%bool then x
  else
    let '(f, e) := frshiftexp x in
    if PrimInt63.leb 2154 e then x
    else
      let k := PrimInt63.sub 2154 e in
      let half := PrimInt63.lsl 1 (PrimInt63.sub k 1) in
      let n := PrimInt63.add (normfr_mantissa f) half in
      if get_sign x then
        let n' := PrimInt63.lsr (PrimInt63.sub n 1) k in
        if PrimInt63.eqb n' 0 then neg_zero else - of_uint63 n'
      else of_uint63 (PrimInt63.lsr n k).

(** [a % c]: the exact remainder of the division that truncates, with
    the sign of [a]; it is a double, so nothing is rounded. *)
Definition rem (a c : float) : float :=
  if (is_nan a || is_nan c || is_infinity a || is_zero c)%bool then nan
  else if (is_infinity c || is_zero a)%bool then a
  else
    let e := Z.min (exponent a) (exponent c) in
    let A := Z.shiftl (mantissa a) (exponent a - e) in
    let C := Z.shiftl (mantissa c) (exponent c - e) in
    let q := Z.ldexp (of_uint63 (Uint63.of_Z (A mod C))) e in
    if get_sign a then - q else q.

(** [n.toString(16)] where the sources call it: on a result of
    [Math.round], which is whole unless it is [NaN] or infinite. *)
Definition toString16 (x : float) : string :=
  if is_nan x then "NaN"%string
  else if is_infinity x then (if get_sign x then "-Infinity" else "Infinity")%string
  else if is_zero x then "0"%string
  else
    let n := Z.shiftl (mantissa x) (exponent x) in
    let body := JS.digits16 (S (Z.to_nat (Z.log2 n))) n EmptyString in
    if get_sign x then String "-" body else body.

(** [parseInt(text, 16)]; [None] stands for [NaN]. *)
Definition parseInt16 (text : string) : option float :=
  let '(neg, body) := JS.stripSign (JS.trimStart text) in
  match JS.hexPrefix None (JS.strip0x body) with
  | None => None
  | Some v => Some (if neg then - nearest v else nearest v)
  end.

Definition hslToRgb (h0 s0 l0 : float) : RGB :=
  let h := rem (rem h0 360 + 360) 360 in
  let s := Math_max 0 (Math_min 100 s0) / 100 in
  let l := Math_max 0 (Math_min 100 l0) / 100 in
  let c := (1 - Math_abs (2 * l - 1)) * s in
  let x := c * (1 - Math_abs (rem (h / 60) 2 - 1)) in
  let m := l - c / 2 in
  let '(r1, g1, b1) :=
    if (le 0 h && lt h 60)%bool then (c, x, 0)
    else if (le 60 h && lt h 120)%bool then (x, c, 0)
    else if (le 120 h && lt h 180)%bool then (0, c, x)
    else if (le 180 h && lt h 240)%bool then (0, x, c)
    else if (le 240 h && lt h 300)%bool then (x, 0, c)
    else if (le 300 h && lt h 360)%bool then (c, 0, x)
    else (0, 0, 0) in
  {| r := Math_round ((r1 + m) * 255);
     g := Math_round ((g1 + m) * 255);
     b := Math_round ((b1 + m) * 255) |}.

Definition rgbToHsl (r0 g0 b0 : float) : HSL :=
  let r := Math_max 0 (Math_min 255 r0) / 255 in
  let g := Math_max 0 (Math_min 255 g0) / 255 in
  let b := Math_max 0 (Math_min 255 b0) / 255 in
  let max := Math_max (Math_max r g) b in
  let min := Math_min (Math_min r g) b in
  let diff := max - min in
  let l := (max + min) / 2 in
  let '(h, s) :=
    if strictEq diff 0 then (0, 0)
    else
      let s := if lt 0.5 l then diff / (2 - max - min) else diff / (max + min) in
      let h :=
        if strictEq max r then ((g - b) / diff + (if lt g b then 6 else 0)) / 6
        else if strictEq max g then ((b - r) / diff + 2) / 6
        else if strictEq max b then ((r - g) / diff + 4) / 6
        else 0 in
      (h, s) in
  {| h := Math_round (h * 360);
     s := Math_round (s * 100);
     l := Math_round (l * 100) |}.

Definition toHex (n : float) : string :=
  let hex := toString16 (Math_round (Math_max 0 (Math_min 255 n))) in
  if Nat.eqb (String.length hex) 1 then String "0" hex else hex.

Definition rgbToHex (r g b : float) : string :=
  JS.toUpperCase (String "#" (toHex r ++ toHex g ++ toHex b)).

Definition hexToRgb (hex : string) : Error + RGB :=
  let cleanHex := JS.toUpperCase (JS.removeFirst "#" hex) in
  if negb (Nat.eqb (String.length cleanHex) 6) then inl (InvalidFormat hex)
  else
    match parseInt16 (JS.substring 0 2 cleanHex),
          parseInt16 (JS.substring 2 4 cleanHex),
          parseInt16 (JS.substring 4 6 cleanHex) with
    | Some r, Some g, Some b => inr {| r := r; g := g; b := b |}
    | _, _, _ => inl (InvalidFormat hex)
    end.

Definition hexToHsl (hex : string) : Error + HSL :=
  match hexToRgb hex with
  | inl e => inl e
  | inr rgb => inr (rgbToHsl (r rgb) (g rgb) (b rgb))
  end.

Definition hslToHex (h s l : float) : string :=
  let rgb := hslToRgb h s l in
  rgbToHex (r rgb) (g rgb) (b rgb).

(** [ToneGenerator], as far as [validateToneConsistency] reaches. *)

Definition TONE_STEPS : list ColorTone :=
  [ {| label := "50"; lightness := 95; toneHex := EmptyString |};
    {| label := "100"; lightness := 90; toneHex := EmptyString |};
    {| label := "200"; lightness := 80; toneHex := EmptyString |};
    {| label := "300"; lightness := 70; toneHex := EmptyString |};
    {| label := "400"; lightness := 60; toneHex := EmptyString |};
    {| label := "500"; lightness := 50; toneHex := EmptyString |};
    {| label := "600"; lightness := 40; toneHex := EmptyString |};
    {| label := "700"; lightness := 30; toneHex := EmptyString |};
    {| label := "800"; lightness := 20; toneHex := EmptyString |};
    {| label := "900"; lightness := 10; toneHex := EmptyString |} ]%string.

Definition toneOf (baseColor : Color) (step : ColorTone) : ColorTone :=
  {| label := label step;
     lightness := lightness step;
     toneHex := hslToHex (h (hsl baseColor)) (s (hsl baseColor)) (lightness step) |}.

Definition generateTones (baseColor : Color) : list ColorTone :=
  let selectedSteps := ToneGenerator.slice 1 8 TONE_STEPS in
  map (toneOf baseColor) selectedSteps.

Definition generateAllTones (baseColor : Color) : list ColorTone :=
  map (toneOf baseColor) TONE_STEPS.

(** The test of one tone inside [tones.every]; an exception of
    [hexToHsl] is caught and counts as a failed test. *)
Definition toneIsConsistent (baseHue baseSaturation : float) (tone : ColorTone) : bool :=
  match hexToHsl (toneHex tone) with
  | inl _ => false
  | inr toneHsl =>
      let hueDiff := Math_abs (h toneHsl - baseHue) in
      let hueMatch := (le hueDiff 4 || le (Math_abs (hueDiff - 360)) 4)%bool in
      let saturationMatch := le (Math_abs (s toneHsl - baseSaturation)) 4 in
      let lightnessMatch := le (Math_abs (l toneHsl - lightness tone)) 4 in
      (hueMatch && saturationMatch && lightnessMatch)%bool
  end.

Definition validateToneConsistency (baseColor : Color) (tones : list ColorTone) : bool :=
  forallb (toneIsConsistent (h (hsl baseColor)) (s (hsl baseColor))) tones.

End Double.

(** * Vocabulary of the statements *)

Import JS ColorConverter PaletteGenerator ToneGenerator.

(** What [toggleColorLock] does to one colour. *)
Definition toggled (colorId : string) (color : Color) : Color :=
  if String.eqb (id color) colorId
  then {| id := id color; hex := hex color; rgb := rgb color;
          hsl := hsl color; isLocked := negb (isLocked color) |}
  else color.

(** How far a step of the tone table lies from a wanted lightness. *)
Definition gap (target : Q) (t : ColorTone) : Q :=
  Math_abs (target - Types.lightness t).

(** What the scan of [findClosestTone] knows after the steps [seen]: its
    best step stands at some position [i] of [seen], no seen step is
    closer, and every step before [i] is strictly farther. *)
Definition scanned (target : Q) (seen : list ColorTone) (best : ColorTone * Q) : Prop :=
  snd best = gap target (fst best) /\
  exists i : nat,
    nth_error seen i = Some (fst best) /\
    forall (j : nat) (u : ColorTone),
      nth_error seen j = Some u ->
      gap target (fst best) <= gap target u /\
      ((j < i)%nat -> gap target (fst best) < gap target u).

(** The integers [lo], [lo + 1], .., [lo + n - 1]. *)
Fixpoint range (lo : Z) (n : nat) : list Z :=
  match n with
  | O => []
  | S n' => lo :: range (lo + 1) n'
  end.

(** Two rationals written with the same numerator and denominator. *)
Definition sameFraction (a c : Q) : bool :=
  (Z.eqb (Qnum a) (Qnum c) && Pos.eqb (Qden a) (Qden c))%bool.


Definition digitValue (c : ascii) : Z :=
  match hexDigitValue c with
  | Some v => v
  | None => 0
  end.

(** A string of hexadecimal digits read in base 16. *)
Definition base16 (text : string) : Z :=
  (fix go (acc : Z) (rest : string) : Z :=
     match rest with
     | EmptyString => acc
     | String c rest' => go (16 * acc + digitValue c)%Z rest'
     end) 0%Z text.





(** What is checked of the two digits [toHex] writes for the byte [k]:
    they are upper-case already, neither is a [#], and [parseInt] reads
    them back as [k]. *)
Definition byteReadsBack (k : Z) : bool :=
  match toUpperCase (toHex (inject_Z k)) with
  | String c1 (String c2 EmptyString) =>
      (Ascii.eqb (upperChar c1) c1 && Ascii.eqb (upperChar c2) c2 &&
       negb (Ascii.eqb c1 "#") && negb (Ascii.eqb c2 "#") &&
       match parseInt16 (String c1 (String c2 EmptyString)) with
       | Some v => sameFraction v (inject_Z k)
       | None => false
       end)%bool
  | _ => false
  end.

(** [c] run from [w] does not throw, and its result and the world it
    leaves satisfy [post]. *)
Definition returns {A : Type} (c : M A) (w : World) (post : A -> World -> Prop) : Prop :=
  exists (a : A) (w' : World), c w = inr (a, w') /\ post a w'.

(** A hue that is a whole number of degrees in [0,360). *)
Definition wholeHue (color : Color) : Prop :=
  exists k : Z, (0 <= k <= 359)%Z /\ h (hsl color) == inject_Z k.

(** Two colours whose hues are at least [MIN_HUE_DIFFERENCE] apart on
    the colour circle. *)
Definition apart (c1 c2 : Color) : Prop :=
  MIN_HUE_DIFFERENCE <= hueDistance (h (hsl c1)) (h (hsl c2)).

(** Every colour is apart from every colour after it. *)
Fixpoint pairwiseApart (cs : list Color) : Prop :=
  match cs with
  | [] => True
  | c :: rest => Forall (apart c) rest /\ pairwiseApart rest
  end.

(** The search of [generateDistinctColor] accepts one of its 50 draws,
    so that the unconstrained fallback is not taken. *)
Definition searchAccepts (existingColors : list Color) (w : World) : bool :=
  match searchDistinctHue 50 (map (fun color => h (hsl color)) existingColors) w with
  | inr (Some _, _) => true
  | _ => false
  end.

(** No search falls back while [fillPalette] adds [colorsNeeded]
    colours to [newColors]. *)
Fixpoint noFallback (colorsNeeded : nat) (newColors : list Color) (w : World) : bool :=
  match colorsNeeded with
  | O => true
  | S rest =>
      (searchAccepts newColors w &&
       match generateDistinctColor newColors 50 w with
       | inr (newColor, w') => noFallback rest (newColors ++ [newColor]) w'
       | inl _ => false
       end)%bool
  end.

(** Identifiers A, B, C, .. in the order they are asked for. *)
Definition letterIds (n : nat) : string :=
  String (ascii_of_nat (65 + n)) EmptyString.

(** A random source that always answers 0. *)
Definition stuckWorld : World :=
  {| randomSource := fun _ => 0;
     uuidSource := letterIds;
     drawn := 0; issued := 0; now := 0 |}.

(** A random source whose answers are 0, 1/5, 2/5, 3/5, 4/5, each three
    times in a row, over and over. *)
Definition spreadWorld : World :=
  {| randomSource := fun n => Z.of_nat ((n / 3) mod 5) # 5;
     uuidSource := letterIds;
     drawn := 0; issued := 0; now := 0 |}.

(** The colours [generateHarmoniousPalette] starts from: the locked ones
    of [existingColors], unless the options switch preservation off. *)
Definition lockedColorsOf
    (existingColors : list Color) (options : option PaletteGenerationOptions) : list Color :=
  let preserve :=
    match options with
    | Some o => match preserveLocked o with Some v => v | None => true end
    | None => true
    end in
  if preserve then filter isLocked existingColors else [].

(** A colour put together the way [createColorFromHsl] does, with a
    given [id]. *)
Definition colorOfHsl (uuid : string) (h0 s0 l0 : Q) (locked : bool) : Color :=
  let rgb := hslToRgb h0 s0 l0 in
  {| id := uuid; hex := rgbToHex (r rgb) (g rgb) (b rgb); rgb := rgb;
     hsl := {| h := h0; s := s0; l := l0 |}; isLocked := locked |}.

(** Five colours, the second and the fifth of them locked. *)
Definition samplePalette : Palette :=
  {| colors :=
       [ colorOfHsl "a" 10 80 50 false;
         colorOfHsl "b" 200 65 45 true;
         colorOfHsl "c" 95 90 60 false;
         colorOfHsl "d" 300 70 55 false;
         colorOfHsl "e" 210 100 40 true ];
     name := None;
     createdAt := 0 |}.

(** Two base colours with the same hue and saturation, written as
    different fractions, and nothing else in common. *)
Definition warmBase : Color := colorOfHsl "a" 10 80 50 false.
Definition warmBaseAgain : Color := colorOfHsl "z" (20 # 2) (160 # 2) 30 true.

(** * More of the three libraries and of their callers *)

(** ** [PaletteGenerator.validatePalette] *)

Module PaletteValidation.

(** The body of the first loop: the three range tests of one colour,
    each of which returns [false] from [validatePalette]. *)
Definition colorWithinConstraints (color : Color) : bool :=
  let h0 := h (hsl color) in
  let s0 := s (hsl color) in
  let l0 := l (hsl color) in
  if (JS.lt s0 SATURATION_MIN || JS.lt SATURATION_MAX s0)%bool then false
  else if (JS.lt l0 LIGHTNESS_MIN || JS.lt LIGHTNESS_MAX l0)%bool then false
  else if (JS.lt h0 0 || JS.le 360 h0)%bool then false
  else true.

(** The inner loop over [j > i]: the hue at [i] against the later ones. *)
Fixpoint distinctFromLater (hue : Q) (later : list Q) : bool :=
  match later with
  | [] => true
  | other :: later' =>
      let diff := Math_abs (hue - other) in
      let minDiff := Qmin diff (360 - diff) in
      if JS.lt minDiff MIN_HUE_DIFFERENCE then false
      else distinctFromLater hue later'
  end.

(** The outer loop over [i]. *)
Fixpoint huesDistinct (hues : list Q) : bool :=
  match hues with
  | [] => true
  | hue :: later => if distinctFromLater hue later then huesDistinct later else false
  end.

Definition validatePalette (palette : Palette) : bool :=
  if negb (Nat.eqb (List.length (colors palette)) PALETTE_SIZE) then false
  else if negb (forallb colorWithinConstraints (colors palette)) then false
  else huesDistinct (map (fun color => h (hsl color)) (colors palette)).

End PaletteValidation.

(** ** The rest of [ToneGenerator] *)

Module ToneLadder.

Definition toneToColor (tone : ColorTone) (baseColor : Color) (isLocked : bool) : M Color :=
  createColorFromHsl (h (hsl baseColor)) (s (hsl baseColor)) (Types.lightness tone) isLocked.

(** The test of one tone inside [tones.every]; an exception of
    [hexToHsl] is caught and counts as a failed test. *)
Definition toneIsConsistent (baseHue baseSaturation : Q) (tone : ColorTone) : bool :=
  match hexToHsl (toneHex tone) with
  | inl _ => false
  | inr toneHsl =>
      let hueDiff := Math_abs (h toneHsl - baseHue) in
      let hueMatch := (JS.le hueDiff 4 || JS.le (Math_abs (hueDiff - 360)) 4)%bool in
      let saturationMatch := JS.le (Math_abs (s toneHsl - baseSaturation)) 4 in
      let lightnessMatch := JS.le (Math_abs (l toneHsl - Types.lightness tone)) 4 in
      (hueMatch && saturationMatch && lightnessMatch)%bool
  end.

Definition validateToneConsistency (baseColor : Color) (tones : list ColorTone) : bool :=
  forallb (toneIsConsistent (h (hsl baseColor)) (s (hsl baseColor))) tones.

Definition getStandardLabels : list string := map label TONE_STEPS.

Definition getStandardLightness : list Q := map Types.lightness TONE_STEPS.

End ToneLadder.

(** ** The palette hook and the tone selection of the component

    Of [usePalette] and of [handleToneSelect] the values they compute
    are modelled: the colours [updateColor] stores and the colour that
    is built from a selected tone. The React state that holds them and
    the awaiting around them are not. *)

Module PaletteHook.

(** [updateColor]: the colours computed from the palette at hand, put
    into the previous palette. *)
Definition updateColor (prevPalette palette : Palette) (colorId : string) (newColor : Color)
    : Palette :=
  let updatedColors :=
    map (fun color =>
           if String.eqb (id color) colorId
           then {| id := colorId; hex := hex newColor; rgb := rgb newColor;
                   hsl := hsl newColor; isLocked := isLocked newColor |}
           else color)
        (colors palette) in
  {| colors := updatedColors; name := name prevPalette; createdAt := createdAt prevPalette |}.

(** The colour [handleToneSelect] builds from the selected colour and a
    tone; [hexToRgb] may throw. *)
Definition colorWithTone (selectedColorForTones : Color) (tone : ColorTone) : Error + Color :=
  match hexToRgb (toneHex tone) with
  | inl e => inl e
  | inr channels =>
      inr {| id := id selectedColorForTones;
             hex := toneHex tone;
             rgb := channels;
             hsl := {| h := h (hsl selectedColorForTones);
                       s := s (hsl selectedColorForTones);
                       l := Types.lightness tone |};
             isLocked := isLocked selectedColorForTones |}
  end.

End PaletteHook.

Import PaletteValidation ToneLadder PaletteHook.

(** ** Vocabulary of the further properties *)

(** The upper-case digit of a value below 16. *)
Definition upperDigit (d : Z) : ascii := upperChar (hexDigitChar d).

(** What is checked of the two digits [toHex] writes for the byte [k]:
    in upper case they are the digits of [k / 16] and of [k mod 16]. *)
Definition byteWritesDigits (k : Z) : bool :=
  String.eqb (toUpperCase (toHex (inject_Z k)))
             (String (upperDigit (k / 16)) (String (upperDigit (k mod 16)) EmptyString)).

(** A colour as the generator makes them: a whole hue in [0,359], a
    whole saturation in [60,100], a whole lightness in [40,70], not
    locked, with [rgb] and [hex] computed from [hsl]. *)
Definition generatedColor (color : Color) : Prop :=
  (exists kh ks kl : Z,
      (0 <= kh <= 359)%Z /\ (60 <= ks <= 100)%Z /\ (40 <= kl <= 70)%Z /\
      h (hsl color) == inject_Z kh /\ s (hsl color) == inject_Z ks /\
      l (hsl color) == inject_Z kl) /\
  isLocked color = false /\
  rgb color = hslToRgb (h (hsl color)) (s (hsl color)) (l (hsl color)) /\
  hex color = rgbToHex (r (rgb color)) (g (rgb color)) (b (rgb color)).

(** The world [w'] is [w] after at least [least] and at most [most]
    calls of [Math.random] and exactly [ids] calls of [randomUUID]. *)
Definition advanced (w w' : World) (least most ids : nat) : Prop :=
  randomSource w' = randomSource w /\ uuidSource w' = uuidSource w /\ now w' = now w /\
  (drawn w + least <= drawn w')%nat /\ (drawn w' <= drawn w + most)%nat /\
  issued w' = (issued w + ids)%nat.

(** Six locked colours, and a name. *)
Definition greenPalette : Palette :=
  {| colors := map (fun uuid => colorOfHsl uuid 120 80 50 true)
                   ["a"; "b"; "c"; "d"; "e"; "f"]%string;
     name := Some "green"%string;
     createdAt := 7 |}.

(** A base colour as saturated as the generator makes them. *)
Definition coolBase : Color := colorOfHsl "a" 200 65 45 false.

(** ** Vocabulary of the properties on doubles *)

Module DoubleCheck.

Import Floats PrimInt63.
Local Open Scope float_scope.

(** [Math.round (k / 8)] and [(k / 8) % c], computed with integers; the
    definitions of [Double] are compared with them on a grid, where the
    sign of a zero shows. *)
Definition roundOfEighths (k : Z) : float :=
  let n := ((k + 4) / 8)%Z in
  if ((n =? 0)%Z && (k <? 0)%Z)%bool then neg_zero else Double.ofZ n.

Definition roundAgrees (k : Z) : bool :=
  Leibniz.eqb (Double.Math_round (Double.ofZ k / 8)) (roundOfEighths k).

Definition remOfEighths (k c : Z) : float :=
  let n := Z.rem k (8 * c) in
  if ((n =? 0)%Z && (k <? 0)%Z)%bool then neg_zero else Double.ofZ n / 8.

Definition remAgrees (c k : Z) : bool :=
  Leibniz.eqb (Double.rem (Double.ofZ k / 8) (Double.ofZ c)) (remOfEighths k c).

(** The rational that a finite double is, read off the library's
    decomposition of a double into sign, mantissa and exponent. *)
Definition exact (x : float) : Q :=
  match Prim2SF x with
  | S754_finite sign m e =>
      let v := if sign then Z.neg m else Z.pos m in
      if (0 <=? e)%Z then inject_Z (v * 2 ^ e) else Qmake v (2 ^ Z.to_pos (- e))
  | _ => 0%Q
  end.

(** [Math.round] and [%] on doubles against [Math.round] and [%] on the
    rationals these doubles are: both are exact operations, so the two
    must agree whatever the double. *)
Definition roundIsExact (x : float) : bool :=
  Qeq_bool (exact (Double.Math_round x)) (JS.Math_round (exact x)).

Definition remIsExact (c a : float) : bool :=
  Qeq_bool (exact (Double.rem a c)) (JS.rem (exact a) (exact c)).

(** Doubles with full mantissas to compare them on. *)
Definition sevenths (k : Z) : float := Double.ofZ k / 7.

(** The circular distance between two hues, as [getMinHueDifference] and
    [validatePalette] compute it. *)
Definition hueDistance (a c : float) : float :=
  let diff := Double.Math_abs (a - c) in
  Double.Math_min diff (360 - diff).

(** The part of [hslToRgb] that looks at the hue only. *)
Definition normalHue (h0 : float) : float := Double.rem (Double.rem h0 360 + 360) 360.

Definition ramp (h : float) : float := 1 - Double.Math_abs (Double.rem (h / 60) 2 - 1).

(** The three numbers [hslToRgb] hands to [Math.round], from a
    normalised hue and its ramp. *)
Definition unrounded (h t s0 l0 : float) : float * float * float :=
  let s := Double.Math_max 0 (Double.Math_min 100 s0) / 100 in
  let l := Double.Math_max 0 (Double.Math_min 100 l0) / 100 in
  let c := (1 - Double.Math_abs (2 * l - 1)) * s in
  let x := c * t in
  let m := l - c / 2 in
  let '(r1, g1, b1) :=
    if (Double.le 0 h && Double.lt h 60)%bool then (c, x, 0)
    else if (Double.le 60 h && Double.lt h 120)%bool then (x, c, 0)
    else if (Double.le 120 h && Double.lt h 180)%bool then (0, c, x)
    else if (Double.le 180 h && Double.lt h 240)%bool then (0, x, c)
    else if (Double.le 240 h && Double.lt h 300)%bool then (x, 0, c)
    else if (Double.le 300 h && Double.lt h 360)%bool then (c, 0, x)
    else (0, 0, 0) in
  ((r1 + m) * 255, (g1 + m) * 255, (b1 + m) * 255).

(** The three numbers of one colour, as a list. *)
Definition channelsOf (s0 l0 h0 : Z) : list float :=
  let hn := normalHue (Double.ofZ h0) in
  let '(yr, yg, yb) := unrounded hn (ramp hn) (Double.ofZ s0) (Double.ofZ l0) in
  [yr; yg; yb].

(** The byte that [Math.round] makes of a number that is not negative,
    if it makes one: the same computation as in [Double.Math_round]. *)
Definition roundedByte (y : float) : option int :=
  if Leibniz.eqb y 0 then Some 0%uint63
  else if (is_nan y || is_infinity y || is_zero y)%bool then None
  else
    let '(f, e) := frshiftexp y in
    if PrimInt63.leb 2154 e then None
    else if get_sign y then None
    else
      let k := PrimInt63.sub 2154 e in
      let half := PrimInt63.lsl 1 (PrimInt63.sub k 1) in
      let n := PrimInt63.lsr (PrimInt63.add (normfr_mantissa f) half) k in
      if PrimInt63.leb n 255 then Some n else None.

(** What [hexToHsl] answers on the string of [hslToHex], computed
    without writing and reading the string. *)
Definition roundTrip (h t s0 l0 : float) : option Double.HSL :=
  let '(yr, yg, yb) := unrounded h t s0 l0 in
  match roundedByte yr, roundedByte yg, roundedByte yb with
  | Some nr, Some ng, Some nb =>
      Some (Double.rgbToHsl (of_uint63 nr) (of_uint63 ng) (of_uint63 nb))
  | _, _, _ => None
  end.

(** What is checked of the two digits [toHex] writes for the byte [k]:
    they are upper-case already, neither is a [#], and [parseInt] reads
    them back as the same double. *)
Definition byteReadsBack (k : Z) : bool :=
  let x := of_uint63 (Uint63.of_Z k) in
  match JS.toUpperCase (Double.toHex x) with
  | String c1 (String c2 EmptyString) =>
      (Ascii.eqb (JS.upperChar c1) c1 && Ascii.eqb (JS.upperChar c2) c2 &&
       negb (Ascii.eqb c1 "#") && negb (Ascii.eqb c2 "#") &&
       match Double.parseInt16 (String c1 (String c2 EmptyString)) with
       | Some v => Leibniz.eqb v x
       | None => false
       end)%bool
  | _ => false
  end.

(** The three comparisons of the round trip. *)
Definition comesBack (tolerance hq sq lq : float) (back : Double.HSL) : bool :=
  (Double.le (hueDistance (Double.h back) hq) tolerance &&
   Double.le (Double.Math_abs (Double.s back - sq)) tolerance &&
   Double.le (Double.Math_abs (Double.l back - lq)) tolerance)%bool.

Definition tripleSurvives (hq hn t : float) (s0 l0 : Z) : bool :=
  match roundTrip hn t (Double.ofZ s0) (Double.ofZ l0) with
  | Some back => comesBack 2 hq (Double.ofZ s0) (Double.ofZ l0) back
  | None => false
  end.

(** All the saturations 60 to 100 and all the lightnesses 40 to 70, for
    one hue; what depends on the hue only is computed once. *)
Definition hueSurvives (h0 : Z) : bool :=
  let hq := Double.ofZ h0 in
  let hn := normalHue hq in
  let t := ramp hn in
  forallb (fun s0 => forallb (tripleSurvives hq hn t s0) (range 40 31)) (range 60 41).

(** The test of [validateToneConsistency] on what [hexToHsl] answered. *)
Definition toneAccepted (baseHue baseSaturation toneLightness : float)
    (toneHsl : Double.HSL) : bool :=
  let hueDiff := Double.Math_abs (Double.h toneHsl - baseHue) in
  let hueMatch :=
    (Double.le hueDiff 4 || Double.le (Double.Math_abs (hueDiff - 360)) 4)%bool in
  let saturationMatch :=
    Double.le (Double.Math_abs (Double.s toneHsl - baseSaturation)) 4 in
  let lightnessMatch :=
    Double.le (Double.Math_abs (Double.l toneHsl - toneLightness)) 4 in
  (hueMatch && saturationMatch && lightnessMatch)%bool.

Definition toneSurvives (hq hn t : float) (s0 : Z) (step : Double.ColorTone) : bool :=
  match roundTrip hn t (Double.ofZ s0) (Double.lightness step) with
  | Some back => toneAccepted hq (Double.ofZ s0) (Double.lightness step) back
  | None => false
  end.

(** All the saturations 46 to 100 and the ten steps of the table, for
    one hue. *)
Definition ladderSurvives (h0 : Z) : bool :=
  let hq := Double.ofZ h0 in
  let hn := normalHue hq in
  let t := ramp hn in
  forallb (fun s0 => forallb (toneSurvives hq hn t s0) Double.TONE_STEPS) (range 46 55).

(** A colour put together the way [createColorFromHsl] does. *)
Definition colorOfHsl (uuid : string) (h0 s0 l0 : float) (locked : bool) : Double.Color :=
  let rgb := Double.hslToRgb h0 s0 l0 in
  {| Double.id := uuid;
     Double.hex := Double.rgbToHex (Double.r rgb) (Double.g rgb) (Double.b rgb);
     Double.rgb := rgb;
     Double.hsl := {| Double.h := h0; Double.s := s0; Double.l := l0 |};
     Double.isLocked := locked |}.

(** Two base colours: one as saturated as the generator makes them, one
    paler than any it makes. *)
Definition coolBase : Double.Color := colorOfHsl "a" 200 65 45 false.
Definition paleBase : Double.Color := colorOfHsl "a" 5 45 50 false.

End DoubleCheck.

(** * Properties *)

(** ** Lock toggling *)

Section ToggleColorLock.

Variable colorId : string.

Lemma toggleColorLock_colors (p : Palette) :
  colors (toggleColorLock p colorId) = map (toggled colorId) (colors p).
Proof. reflexivity. Qed.

Lemma toggled_fields (c : Color) :
  id (toggled colorId c) = id c /\ hex (toggled colorId c) = hex c /\
  rgb (toggled colorId c) = rgb c /\ hsl (toggled colorId c) = hsl c /\
  isLocked (toggled colorId c) =
    (if String.eqb (id c) colorId then negb (isLocked c) else isLocked c).
Proof.
  unfold toggled. destruct (String.eqb (id c) colorId); simpl; repeat split.
Qed.

Lemma toggled_other (c : Color) : id c <> colorId -> toggled colorId c = c.
Proof.
  intros Hne. unfold toggled.
  destruct (String.eqb_spec (id c) colorId) as [Heq | _]; [contradiction | reflexivity].
Qed.

Lemma map_toggled_absent (cs : list Color) :
  (forall c, In c cs -> id c <> colorId) -> map (toggled colorId) cs = cs.
Proof.
  induction cs as [| c cs IH]; intros Habs; simpl.
  - reflexivity.
  - rewrite toggled_other by (apply Habs; left; reflexivity).
    rewrite IH; [reflexivity |].
    intros c' Hin. apply Habs. right. exact Hin.
Qed.

End ToggleColorLock.

(** C9. [toggleColorLock p colorId] keeps the number of colours and their
    positions; at every position the colour keeps its [id], [hex], [rgb]
    and [hsl], its [isLocked] flag is inverted exactly when its [id] is
    [colorId], a colour with another [id] is returned unchanged, and when
    no colour carries [colorId] the colours of the result are those of
    [p]. Nothing is thrown: the function is total. *)
Theorem toggleColorLock_isolation :
  forall (p : Palette) (colorId : string),
    List.length (colors (toggleColorLock p colorId)) = List.length (colors p) /\
    (forall (i : nat) (c : Color),
        nth_error (colors p) i = Some c ->
        exists c' : Color,
          nth_error (colors (toggleColorLock p colorId)) i = Some c' /\
          id c' = id c /\ hex c' = hex c /\ rgb c' = rgb c /\ hsl c' = hsl c /\
          isLocked c' =
            (if String.eqb (id c) colorId then negb (isLocked c) else isLocked c) /\
          (id c <> colorId -> c' = c)) /\
    ((forall c : Color, In c (colors p) -> id c <> colorId) ->
     colors (toggleColorLock p colorId) = colors p).
Proof.
  intros p colorId. rewrite toggleColorLock_colors.
  split; [apply length_map |]. split.
  - intros i c Hi. eexists. split.
    + rewrite nth_error_map, Hi. reflexivity.
    + pose proof (toggled_fields colorId c) as (H1 & H2 & H3 & H4 & H5).
      repeat (split; [assumption |]). apply toggled_other.
  - apply map_toggled_absent.
Qed.

(** ** The closest standard tone *)

Lemma lt_true_iff (a b : Q) : lt a b = true <-> a < b.
Proof.
  unfold lt. rewrite negb_true_iff, <- not_true_iff_false, Qle_bool_iff.
  split; [apply Qnot_le_lt | apply Qlt_not_le].
Qed.

Lemma lt_false_iff (a b : Q) : lt a b = false <-> b <= a.
Proof.
  unfold lt. rewrite negb_false_iff. apply Qle_bool_iff.
Qed.

Lemma le_true_iff (a b : Q) : le a b = true <-> a <= b.
Proof. apply Qle_bool_iff. Qed.

Section ClosestScan.

Variable target : Q.


Lemma scanned_step (seen : list ColorTone) (best : ColorTone * Q) (u : ColorTone) :
  scanned target seen best -> scanned target (seen ++ [u]) (closer target best u).
Proof.
  intros [Hgap (i & Hi & Hmin)].
  assert (Hlen : (i < List.length seen)%nat)
    by (apply nth_error_Some; rewrite Hi; discriminate).
  unfold closer. fold (gap target u).
  destruct (lt (gap target u) (snd best)) eqn:Hcmp.
  - apply lt_true_iff in Hcmp. rewrite Hgap in Hcmp.
    split; [reflexivity |]. exists (List.length seen). simpl. split.
    + rewrite nth_error_app2, Nat.sub_diag by lia. reflexivity.
    + intros j v Hj.
      destruct (Nat.lt_ge_cases j (List.length seen)) as [Hlt | Hge].
      * rewrite nth_error_app1 in Hj by exact Hlt.
        destruct (Hmin j v Hj) as [Hle _].
        split; [| intros _]; lra.
      * assert (Hjv : j = List.length seen /\ v = u).
        { rewrite nth_error_app2 in Hj by exact Hge.
          destruct (j - List.length seen)%nat as [| k] eqn:Hk; simpl in Hj.
          - injection Hj as <-. split; [lia | reflexivity].
          - destruct k; discriminate. }
        destruct Hjv as [-> ->]. split; [lra | lia].
  - apply lt_false_iff in Hcmp. rewrite Hgap in Hcmp.
    split; [exact Hgap |]. exists i. split.
    + rewrite nth_error_app1 by exact Hlen. exact Hi.
    + intros j v Hj.
      destruct (Nat.lt_ge_cases j (List.length seen)) as [Hlt | Hge].
      * rewrite nth_error_app1 in Hj by exact Hlt. apply Hmin. exact Hj.
      * assert (Hv : v = u).
        { rewrite nth_error_app2 in Hj by exact Hge.
          destruct (j - List.length seen)%nat as [| k]; simpl in Hj.
          - injection Hj as <-. reflexivity.
          - destruct k; discriminate. }
        subst v. split; [exact Hcmp | lia].
Qed.

Lemma scanned_fold (rest seen : list ColorTone) (best : ColorTone * Q) :
  scanned target seen best ->
  scanned target (seen ++ rest) (fold_left (closer target) rest best).
Proof.
  revert seen best.
  induction rest as [| u rest IH]; intros seen best Hinv; simpl.
  - rewrite app_nil_r. exact Hinv.
  - replace (seen ++ u :: rest) with ((seen ++ [u]) ++ rest)
      by (rewrite <- app_assoc; reflexivity).
    apply IH, scanned_step, Hinv.
Qed.

(** The scan started, as the source does, with the first step as the
    current best. *)
Lemma scanned_from_first (first : ColorTone) (rest : list ColorTone) :
  scanned target (first :: rest)
    (fold_left (closer target) (first :: rest) (first, gap target first)).
Proof.
  simpl. unfold closer at 2. fold (gap target first).
  replace (lt (gap target first) (snd (first, gap target first))) with false
    by (symmetry; apply lt_false_iff; simpl; lra).
  apply (scanned_fold rest [first]).
  split; [reflexivity |]. exists 0%nat. split; [reflexivity |].
  intros j u Hj. destruct j as [| j]; simpl in Hj.
  - injection Hj as <-. simpl. split; [lra | lia].
  - destruct j; discriminate.
Qed.

End ClosestScan.

Lemma outOfRange_true_iff (x : Q) : outOfRange x = true <-> x < 0 \/ 100 < x.
Proof.
  unfold outOfRange. rewrite orb_true_iff, !lt_true_iff. reflexivity.
Qed.

(** The table runs from the lightest step to the darkest. *)
Lemma TONE_STEPS_descending (i j : nat) (t u : ColorTone) :
  nth_error TONE_STEPS i = Some t -> nth_error TONE_STEPS j = Some u ->
  (j < i)%nat -> Types.lightness t < Types.lightness u.
Proof.
  intros Hi Hj Hlt.
  assert (Hbi : (i < 10)%nat)
    by (apply (nth_error_Some TONE_STEPS i); rewrite Hi; discriminate).
  do 10 (destruct i as [| i];
         [do 10 (destruct j as [| j];
                 [try lia; injection Hi as <-; injection Hj as <-;
                  vm_compute; reflexivity |]); lia |]).
  lia.
Qed.

(** C8. For a lightness in [0,100], [findClosestTone] returns a step of
    the standard table that minimises the absolute difference to the
    input and that is strictly closer than every step standing before it
    in the table, all of which are lighter (so of two equally close steps
    the earlier, lighter one is returned); outside [0,100] it throws the
    invalid-lightness error; [findClosestTone 52] is the step labelled
    500 with lightness 50. *)
Theorem findClosestTone_minimises :
  (forall x : Q,
      0 <= x /\ x <= 100 ->
      exists (i : nat) (t : ColorTone),
        findClosestTone x = inr t /\
        nth_error TONE_STEPS i = Some t /\
        forall (j : nat) (u : ColorTone),
          nth_error TONE_STEPS j = Some u ->
          Qabs (x - Types.lightness t) <= Qabs (x - Types.lightness u) /\
          ((j < i)%nat ->
           Qabs (x - Types.lightness t) < Qabs (x - Types.lightness u) /\
           Types.lightness t < Types.lightness u)) /\
  (forall x : Q,
      x < 0 \/ 100 < x -> findClosestTone x = inl (InvalidLightness x)) /\
  findClosestTone 52 =
    inr {| label := "500"; lightness := 50; toneHex := EmptyString |}.
Proof.
  split; [| split].
  - intros x [Hlo Hhi]. unfold findClosestTone.
    destruct (outOfRange x) eqn:Hout.
    + apply outOfRange_true_iff in Hout. lra.
    + pose proof (scanned_from_first x (nth 0 TONE_STEPS undefinedTone)
                    (tl TONE_STEPS)) as [_ (i & Hi & Hmin)].
      exists i. eexists. split; [reflexivity |]. split; [exact Hi |].
      intros j u Hj. destruct (Hmin j u Hj) as [Hle Hstrict].
      split; [exact Hle |]. intros Hlt. split; [exact (Hstrict Hlt) |].
      exact (TONE_STEPS_descending i j _ u Hi Hj Hlt).
  - intros x Hx. unfold findClosestTone.
    apply outOfRange_true_iff in Hx. rewrite Hx. reflexivity.
  - vm_compute. reflexivity.
Qed.

(** ** Numbers that are equal as rationals are treated alike *)

#[local] Instance le_compat : Proper (Qeq ==> Qeq ==> eq) le.
Proof. exact Qleb_comp. Qed.

#[local] Instance lt_compat : Proper (Qeq ==> Qeq ==> eq) lt.
Proof.
  intros a a' Ha c c' Hc. unfold lt. f_equal. apply Qleb_comp; assumption.
Qed.

#[local] Instance strictEq_compat : Proper (Qeq ==> Qeq ==> eq) strictEq.
Proof. exact Qeqb_comp. Qed.

#[local] Instance trunc_compat : Proper (Qeq ==> eq) trunc.
Proof.
  intros a a' Ha. unfold trunc.
  rewrite (Qleb_comp 0 0 (Qeq_refl 0) a a' Ha).
  destruct (Qle_bool 0 a'); [apply Qfloor_comp | apply Qceiling_comp]; exact Ha.
Qed.

#[local] Instance rem_compat : Proper (Qeq ==> Qeq ==> Qeq) rem.
Proof.
  intros a a' Ha c c' Hc. unfold rem.
  assert (Ht : trunc (a / c) = trunc (a' / c'))
    by (apply trunc_compat; rewrite Ha, Hc; reflexivity).
  rewrite Ht, Ha, Hc. reflexivity.
Qed.

#[local] Instance Math_round_compat : Proper (Qeq ==> eq) Math_round.
Proof.
  intros a a' Ha. unfold Math_round. rewrite Ha. reflexivity.
Qed.

#[local] Instance Math_abs_compat : Proper (Qeq ==> Qeq) Math_abs.
Proof. exact Qabs_wd_Proper. Qed.

#[local] Instance clamp_compat : Proper (Qeq ==> Qeq ==> Qeq ==> Qeq) clamp.
Proof.
  intros lo lo' Hlo hi hi' Hhi x x' Hx. unfold clamp.
  rewrite Hlo, Hhi, Hx. reflexivity.
Qed.

Lemma hslToRgb_compat (h1 h2 s1 s2 l1 l2 : Q) :
  h1 == h2 -> s1 == s2 -> l1 == l2 -> hslToRgb h1 s1 l1 = hslToRgb h2 s2 l2.
Proof.
  intros Hh Hs Hl. unfold hslToRgb. cbv zeta.
  set (a1 := rem (rem h1 360 + 360) 360).
  set (a2 := rem (rem h2 360 + 360) 360).
  assert (Ha : a1 == a2) by (unfold a1, a2; rewrite Hh; reflexivity).
  set (c1 := (1 - Math_abs (2 * (clamp 0 100 l1 / 100) - 1)) * (clamp 0 100 s1 / 100)).
  set (c2 := (1 - Math_abs (2 * (clamp 0 100 l2 / 100) - 1)) * (clamp 0 100 s2 / 100)).
  assert (Hc : c1 == c2) by (unfold c1, c2; rewrite Hs, Hl; reflexivity).
  set (x1 := c1 * (1 - Math_abs (rem (a1 / 60) 2 - 1))).
  set (x2 := c2 * (1 - Math_abs (rem (a2 / 60) 2 - 1))).
  assert (Hx : x1 == x2) by (unfold x1, x2; rewrite Ha, Hc; reflexivity).
  set (m1 := clamp 0 100 l1 / 100 - c1 / 2).
  set (m2 := clamp 0 100 l2 / 100 - c2 / 2).
  assert (Hm : m1 == m2) by (unfold m1, m2; rewrite Hl, Hc; reflexivity).
  clearbody a1 a2 c1 c2 x1 x2 m1 m2.
  repeat match goal with
         | |- context [le ?k a1] =>
             replace (le k a1) with (le k a2) by (rewrite Ha; reflexivity)
         | |- context [lt a1 ?k] =>
             replace (lt a1 k) with (lt a2 k) by (rewrite Ha; reflexivity)
         end.
  repeat match goal with
         | |- context [if ?t then _ else _] => destruct t
         end;
    f_equal; apply Math_round_compat;
    rewrite ?Hc, ?Hx, ?Hm; reflexivity.
Qed.

Lemma hslToHex_compat (h1 h2 s1 s2 l1 l2 : Q) :
  h1 == h2 -> s1 == s2 -> l1 == l2 -> hslToHex h1 s1 l1 = hslToHex h2 s2 l2.
Proof.
  intros Hh Hs Hl. unfold hslToHex.
  rewrite (hslToRgb_compat h1 h2 s1 s2 l1 l2 Hh Hs Hl). reflexivity.
Qed.

(** ** Tones look at the hue and the saturation of the base colour only *)

Lemma toneOf_base (c1 c2 : Color) (step : ColorTone) :
  h (hsl c1) == h (hsl c2) -> s (hsl c1) == s (hsl c2) ->
  toneOf c1 step = toneOf c2 step.
Proof.
  intros Hh Hs. unfold toneOf. f_equal.
  apply hslToHex_compat; [exact Hh | exact Hs | reflexivity].
Qed.

Lemma map_toneOf_base (c1 c2 : Color) (steps : list ColorTone) :
  h (hsl c1) == h (hsl c2) -> s (hsl c1) == s (hsl c2) ->
  map (toneOf c1) steps = map (toneOf c2) steps.
Proof.
  intros Hh Hs. apply map_ext. intros step. apply toneOf_base; assumption.
Qed.

(** C10. Two base colours whose hues are equal and whose saturations are
    equal give the same [generateTones], the same [generateAllTones] and,
    for every lightness, label and number printer, the same
    [generateSpecificTone] (the same tone or the same error), whatever
    their lightness, [id], [hex], [rgb] and [isLocked]. *)
Theorem tones_depend_on_hue_and_saturation :
  forall c1 c2 : Color,
    h (hsl c1) == h (hsl c2) ->
    s (hsl c1) == s (hsl c2) ->
    generateTones c1 = generateTones c2 /\
    generateAllTones c1 = generateAllTones c2 /\
    forall (numberToString : Q -> string) (lightness : Q) (label : option string),
      generateSpecificTone numberToString c1 lightness label =
      generateSpecificTone numberToString c2 lightness label.
Proof.
  intros c1 c2 Hh Hs. split; [| split].
  - unfold generateTones. apply map_toneOf_base; assumption.
  - unfold generateAllTones. apply map_toneOf_base; assumption.
  - intros numberToString x label. unfold generateSpecificTone.
    destruct (outOfRange x); [reflexivity |].
    do 2 f_equal. apply hslToHex_compat; [exact Hh | exact Hs | reflexivity].
Qed.

(** ** Hexadecimal strings *)

Lemma range_covers (f : Z -> bool) (n : nat) :
  forall lo : Z,
    forallb f (range lo n) = true ->
    forall k : Z, (lo <= k < lo + Z.of_nat n)%Z -> f k = true.
Proof.
  induction n as [| n IH]; intros lo Hall k Hk.
  - simpl in Hk. lia.
  - simpl in Hall. apply andb_true_iff in Hall as [Hlo Hrest].
    destruct (Z.eq_dec k lo) as [-> | Hne]; [exact Hlo |].
    apply (IH (lo + 1)%Z Hrest). lia.
Qed.

Lemma sameFraction_eq (a c : Q) : sameFraction a c = true -> a = c.
Proof.
  destruct a as [an ad], c as [cn cd]. unfold sameFraction. simpl.
  rewrite andb_true_iff, Z.eqb_eq, Pos.eqb_eq. intros [-> ->]. reflexivity.
Qed.

Lemma every_byte_reads_back :
  forall k : Z, (0 <= k <= 255)%Z -> byteReadsBack k = true.
Proof.
  intros k Hk. apply (range_covers byteReadsBack 256 0%Z); [| lia].
  vm_compute. reflexivity.
Qed.

Lemma Qfloor_inject_Z (k : Z) : Qfloor (inject_Z k) = k.
Proof. unfold Qfloor, inject_Z. apply Z.div_1_r. Qed.

Lemma clamp_bounds (lo hi x : Q) : lo <= hi -> lo <= clamp lo hi x /\ clamp lo hi x <= hi.
Proof.
  intros Hle. unfold clamp. split.
  - apply Q.le_max_l.
  - apply Q.max_lub; [exact Hle | apply Q.le_min_l].
Qed.

Lemma clamp_inside (lo hi x : Q) : lo <= x -> x <= hi -> clamp lo hi x == x.
Proof.
  intros Hlo Hhi. unfold clamp.
  rewrite (Q.min_r hi x Hhi). apply Q.max_r. exact Hlo.
Qed.

(** The byte that [toHex] writes. *)
Lemma Math_round_clamp_byte (n : Q) :
  exists k : Z, (0 <= k <= 255)%Z /\ Math_round (clamp 0 255 n) = inject_Z k.
Proof.
  exists (Qfloor (clamp 0 255 n + (1 # 2))). split; [| reflexivity].
  destruct (clamp_bounds 0 255 n) as [Hlo Hhi]; [lra |].
  split.
  - apply (Qfloor_resp_le 0 (clamp 0 255 n + (1 # 2))). lra.
  - assert (Hlt : (Qfloor (clamp 0 255 n + (1 # 2)) < 256)%Z).
    { rewrite Zlt_Qlt. apply Qle_lt_trans with (clamp 0 255 n + (1 # 2)).
      - apply Qfloor_le.
      - change (inject_Z 256) with 256. lra. }
    lia.
Qed.

Lemma Math_round_inject_Z (k : Z) : Math_round (inject_Z k) = inject_Z k.
Proof.
  unfold Math_round. f_equal.
  assert (Hlo : (k <= Qfloor (inject_Z k + (1 # 2)))%Z).
  { rewrite <- (Qfloor_inject_Z k) at 1. apply Qfloor_resp_le. lra. }
  assert (Hhi : (Qfloor (inject_Z k + (1 # 2)) < k + 1)%Z).
  { rewrite Zlt_Qlt. apply Qle_lt_trans with (inject_Z k + (1 # 2)).
    - apply Qfloor_le.
    - rewrite inject_Z_plus. change (inject_Z 1) with 1. lra. }
  lia.
Qed.

Lemma toHex_byte (n : Q) :
  exists k : Z, (0 <= k <= 255)%Z /\ toHex n = toHex (inject_Z k).
Proof.
  destruct (Math_round_clamp_byte n) as (k & Hk & Hround).
  exists k. split; [exact Hk |]. unfold toHex. rewrite Hround.
  assert (Hin : clamp 0 255 (inject_Z k) == inject_Z k).
  { apply clamp_inside.
    - change 0 with (inject_Z 0). rewrite <- Zle_Qle. lia.
    - change 255 with (inject_Z 255). rewrite <- Zle_Qle. lia. }
  rewrite (Math_round_compat _ _ Hin), Math_round_inject_Z. reflexivity.
Qed.

Lemma toUpperCase_app (u v : string) :
  toUpperCase (u ++ v) = (toUpperCase u ++ toUpperCase v)%string.
Proof.
  induction u as [| c u IH]; simpl; [reflexivity | rewrite IH; reflexivity].
Qed.

(** The two digits of a byte, as [byteReadsBack] checked them. *)
Lemma byte_digits (k : Z) :
  (0 <= k <= 255)%Z ->
  exists c1 c2 : ascii,
    toUpperCase (toHex (inject_Z k)) = String c1 (String c2 EmptyString) /\
    upperChar c1 = c1 /\ upperChar c2 = c2 /\
    Ascii.eqb c1 "#" = false /\ Ascii.eqb c2 "#" = false /\
    parseInt16 (String c1 (String c2 EmptyString)) = Some (inject_Z k).
Proof.
  intros Hk. pose proof (every_byte_reads_back k Hk) as Hok.
  unfold byteReadsBack in Hok.
  destruct (toUpperCase (toHex (inject_Z k))) as [| c1 [| c2 [| c3 rest]]];
    try discriminate.
  exists c1, c2.
  repeat rewrite andb_true_iff in Hok.
  destruct Hok as [[[[Hu1 Hu2] Hn1] Hn2] Hparse].
  apply Ascii.eqb_eq in Hu1, Hu2. apply negb_true_iff in Hn1, Hn2.
  repeat (split; [assumption || reflexivity |]).
  destruct (parseInt16 (String c1 (String c2 EmptyString))) as [v |];
    [| discriminate].
  f_equal. apply sameFraction_eq. exact Hparse.
Qed.

(** Reading back what [rgbToHex] wrote for three bytes. *)
Lemma hexToRgb_rgbToHex_bytes (k1 k2 k3 : Z) :
  (0 <= k1 <= 255)%Z -> (0 <= k2 <= 255)%Z -> (0 <= k3 <= 255)%Z ->
  hexToRgb (rgbToHex (inject_Z k1) (inject_Z k2) (inject_Z k3)) =
  inr {| r := inject_Z k1; g := inject_Z k2; b := inject_Z k3 |}.
Proof.
  intros H1 H2 H3.
  destruct (byte_digits k1 H1) as (a1 & a2 & Ea & Ua1 & Ua2 & Na1 & Na2 & Pa).
  destruct (byte_digits k2 H2) as (c1 & c2 & Ec & Uc1 & Uc2 & Nc1 & Nc2 & Pc).
  destruct (byte_digits k3 H3) as (d1 & d2 & Ed & Ud1 & Ud2 & Nd1 & Nd2 & Pd).
  unfold rgbToHex. cbn [toUpperCase].
  rewrite !toUpperCase_app, Ea, Ec, Ed.
  unfold hexToRgb. cbn [append removeFirst].
  change (Ascii.eqb (upperChar "#") "#") with true. cbv iota.
  cbn [toUpperCase]. rewrite Ua1, Ua2, Uc1, Uc2, Ud1, Ud2.
  cbn [String.length Nat.eqb negb]. cbv iota.
  unfold substring. cbn [Nat.sub String.substring].
  rewrite Pa, Pc, Pd. reflexivity.
Qed.

Lemma rgbToHex_bytes (r0 g0 b0 : Q) :
  exists k1 k2 k3 : Z,
    (0 <= k1 <= 255)%Z /\ (0 <= k2 <= 255)%Z /\ (0 <= k3 <= 255)%Z /\
    rgbToHex r0 g0 b0 = rgbToHex (inject_Z k1) (inject_Z k2) (inject_Z k3).
Proof.
  destruct (toHex_byte r0) as (k1 & H1 & E1).
  destruct (toHex_byte g0) as (k2 & H2 & E2).
  destruct (toHex_byte b0) as (k3 & H3 & E3).
  exists k1, k2, k3. repeat (split; [assumption |]).
  unfold rgbToHex. rewrite E1, E2, E3. reflexivity.
Qed.

(** C6. For red, green and blue in [0,255], the string written by
    [rgbToHex] is accepted by [hexToRgb], and writing the channels read
    back gives the same string again. (The bounds are those of the
    claim; [rgbToHex] clamps, so the proof does not need them.) *)
Theorem hex_round_trip_exact :
  forall r0 g0 b0 : Q,
    0 <= r0 /\ r0 <= 255 ->
    0 <= g0 /\ g0 <= 255 ->
    0 <= b0 /\ b0 <= 255 ->
    exists back : RGB,
      hexToRgb (rgbToHex r0 g0 b0) = inr back /\
      rgbToHex (r back) (g back) (b back) = rgbToHex r0 g0 b0.
Proof.
  intros r0 g0 b0 _ _ _.
  destruct (rgbToHex_bytes r0 g0 b0) as (k1 & k2 & k3 & H1 & H2 & H3 & E).
  exists {| r := inject_Z k1; g := inject_Z k2; b := inject_Z k3 |}.
  rewrite E. split; [apply hexToRgb_rgbToHex_bytes; assumption | reflexivity].
Qed.

Lemma hex_round_trip_exact_witness :
  exists back : RGB,
    hexToRgb (rgbToHex 255 (175 # 2) 51) = inr back /\
    rgbToHex (r back) (g back) (b back) = rgbToHex 255 (175 # 2) 51.
Proof.
  apply (hex_round_trip_exact 255 (175 # 2) 51);
    split; unfold Qle; simpl; lia.
Defined.

(** *** What [parseInt] does with two hexadecimal digits *)

Ltac each_char c :=
  destruct c as [[] [] [] [] [] [] [] []].

Lemma digitValue_bounds (c : ascii) : (0 <= digitValue c <= 15)%Z.
Proof. each_char c; vm_compute; split; discriminate. Qed.

Lemma digit_not_blank (c : ascii) : isHexDigit c = true -> isWhiteSpace c = false.
Proof. each_char c; vm_compute; intros H; try reflexivity; discriminate H. Qed.

Lemma digit_not_sign (c : ascii) (rest : string) :
  isHexDigit c = true -> stripSign (String c rest) = (false, String c rest).
Proof. each_char c; vm_compute; intros H; try reflexivity; discriminate H. Qed.

Lemma digit_not_x (c1 c2 : ascii) (rest : string) :
  isHexDigit c2 = true ->
  strip0x (String c1 (String c2 rest)) = String c1 (String c2 rest).
Proof.
  intros H2. unfold strip0x. each_char c1; try reflexivity.
  revert H2. each_char c2; vm_compute; intros H; try reflexivity; discriminate H.
Qed.

Lemma hexDigitValue_digit (c : ascii) :
  isHexDigit c = true -> hexDigitValue c = Some (digitValue c).
Proof.
  unfold isHexDigit, digitValue.
  destruct (hexDigitValue c); [reflexivity | discriminate].
Qed.

Lemma parseInt16_two_digits (c1 c2 : ascii) :
  isHexDigit c1 = true -> isHexDigit c2 = true ->
  parseInt16 (String c1 (String c2 EmptyString)) =
  Some (inject_Z (16 * digitValue c1 + digitValue c2)).
Proof.
  intros H1 H2. unfold parseInt16.
  cbn [trimStart]. rewrite (digit_not_blank c1 H1).
  rewrite (digit_not_sign c1 _ H1), (digit_not_x c1 c2 _ H2).
  cbn [hexPrefix].
  rewrite (hexDigitValue_digit c1 H1), (hexDigitValue_digit c2 H2).
  cbv iota. do 2 f_equal; lia.
Qed.

Lemma base16_two_digits (c1 c2 : ascii) :
  base16 (String c1 (String c2 EmptyString)) =
  (16 * digitValue c1 + digitValue c2)%Z.
Proof. unfold base16. lia. Qed.

Lemma base16_two_digits_byte (c1 c2 : ascii) :
  (0 <= base16 (String c1 (String c2 EmptyString)) <= 255)%Z.
Proof.
  rewrite base16_two_digits.
  pose proof (digitValue_bounds c1). pose proof (digitValue_bounds c2). lia.
Qed.

(** Six hexadecimal digits are read as three bytes. *)
Lemma hexToRgb_reads_six_digits (hex : string) :
  sixHexDigits (toUpperCase (removeFirst "#" hex)) = true ->
  exists red green blue : Z,
    red = base16 (substring 0 2 (toUpperCase (removeFirst "#" hex))) /\
    green = base16 (substring 2 4 (toUpperCase (removeFirst "#" hex))) /\
    blue = base16 (substring 4 6 (toUpperCase (removeFirst "#" hex))) /\
    hexToRgb hex =
      inr {| r := inject_Z red; g := inject_Z green; b := inject_Z blue |} /\
    (0 <= red <= 255)%Z /\ (0 <= green <= 255)%Z /\ (0 <= blue <= 255)%Z.
Proof.
  unfold hexToRgb.
  set (cleanHex := toUpperCase (removeFirst "#" hex)).
  unfold sixHexDigits. rewrite andb_true_iff. intros [Hlen Hdigits].
  rewrite Hlen. cbn [negb].
  destruct cleanHex as [| c1 [| c2 [| c3 [| c4 [| c5 [| c6 [| c7 rest]]]]]]];
    try discriminate Hlen.
  cbn [allHexDigits] in Hdigits. repeat rewrite andb_true_iff in Hdigits.
  destruct Hdigits as (D1 & D2 & D3 & D4 & D5 & D6 & _).
  unfold substring. cbn [Nat.sub String.substring].
  rewrite (parseInt16_two_digits c1 c2 D1 D2),
          (parseInt16_two_digits c3 c4 D3 D4),
          (parseInt16_two_digits c5 c6 D5 D6).
  rewrite <- !base16_two_digits.
  do 3 eexists. do 4 (split; [reflexivity |]).
  repeat split; apply base16_two_digits_byte.
Qed.






(** [parseInt] stops at the first character that is not a digit without
    complaining, so a group that merely starts with a digit is accepted;
    [isValidHex] refuses the same strings. *)
Example hexToRgb_reads_digit_prefixes :
  hexToRgb "1G2H3I" = inr {| r := 1; g := 2; b := 3 |} /\
  hexToRgb "-1+2 3" = inr {| r := -1; g := 2; b := 3 |} /\
  isValidHex "1G2H3I" = false /\ isValidHex "-1+2 3" = false.
Proof. repeat split; vm_compute; reflexivity. Qed.

(** Six characters that [parseInt] cannot read at all, and six of which
    it cannot read the middle two: the error is thrown. *)
Example hexToRgb_throws_on_unreadable_groups :
  hexToRgb "GGGGGG" = inl (InvalidFormat "GGGGGG") /\
  hexToRgb "#12XY56" = inl (InvalidFormat "#12XY56") /\
  hexToRgb "120x56" = inl (InvalidFormat "120x56") /\
  hexToRgb "12 -56" = inl (InvalidFormat "12 -56").
Proof. repeat split; vm_compute; reflexivity. Qed.

(** ** Running the generator *)

Lemma returns_ret {A : Type} (a : A) (w : World) (post : A -> World -> Prop) :
  post a w -> returns (ret a) w post.
Proof. intros Hpost. exists a, w. split; [reflexivity | exact Hpost]. Qed.

Lemma returns_bind {A B : Type} (c : M A) (k : A -> M B) (w : World)
    (post : B -> World -> Prop) :
  returns c w (fun a w' => returns (k a) w' post) -> returns (bind c k) w post.
Proof.
  intros (a & w' & Hc & (v & w'' & Hk & Hpost)).
  exists v, w''. split; [| exact Hpost].
  unfold bind. rewrite Hc. exact Hk.
Qed.

Lemma returns_weaken {A : Type} (c : M A) (w : World) (p q : A -> World -> Prop) :
  (forall a w', p a w' -> q a w') -> returns c w p -> returns c w q.
Proof.
  intros Himp (a & w' & Hc & Hp). exists a, w'. split; [exact Hc | auto].
Qed.

Lemma Math_random_returns (w : World) :
  unitInterval w ->
  returns Math_random w (fun u w' => unitInterval w' /\ 0 <= u /\ u < 1).
Proof.
  intros Hw. eexists. eexists. split; [reflexivity |].
  split; [exact Hw | apply Hw].
Qed.

Lemma randomUUID_returns (w : World) :
  unitInterval w -> returns randomUUID w (fun _ w' => unitInterval w').
Proof.
  intros Hw. eexists. eexists. split; [reflexivity | exact Hw].
Qed.

Lemma Qfloor_scaled (u : Q) (n : Z) :
  0 <= u -> u < 1 -> (0 < n)%Z ->
  (0 <= Qfloor (u * inject_Z n) <= n - 1)%Z.
Proof.
  intros Hlo Hhi Hn.
  assert (Hn' : 0 < inject_Z n)
    by (change 0 with (inject_Z 0); rewrite <- Zlt_Qlt; exact Hn).
  split.
  - apply (Qfloor_resp_le 0). nra.
  - assert (Hlt : (Qfloor (u * inject_Z n) < n)%Z).
    { rewrite Zlt_Qlt. apply Qle_lt_trans with (u * inject_Z n).
      - apply Qfloor_le.
      - nra. }
    lia.
Qed.

(** [randomInRange] between two whole numbers answers a whole number
    between them. *)
Lemma randomInRange_returns (lo hi : Z) (w : World) :
  unitInterval w -> (lo <= hi)%Z ->
  returns (randomInRange (inject_Z lo) (inject_Z hi)) w
    (fun v w' => unitInterval w' /\
                 exists k : Z, (lo <= k <= hi)%Z /\ v == inject_Z k).
Proof.
  intros Hw Hle. unfold randomInRange.
  apply returns_bind.
  eapply returns_weaken; [| exact (Math_random_returns w Hw)].
  intros u w' (Hw' & Hlo & Hhi).
  apply returns_ret. split; [exact Hw' |].
  assert (Hspan : inject_Z hi - inject_Z lo + 1 == inject_Z (hi - lo + 1)).
  { unfold Zminus. rewrite !inject_Z_plus, inject_Z_opp. reflexivity. }
  pose proof (Qfloor_scaled u (hi - lo + 1) Hlo Hhi ltac:(lia)) as Hk.
  exists (Qfloor (u * inject_Z (hi - lo + 1)) + lo)%Z. split; [lia |].
  unfold Math_floor. rewrite inject_Z_plus.
  rewrite (Qfloor_comp _ _ (Qmult_comp _ _ (Qeq_refl u) _ _ Hspan)).
  reflexivity.
Qed.

Lemma createColorFromHsl_returns (h0 s0 l0 : Q) (locked : bool) (w : World) :
  unitInterval w -> isValidHsl h0 s0 l0 = true ->
  returns (createColorFromHsl h0 s0 l0 locked) w
    (fun color w' => unitInterval w' /\
                     hsl color = {| h := h0; s := s0; l := l0 |} /\
                     isLocked color = locked).
Proof.
  intros Hw Hvalid. unfold createColorFromHsl. rewrite Hvalid. cbn [negb].
  apply returns_bind.
  eapply returns_weaken; [| exact (randomUUID_returns w Hw)].
  intros uuid w' Hw'. apply returns_ret.
  split; [exact Hw' | split; reflexivity].
Qed.

Lemma whole_in_range (v : Q) (k lo hi : Z) :
  v == inject_Z k -> (lo <= k <= hi)%Z -> inject_Z lo <= v /\ v <= inject_Z hi.
Proof.
  intros Hv Hk. rewrite Hv, <- !Zle_Qle. exact Hk.
Qed.

Lemma isValidHsl_generated (hue saturation lightness : Q) (kh ks kl : Z) :
  hue == inject_Z kh -> (0 <= kh <= 359)%Z ->
  saturation == inject_Z ks -> (60 <= ks <= 100)%Z ->
  lightness == inject_Z kl -> (40 <= kl <= 70)%Z ->
  isValidHsl hue saturation lightness = true.
Proof.
  intros Eh Hh Es Hs El Hl.
  destruct (whole_in_range hue kh 0 360 Eh ltac:(lia)) as [H1 H2].
  destruct (whole_in_range saturation ks 0 100 Es ltac:(lia)) as [H3 H4].
  destruct (whole_in_range lightness kl 0 100 El ltac:(lia)) as [H5 H6].
  unfold isValidHsl. rewrite !andb_true_iff, !le_true_iff.
  repeat split; assumption.
Qed.

(** Drawing a saturation and a lightness and building the colour, as
    both [generateRandomColor] and the search do once a hue is chosen. *)
Lemma finish_color_returns (hue : Q) (kh : Z) (w : World) :
  unitInterval w -> hue == inject_Z kh -> (0 <= kh <= 359)%Z ->
  returns
    (bind (randomInRange SATURATION_MIN SATURATION_MAX) (fun saturation =>
     bind (randomInRange LIGHTNESS_MIN LIGHTNESS_MAX) (fun lightness =>
     createColorFromHsl hue saturation lightness false))) w
    (fun color w' => unitInterval w' /\ h (hsl color) = hue /\ wholeHue color).
Proof.
  intros Hw Eh Hh.
  apply returns_bind.
  eapply returns_weaken; [| exact (randomInRange_returns 60 100 w Hw ltac:(lia))].
  intros saturation w1 (Hw1 & ks & Hs & Es).
  apply returns_bind.
  eapply returns_weaken; [| exact (randomInRange_returns 40 70 w1 Hw1 ltac:(lia))].
  intros lightness w2 (Hw2 & kl & Hl & El).
  eapply returns_weaken;
    [| apply (createColorFromHsl_returns hue saturation lightness false w2 Hw2);
       exact (isValidHsl_generated _ _ _ kh ks kl Eh Hh Es Hs El Hl)].
  intros color w3 (Hw3 & Hhsl & _).
  split; [exact Hw3 |].
  assert (Hhue : h (hsl color) = hue) by (rewrite Hhsl; reflexivity).
  split; [exact Hhue |]. exists kh. rewrite Hhue. split; assumption.
Qed.

Lemma generateRandomColor_returns (w : World) :
  unitInterval w ->
  returns generateRandomColor w (fun color w' => unitInterval w' /\ wholeHue color).
Proof.
  intros Hw. unfold generateRandomColor.
  apply returns_bind.
  eapply returns_weaken; [| exact (randomInRange_returns 0 359 w Hw ltac:(lia))].
  intros hue w1 (Hw1 & kh & Hh & Eh).
  eapply returns_weaken; [| exact (finish_color_returns hue kh w1 Hw1 Eh Hh)].
  intros color w2 (Hw2 & _ & Hwhole). split; assumption.
Qed.

(** The search either accepts a whole hue that is far enough from every
    existing hue, or runs out. *)
Lemma searchDistinctHue_returns (attempts : nat) (existingHues : list Q) :
  forall w : World,
    unitInterval w ->
    returns (searchDistinctHue attempts existingHues) w
      (fun found w' =>
         unitInterval w' /\
         match found with
         | Some color =>
             wholeHue color /\
             MIN_HUE_DIFFERENCE <= getMinHueDifference (h (hsl color)) existingHues
         | None => True
         end).
Proof.
  induction attempts as [| attempts IH]; intros w Hw.
  - apply returns_ret. split; [exact Hw | exact I].
  - cbn [searchDistinctHue]. apply returns_bind.
    eapply returns_weaken; [| exact (randomInRange_returns 0 359 w Hw ltac:(lia))].
    intros hue w1 (Hw1 & kh & Hh & Eh).
    destruct (le MIN_HUE_DIFFERENCE (getMinHueDifference hue existingHues)) eqn:Hfar.
    + apply le_true_iff in Hfar.
      apply returns_bind.
      eapply returns_weaken; [| exact (randomInRange_returns 60 100 w1 Hw1 ltac:(lia))].
      intros saturation w2 (Hw2 & ks & Hs & Es).
      apply returns_bind.
      eapply returns_weaken; [| exact (randomInRange_returns 40 70 w2 Hw2 ltac:(lia))].
      intros lightness w3 (Hw3 & kl & Hl & El).
      apply returns_bind.
      eapply returns_weaken;
        [| apply (createColorFromHsl_returns hue saturation lightness false w3 Hw3);
           exact (isValidHsl_generated _ _ _ kh ks kl Eh Hh Es Hs El Hl)].
      intros color w4 (Hw4 & Hhsl & _).
      apply returns_ret. split; [exact Hw4 |].
      assert (Hhue : h (hsl color) = hue) by (rewrite Hhsl; reflexivity).
      rewrite Hhue. split; [| exact Hfar].
      exists kh. rewrite Hhue. split; assumption.
    + apply IH. exact Hw1.
Qed.

Lemma generateDistinctColor_returns (existingColors : list Color) (maxAttempts : nat)
    (w : World) :
  unitInterval w ->
  returns (generateDistinctColor existingColors maxAttempts) w
    (fun color w' => unitInterval w' /\ wholeHue color).
Proof.
  intros Hw. unfold generateDistinctColor. apply returns_bind.
  eapply returns_weaken; [| exact (searchDistinctHue_returns _ _ w Hw)].
  intros [color |] w1 [Hw1 Hfound].
  - apply returns_ret. split; [exact Hw1 | apply Hfound].
  - apply generateRandomColor_returns. exact Hw1.
Qed.

(** [fillPalette] appends exactly the wanted number of generated
    colours to what it was given. *)
Lemma fillPalette_returns (colorsNeeded : nat) :
  forall (newColors : list Color) (w : World),
    unitInterval w ->
    returns (fillPalette colorsNeeded newColors) w
      (fun filled w' =>
         unitInterval w' /\
         exists generated : list Color,
           filled = newColors ++ generated /\
           List.length generated = colorsNeeded /\
           Forall wholeHue generated).
Proof.
  induction colorsNeeded as [| rest IH]; intros newColors w Hw.
  - apply returns_ret. split; [exact Hw |].
    exists []. rewrite app_nil_r. repeat split. constructor.
  - cbn [fillPalette]. apply returns_bind.
    eapply returns_weaken; [| exact (generateDistinctColor_returns _ _ w Hw)].
    intros newColor w1 [Hw1 Hwhole].
    eapply returns_weaken; [| exact (IH (newColors ++ [newColor]) w1 Hw1)].
    intros filled w2 (Hw2 & generated & Hfilled & Hlen & Hall).
    split; [exact Hw2 |].
    exists (newColor :: generated). split; [| split].
    + rewrite Hfilled, <- app_assoc. reflexivity.
    + simpl. rewrite Hlen. reflexivity.
    + constructor; assumption.
Qed.

Lemma generateHarmoniousPalette_returns
    (existingColors : list Color) (options : option PaletteGenerationOptions)
    (w : World) :
  unitInterval w ->
  returns (generateHarmoniousPalette existingColors options) w
    (fun palette w' =>
       unitInterval w' /\
       List.length (colors palette) = 5%nat /\
       exists generated : list Color,
         colors palette = firstn 5 (lockedColorsOf existingColors options ++ generated) /\
         List.length generated =
           (5 - List.length (lockedColorsOf existingColors options))%nat /\
         Forall wholeHue generated).
Proof.
  intros Hw. unfold generateHarmoniousPalette.
  change (if match options with
             | Some o => match preserveLocked o with Some v => v | None => true end
             | None => true
             end
          then filter isLocked existingColors else [])
    with (lockedColorsOf existingColors options).
  set (lockedColors := lockedColorsOf existingColors options).
  apply returns_bind.
  eapply returns_weaken; [| exact (fillPalette_returns _ lockedColors w Hw)].
  intros filled w1 (Hw1 & generated & Hfilled & Hlen & Hall).
  apply returns_bind. exists (now w1), w1. split; [reflexivity |].
  apply returns_ret. split; [exact Hw1 |]. cbn [colors].
  assert (Hneed : List.length generated = (5 - List.length lockedColors)%nat).
  { rewrite Hlen. unfold PALETTE_SIZE. lia. }
  split.
  - rewrite length_firstn, Hfilled, length_app, Hneed. unfold PALETTE_SIZE. lia.
  - exists generated. rewrite Hfilled. repeat split; assumption.
Qed.

(** C2. Whatever colours it is given (any number of them, locked or
    not) and whatever the options, [generateHarmoniousPalette] returns,
    without throwing, a palette of exactly 5 colours; so do
    [generateFreshPalette] and [regeneratePalette] on any palette. The
    random source is only assumed to answer in [0,1). *)
Theorem palette_size_always_five :
  forall w : World,
    unitInterval w ->
    (forall (existingColors : list Color) (options : option PaletteGenerationOptions),
        exists (palette : Palette) (w' : World),
          generateHarmoniousPalette existingColors options w = inr (palette, w') /\
          List.length (colors palette) = 5%nat) /\
    (exists (palette : Palette) (w' : World),
        generateFreshPalette w = inr (palette, w') /\
        List.length (colors palette) = 5%nat) /\
    (forall current : Palette,
        exists (palette : Palette) (w' : World),
          regeneratePalette current w = inr (palette, w') /\
          List.length (colors palette) = 5%nat).
Proof.
  intros w Hw.
  assert (Hall : forall existingColors options,
             exists (palette : Palette) (w' : World),
               generateHarmoniousPalette existingColors options w = inr (palette, w') /\
               List.length (colors palette) = 5%nat).
  { intros existingColors options.
    destruct (generateHarmoniousPalette_returns existingColors options w Hw)
      as (palette & w' & Hrun & _ & Hlen & _).
    exists palette, w'. split; assumption. }
  split; [exact Hall |]. split.
  - apply Hall.
  - intros current. apply Hall.
Qed.

Lemma stuckWorld_unitInterval : unitInterval stuckWorld.
Proof. intros n. simpl. split; [apply Qle_refl | reflexivity]. Qed.

Lemma spreadWorld_unitInterval : unitInterval spreadWorld.
Proof.
  intros n. cbn [randomSource spreadWorld].
  pose proof (Nat.mod_upper_bound (n / 3) 5 ltac:(lia)) as Hlt.
  generalize dependent ((n / 3) mod 5)%nat. intros k Hk.
  unfold Qle, Qlt. cbn [Qnum Qden]. lia.
Qed.

Lemma palette_size_always_five_witness :
  (forall (existingColors : list Color) (options : option PaletteGenerationOptions),
      exists (palette : Palette) (w' : World),
        generateHarmoniousPalette existingColors options spreadWorld = inr (palette, w') /\
        List.length (colors palette) = 5%nat) /\
  (exists (palette : Palette) (w' : World),
      generateFreshPalette spreadWorld = inr (palette, w') /\
      List.length (colors palette) = 5%nat) /\
  (forall current : Palette,
      exists (palette : Palette) (w' : World),
        regeneratePalette current spreadWorld = inr (palette, w') /\
        List.length (colors palette) = 5%nat).
Proof.
  apply (palette_size_always_five spreadWorld). exact spreadWorld_unitInterval.
Defined.

(** C1. For a palette of 5 colours, [regeneratePalette] returns, without
    throwing, a palette of exactly 5 colours whose list of colours begins
    with the locked colours of the input, the very same values ([id],
    [hex], [rgb], [hsl], [isLocked]) in their original order, followed by
    the newly generated ones; in particular every locked input colour is
    in the result. *)
Theorem regeneratePalette_keeps_locked :
  forall (current : Palette) (w : World),
    unitInterval w ->
    List.length (colors current) = 5%nat ->
    exists (palette : Palette) (w' : World) (generated : list Color),
      regeneratePalette current w = inr (palette, w') /\
      List.length (colors palette) = 5%nat /\
      colors palette = filter isLocked (colors current) ++ generated /\
      (forall color : Color,
          In color (colors current) -> isLocked color = true ->
          In color (colors palette)).
Proof.
  intros current w Hw Hfive.
  destruct (generateHarmoniousPalette_returns (colors current)
              (Some (onlyPreserveLocked true)) w Hw)
    as (palette & w' & Hrun & _ & Hlen & generated & Hcolors & Hgen & _).
  change (lockedColorsOf (colors current) (Some (onlyPreserveLocked true)))
    with (filter isLocked (colors current)) in Hcolors, Hgen.
  pose proof (filter_length_le isLocked (colors current)) as Hle.
  assert (Hall : colors palette = filter isLocked (colors current) ++ generated).
  { rewrite Hcolors. apply firstn_all2. rewrite length_app. lia. }
  exists palette, w', generated.
  split; [exact Hrun |]. split; [exact Hlen |]. split; [exact Hall |].
  intros color Hin Hlocked. rewrite Hall. apply in_or_app. left.
  apply filter_In. split; assumption.
Qed.

Lemma regeneratePalette_keeps_locked_witness :
  exists (palette : Palette) (w' : World) (generated : list Color),
    regeneratePalette samplePalette spreadWorld = inr (palette, w') /\
    List.length (colors palette) = 5%nat /\
    colors palette = filter isLocked (colors samplePalette) ++ generated /\
    (forall color : Color,
        In color (colors samplePalette) -> isLocked color = true ->
        In color (colors palette)).
Proof.
  apply (regeneratePalette_keeps_locked samplePalette spreadWorld).
  - exact spreadWorld_unitInterval.
  - reflexivity.
Defined.

(** ** Hue separation *)

Lemma returns_both {A : Type} (c : M A) (w : World) (p q : A -> World -> Prop) :
  returns c w p -> returns c w q -> returns c w (fun a w' => p a w' /\ q a w').
Proof.
  intros (a & w1 & Hrun & Hp) (a' & w2 & Hrun' & Hq).
  rewrite Hrun in Hrun'. injection Hrun' as <- <-.
  exists a, w1. repeat split; assumption.
Qed.

Lemma Math_min_ge (bound : Q) (ds : list Q) :
  forall d : Q, bound <= Math_min d ds -> bound <= d /\ Forall (Qle bound) ds.
Proof.
  unfold Math_min.
  induction ds as [| e ds IH]; intros d Hle; simpl in Hle.
  - split; [exact Hle | constructor].
  - destruct (IH _ Hle) as [Hmin Hrest].
    apply Q.min_glb_iff in Hmin as [Hd He].
    split; [exact Hd | constructor; assumption].
Qed.

Lemma getMinHueDifference_far (bound newHue : Q) (existingHues : list Q) :
  bound <= getMinHueDifference newHue existingHues ->
  Forall (fun existingHue => bound <= hueDistance newHue existingHue) existingHues.
Proof.
  unfold getMinHueDifference.
  destruct existingHues as [| e rest]; intros Hle; [constructor |].
  cbn [map] in Hle. apply Math_min_ge in Hle as [He Hrest].
  constructor; [exact He |].
  rewrite Forall_map in Hrest. exact Hrest.
Qed.

Lemma hueDistance_sym (a c : Q) : hueDistance a c == hueDistance c a.
Proof.
  unfold hueDistance, Math_abs.
  assert (Habs : Qabs (a - c) == Qabs (c - a)).
  { rewrite <- (Qabs_opp (a - c)). apply Qabs_wd. ring. }
  rewrite Habs. reflexivity.
Qed.

Lemma pairwiseApart_snoc (cs : list Color) (c : Color) :
  pairwiseApart cs -> Forall (fun e => apart e c) cs -> pairwiseApart (cs ++ [c]).
Proof.
  induction cs as [| e cs IH]; intros Hpair Hfar; simpl.
  - split; [constructor | exact I].
  - destruct Hpair as [Hhead Htail].
    apply Forall_cons_iff in Hfar as [Hec Hfar].
    split.
    + apply Forall_app. split; [exact Hhead | constructor; [exact Hec | constructor]].
    + apply IH; assumption.
Qed.

(** A search that accepts hands its colour to [generateDistinctColor],
    and that colour is apart from every existing one. *)
Lemma generateDistinctColor_accepted (existingColors : list Color) (w : World) :
  unitInterval w ->
  searchAccepts existingColors w = true ->
  returns (generateDistinctColor existingColors 50) w
    (fun color w' => unitInterval w' /\ Forall (fun e => apart e color) existingColors).
Proof.
  intros Hw Hacc. unfold searchAccepts in Hacc.
  destruct (searchDistinctHue_returns 50
              (map (fun color => h (hsl color)) existingColors) w Hw)
    as (found & w1 & Hrun & Hw1 & Hfound).
  rewrite Hrun in Hacc. destruct found as [color |]; [| discriminate].
  exists color, w1. split.
  - unfold generateDistinctColor, bind. rewrite Hrun. reflexivity.
  - split; [exact Hw1 |]. destruct Hfound as [_ Hfar].
    apply getMinHueDifference_far in Hfar.
    rewrite Forall_map in Hfar.
    apply Forall_impl with (2 := Hfar).
    intros e He. unfold apart. rewrite hueDistance_sym. exact He.
Qed.

Lemma fillPalette_apart (colorsNeeded : nat) :
  forall (newColors : list Color) (w : World),
    unitInterval w ->
    pairwiseApart newColors ->
    noFallback colorsNeeded newColors w = true ->
    returns (fillPalette colorsNeeded newColors) w
      (fun filled _ => pairwiseApart filled).
Proof.
  induction colorsNeeded as [| rest IH]; intros newColors w Hw Hpair Hno.
  - apply returns_ret. exact Hpair.
  - cbn [noFallback] in Hno. apply andb_true_iff in Hno as [Hacc Hrest].
    destruct (generateDistinctColor_accepted newColors w Hw Hacc)
      as (color & w1 & Hrun & Hw1 & Hfar).
    rewrite Hrun in Hrest.
    cbn [fillPalette]. apply returns_bind.
    exists color, w1. split; [exact Hrun |].
    apply IH; [exact Hw1 | | exact Hrest].
    apply pairwiseApart_snoc; assumption.
Qed.

(** C3, as amended. When the random source answers in [0,1) and none of
    the five searches of the run runs out of attempts (so the
    unconstrained fallback draw is never taken), [generateFreshPalette]
    returns 5 colours of which every two have hues at least 30 apart on
    the circle. *)
Theorem fresh_palette_apart_without_fallback :
  forall w : World,
    unitInterval w ->
    noFallback 5 [] w = true ->
    exists (palette : Palette) (w' : World),
      generateFreshPalette w = inr (palette, w') /\
      List.length (colors palette) = 5%nat /\
      pairwiseApart (colors palette).
Proof.
  intros w Hw Hno.
  unfold generateFreshPalette, generateHarmoniousPalette.
  cbn [onlyPreserveLocked preserveLocked filter List.length].
  change (Z.to_nat (Z.of_nat PALETTE_SIZE - Z.of_nat 0)) with 5%nat.
  destruct (returns_both _ _ _ _
              (fillPalette_returns 5 [] w Hw)
              (fillPalette_apart 5 [] w Hw I Hno))
    as (filled & w1 & Hrun & (_ & generated & Hfilled & Hlen & _) & Hpair).
  exists {| colors := firstn PALETTE_SIZE filled; name := None; createdAt := now w1 |}, w1.
  assert (Hsame : firstn PALETTE_SIZE filled = filled).
  { apply firstn_all2. rewrite Hfilled. simpl. rewrite Hlen. unfold PALETTE_SIZE. lia. }
  split.
  - unfold bind. rewrite Hrun. reflexivity.
  - cbn [colors]. rewrite Hsame. split; [| exact Hpair].
    rewrite Hfilled. simpl. exact Hlen.
Qed.

Lemma fresh_palette_apart_without_fallback_witness :
  exists (palette : Palette) (w' : World),
    generateFreshPalette spreadWorld = inr (palette, w') /\
    List.length (colors palette) = 5%nat /\
    pairwiseApart (colors palette).
Proof.
  apply (fresh_palette_apart_without_fallback spreadWorld).
  - exact spreadWorld_unitInterval.
  - vm_compute. reflexivity.
Defined.

(** C3, the counterexample. With a random source that always answers 0
    (an answer [Math.random] may give), every search draws the hue 0
    fifty times, runs out and falls back: the fresh palette has five
    colours of hue 0, and the first two are not apart. *)
Lemma fresh_palette_repeats_hue :
  unitInterval stuckWorld /\
  exists (palette : Palette) (w' : World),
    generateFreshPalette stuckWorld = inr (palette, w') /\
    map (fun color => h (hsl color)) (colors palette) = [0; 0; 0; 0; 0] /\
    ~ pairwiseApart (colors palette).
Proof.
  split; [exact stuckWorld_unitInterval |].
  eexists. eexists. split; [vm_compute; reflexivity |].
  split; [reflexivity |].
  intros [Hfirst _]. apply Forall_inv in Hfirst.
  vm_compute in Hfirst. apply Hfirst. reflexivity.
Qed.

(** ** The hue that is stored *)

Lemma Math_round_of_fraction (x : Q) :
  0 <= x -> x <= 1 ->
  exists k : Z, (0 <= k <= 360)%Z /\ Math_round (x * 360) = inject_Z k.
Proof.
  intros Hlo Hhi. exists (Qfloor (x * 360 + (1 # 2))). split; [| reflexivity].
  split.
  - apply (Qfloor_resp_le 0). lra.
  - assert (Hlt : (Qfloor (x * 360 + (1 # 2)) < 361)%Z).
    { rewrite Zlt_Qlt. apply Qle_lt_trans with (x * 360 + (1 # 2)).
      - apply Qfloor_le.
      - change (inject_Z 361) with 361. lra. }
    lia.
Qed.

Lemma Math_round_of_sixths (x : Q) :
  0 <= x -> x <= 6 ->
  exists k : Z, (0 <= k <= 360)%Z /\ Math_round (x / 6 * 360) = inject_Z k.
Proof.
  intros Hlo Hhi. apply Math_round_of_fraction;
    unfold Qdiv; change (/ 6) with (1 # 6); lra.
Qed.

(** A difference of two channels over the spread of the three. *)
Lemma channel_ratio (n d : Q) :
  0 < d -> - d <= n -> n <= d ->
  - (1) <= n / d /\ n / d <= 1 /\ (n < 0 -> n / d < 0) /\ (0 <= n -> 0 <= n / d).
Proof.
  intros Hd Hlo Hhi.
  assert (Hne : ~ d == 0) by lra.
  pose proof (Qmult_div_r n d Hne) as Ht.
  set (t := n / d) in *. clearbody t.
  split; [nra |]. split; [nra |]. split; intros Hn; nra.
Qed.

Lemma rgbToHsl_hue_range (r0 g0 b0 : Q) :
  exists k : Z, (0 <= k <= 360)%Z /\ h (rgbToHsl r0 g0 b0) = inject_Z k.
Proof.
  unfold rgbToHsl. cbv zeta.
  set (r1 := clamp 0 255 r0 / 255).
  set (g1 := clamp 0 255 g0 / 255).
  set (b1 := clamp 0 255 b0 / 255).
  set (hi := Qmax (Qmax r1 g1) b1).
  set (lo := Qmin (Qmin r1 g1) b1).
  assert (Hr : lo <= r1 /\ r1 <= hi).
  { split.
    - apply Qle_trans with (Qmin r1 g1); [apply Q.le_min_l | apply Q.le_min_l].
    - apply Qle_trans with (Qmax r1 g1); [apply Q.le_max_l | apply Q.le_max_l]. }
  assert (Hg : lo <= g1 /\ g1 <= hi).
  { split.
    - apply Qle_trans with (Qmin r1 g1); [apply Q.le_min_l | apply Q.le_min_r].
    - apply Qle_trans with (Qmax r1 g1); [apply Q.le_max_r | apply Q.le_max_l]. }
  assert (Hb : lo <= b1 /\ b1 <= hi)
    by (split; [apply Q.le_min_r | apply Q.le_max_r]).
  clearbody hi lo r1 g1 b1.
  destruct (strictEq (hi - lo) 0) eqn:Hflat.
  - cbn [h]. apply Math_round_of_fraction; lra.
  - apply Qeq_bool_neq in Hflat.
    assert (Hd : 0 < hi - lo) by (apply Qnot_le_lt; intros Hle; apply Hflat; lra).
    destruct (strictEq hi r1).
    + destruct (channel_ratio (g1 - b1) (hi - lo) Hd) as (H1 & H2 & H3 & H4);
        [lra | lra |].
      destruct (lt g1 b1) eqn:Hgb; cbn [h]; apply Math_round_of_sixths.
      * lra.
      * apply lt_true_iff in Hgb. assert (g1 - b1 < 0) by lra. lra.
      * apply lt_false_iff in Hgb. assert (0 <= g1 - b1) by lra. lra.
      * lra.
    + destruct (strictEq hi g1).
      * destruct (channel_ratio (b1 - r1) (hi - lo) Hd) as (H1 & H2 & _);
          [lra | lra |].
        cbn [h]. apply Math_round_of_sixths; lra.
      * destruct (strictEq hi b1).
        -- destruct (channel_ratio (r1 - g1) (hi - lo) Hd) as (H1 & H2 & _);
             [lra | lra |].
           cbn [h]. apply Math_round_of_sixths; lra.
        -- cbn [h]. apply Math_round_of_fraction; lra.
Qed.

Lemma createColorFromHsl_runs (h0 s0 l0 : Q) (locked : bool) (w : World) :
  isValidHsl h0 s0 l0 = true ->
  exists w' : World,
    createColorFromHsl h0 s0 l0 locked w =
    inr (colorOfHsl (uuidSource w (issued w)) h0 s0 l0 locked, w').
Proof.
  intros Hvalid. unfold createColorFromHsl. rewrite Hvalid.
  eexists. reflexivity.
Qed.

Lemma createColorFromRgb_runs (r0 g0 b0 : Q) (locked : bool) (w : World) :
  isValidRgb r0 g0 b0 = true ->
  exists (color : Color) (w' : World),
    createColorFromRgb r0 g0 b0 locked w = inr (color, w') /\
    hsl color = rgbToHsl r0 g0 b0.
Proof.
  intros Hvalid. unfold createColorFromRgb. rewrite Hvalid.
  eexists. eexists. split; reflexivity.
Qed.

Lemma upperChar_digit (c : ascii) : isHexDigit c = true -> isHexDigit (upperChar c) = true.
Proof. each_char c; vm_compute; intros H; exact H. Qed.

Lemma sixHexDigits_upper (text : string) :
  sixHexDigits text = true -> sixHexDigits (toUpperCase text) = true.
Proof.
  unfold sixHexDigits. rewrite !andb_true_iff. intros [Hlen Hall]. split.
  - rewrite <- Hlen. f_equal. clear. induction text as [| c text IH]; simpl; congruence.
  - clear Hlen. induction text as [| c text IH]; [reflexivity |].
    cbn [allHexDigits toUpperCase] in *.
    apply andb_true_iff in Hall as [Hc Hrest].
    rewrite (upperChar_digit c Hc), (IH Hrest). reflexivity.
Qed.

Lemma createColorFromHex_runs (hex : string) (locked : bool) (w : World) :
  isValidHex hex = true ->
  exists (color : Color) (w' : World) (channels : RGB),
    createColorFromHex hex locked w = inr (color, w') /\
    hexToRgb hex = inr channels /\
    hsl color = rgbToHsl (r channels) (g channels) (b channels).
Proof.
  intros Hvalid. unfold createColorFromHex. rewrite Hvalid. cbn [negb].
  destruct (hexToRgb_reads_six_digits hex (sixHexDigits_upper _ Hvalid))
    as (red & green & blue & _ & _ & _ & Hread & _).
  unfold bind, liftE. rewrite Hread.
  eexists. eexists. eexists. repeat split.
Qed.

Lemma Forall_firstn {A : Type} (P : A -> Prop) (n : nat) (xs : list A) :
  Forall P xs -> Forall P (firstn n xs).
Proof.
  intros Hall. apply Forall_forall. intros x Hin.
  rewrite Forall_forall in Hall. apply Hall.
  rewrite <- (firstn_skipn n xs). apply in_or_app. left. exact Hin.
Qed.

(** C5, as amended. [createColorFromHsl] stores the hue it is given,
    which [isValidHsl] lets range over the closed interval [0,360];
    [createColorFromRgb] and [createColorFromHex] store a whole number of
    degrees in [0,360]; every colour that the palette generators make
    (all the colours of [generateFreshPalette], and the colours that
    [generateHarmoniousPalette] and [regeneratePalette] put after the
    preserved locked ones) has a whole hue in [0,360). *)
Theorem stored_hue_ranges :
  (forall (h0 s0 l0 : Q) (locked : bool) (w : World),
      isValidHsl h0 s0 l0 = true ->
      exists (color : Color) (w' : World),
        createColorFromHsl h0 s0 l0 locked w = inr (color, w') /\
        h (hsl color) = h0 /\ 0 <= h (hsl color) /\ h (hsl color) <= 360) /\
  (forall (r0 g0 b0 : Q) (locked : bool) (w : World),
      isValidRgb r0 g0 b0 = true ->
      exists (color : Color) (w' : World) (k : Z),
        createColorFromRgb r0 g0 b0 locked w = inr (color, w') /\
        h (hsl color) = inject_Z k /\ (0 <= k <= 360)%Z) /\
  (forall (hex : string) (locked : bool) (w : World),
      isValidHex hex = true ->
      exists (color : Color) (w' : World) (k : Z),
        createColorFromHex hex locked w = inr (color, w') /\
        h (hsl color) = inject_Z k /\ (0 <= k <= 360)%Z) /\
  (forall w : World,
      unitInterval w ->
      (exists (palette : Palette) (w' : World),
          generateFreshPalette w = inr (palette, w') /\
          Forall wholeHue (colors palette)) /\
      (forall (existingColors : list Color) (options : option PaletteGenerationOptions),
          exists (palette : Palette) (w' : World) (generated : list Color),
            generateHarmoniousPalette existingColors options w = inr (palette, w') /\
            colors palette =
              firstn 5 (lockedColorsOf existingColors options ++ generated) /\
            Forall wholeHue generated) /\
      (forall current : Palette,
          exists (palette : Palette) (w' : World) (generated : list Color),
            regeneratePalette current w = inr (palette, w') /\
            colors palette =
              firstn 5 (filter isLocked (colors current) ++ generated) /\
            Forall wholeHue generated)).
Proof.
  split; [| split; [| split]].
  - intros h0 s0 l0 locked w Hvalid.
    destruct (createColorFromHsl_runs h0 s0 l0 locked w Hvalid) as (w' & Hrun).
    eexists. exists w'. split; [exact Hrun |]. cbn [hsl h colorOfHsl].
    split; [reflexivity |].
    unfold isValidHsl in Hvalid. rewrite !andb_true_iff, !le_true_iff in Hvalid.
    split; apply Hvalid.
  - intros r0 g0 b0 locked w Hvalid.
    destruct (createColorFromRgb_runs r0 g0 b0 locked w Hvalid)
      as (color & w' & Hrun & Hhsl).
    destruct (rgbToHsl_hue_range r0 g0 b0) as (k & Hk & Hhue).
    exists color, w', k. rewrite Hhsl. repeat split; assumption || apply Hk.
  - intros hex locked w Hvalid.
    destruct (createColorFromHex_runs hex locked w Hvalid)
      as (color & w' & channels & Hrun & _ & Hhsl).
    destruct (rgbToHsl_hue_range (r channels) (g channels) (b channels))
      as (k & Hk & Hhue).
    exists color, w', k. rewrite Hhsl. repeat split; assumption || apply Hk.
  - intros w Hw.
    assert (Hall : forall existingColors options,
               exists (palette : Palette) (w' : World) (generated : list Color),
                 generateHarmoniousPalette existingColors options w = inr (palette, w') /\
                 colors palette =
                   firstn 5 (lockedColorsOf existingColors options ++ generated) /\
                 Forall wholeHue generated).
    { intros existingColors options.
      destruct (generateHarmoniousPalette_returns existingColors options w Hw)
        as (palette & w' & Hrun & _ & _ & generated & Hcolors & _ & Hgen).
      exists palette, w', generated. repeat split; assumption. }
    split; [| split].
    + destruct (Hall [] (Some (onlyPreserveLocked false)))
        as (palette & w' & generated & Hrun & Hcolors & Hgen).
      exists palette, w'. split; [exact Hrun |].
      rewrite Hcolors. apply Forall_firstn. exact Hgen.
    + exact Hall.
    + intros current. apply Hall.
Qed.

(** C5, the counterexample. The hue 360 passes [isValidHsl] and is
    stored as it is. *)
Lemma createColorFromHsl_stores_360 :
  exists (color : Color) (w' : World),
    createColorFromHsl 360 100 50 false stuckWorld = inr (color, w') /\
    h (hsl color) = 360 /\ ~ h (hsl color) < 360.
Proof.
  eexists. eexists. split; [vm_compute; reflexivity |].
  split; [reflexivity |]. cbn [hsl h]. discriminate.
Qed.

(** The hue computed from red, green and blue is not wrapped either: a
    red with a trace of blue rounds up to 360. *)
Example rgbToHsl_rounds_up_to_360 :
  h (rgbToHsl 255 0 1) = 360.
Proof. vm_compute. reflexivity. Qed.

(** ** The conversions on doubles *)

Section DoubleConversions.

Import Floats PrimInt63.
Local Open Scope float_scope.

(** *** The definitions against integer arithmetic and against the engine *)

(** On the eighths between -256 and 256, [Double.Math_round] is the
    integer computation of [Math.round]: halves go up, also below zero,
    and what rounds to zero from below is the negative zero. *)
Lemma Math_round_on_eighths : forallb DoubleCheck.roundAgrees (range (-2048) 4097) = true.
Proof. vm_compute. reflexivity. Qed.

(** On the eighths between -500 and 500, [Double.rem] with the divisors
    360 and 2 is the integer remainder with the sign of the dividend. *)
Lemma rem_on_eighths :
  forallb (DoubleCheck.remAgrees 360) (range (-4000) 4001) = true /\
  forallb (DoubleCheck.remAgrees 360) (range 0 4001) = true /\
  forallb (DoubleCheck.remAgrees 2) (range (-4000) 4001) = true /\
  forallb (DoubleCheck.remAgrees 2) (range 0 4001) = true.
Proof.
  split; [vm_compute; reflexivity |].
  split; [vm_compute; reflexivity |].
  split; [vm_compute; reflexivity |].
  vm_compute.
  reflexivity.
Qed.

(** On doubles whose mantissas are full, [Double.Math_round] and
    [Double.rem] are [Math.round] and [%] of the rational model, taken
    on the rationals that the doubles are: on sevenths up to 500 in
    magnitude, on the numbers [hslToRgb] rounds for two rows of colours,
    and on the sixtieths [hslToRgb] takes modulo 2. *)
Lemma Math_round_is_exact :
  forallb (fun k => DoubleCheck.roundIsExact (DoubleCheck.sevenths k))
          (range (-2000) 4001) = true /\
  forallb (fun h0 => forallb DoubleCheck.roundIsExact (DoubleCheck.channelsOf 75 40 h0))
          (range 0 361) = true /\
  forallb (fun h0 => forallb DoubleCheck.roundIsExact (DoubleCheck.channelsOf 100 50 h0))
          (range 0 361) = true.
Proof.
  split; [vm_compute; reflexivity |].
  split; [vm_compute; reflexivity |].
  vm_compute.
  reflexivity.
Qed.

Lemma rem_is_exact :
  forallb (fun k => DoubleCheck.remIsExact 360 (DoubleCheck.sevenths k))
          (range (-3500) 2001) = true /\
  forallb (fun k => DoubleCheck.remIsExact 360 (DoubleCheck.sevenths k))
          (range 1500 2001) = true /\
  forallb (fun k => DoubleCheck.remIsExact 2 (DoubleCheck.sevenths k))
          (range (-1000) 2001) = true /\
  forallb (fun h0 => DoubleCheck.remIsExact 2 (Double.ofZ h0 / 60)) (range 0 361) = true.
Proof.
  split; [vm_compute; reflexivity |].
  split; [vm_compute; reflexivity |].
  split; [vm_compute; reflexivity |].
  vm_compute.
  reflexivity.
Qed.

(** [Math.round] where adding one half in doubles would go wrong, and
    at the ends of its range. *)
Example Math_round_at_the_edges :
  Double.Math_round 0x1.fffffffffffffp-2 = 0 /\
  Double.Math_round (-0.5) = neg_zero /\
  Double.Math_round (-0x1.0000000000001p-1) = -1 /\
  Double.Math_round 2.5 = 3 /\
  Double.Math_round (-2.5) = -2 /\
  Double.Math_round 0x1.fffffffffffffp51 = 0x1p52 /\
  Double.Math_round 0x1p-1074 = 0 /\
  Double.Math_round 0x1.fffffffffffffp1023 = 0x1.fffffffffffffp1023 /\
  Double.Math_round neg_zero = neg_zero /\
  Double.Math_round infinity = infinity.
Proof. repeat split; vm_compute; reflexivity. Qed.

(** Values on which the exact computation and the doubles part:
    [hslToRgb(0, 75, 40)] has green and blue 25 (26 exactly),
    [hslToHex(10, 80, 50)] is [#E63B19] ([#E63C1A] exactly) and
    [rgbToHsl(0, 13, 40)] has hue 220 (221 exactly). *)
Example doubles_round_as_the_engine :
  Double.hslToRgb 0 75 40 = {| Double.r := 179; Double.g := 25; Double.b := 25 |} /\
  hslToRgb 0 75 40 = {| r := 179; g := 26; b := 26 |} /\
  Double.hslToHex 10 80 50 = "#E63B19"%string /\
  hslToHex 10 80 50 = "#E63C1A"%string /\
  Double.rgbToHsl 0 13 40 = {| Double.h := 220; Double.s := 100; Double.l := 8 |} /\
  rgbToHsl 0 13 40 = {| h := 221; s := 100; l := 8 |}.
Proof. repeat split; vm_compute; reflexivity. Qed.

(** [NaN] goes through the conversions: the channels and the strings it
    gives are not valid, and [hexToRgb] throws on them. *)
Example not_a_number_goes_through :
  Double.hslToRgb 0 nan 50 = {| Double.r := nan; Double.g := nan; Double.b := nan |} /\
  Double.rgbToHsl nan 0 0 = {| Double.h := 0; Double.s := nan; Double.l := nan |} /\
  Double.rgbToHex nan 0 0 = "#NAN0000"%string /\
  Double.hslToHex 0 50 nan = "#NANNANNAN"%string /\
  isValidHex "#NAN0000" = false /\ isValidHex "#NANNANNAN" = false /\
  Double.hexToRgb "#NAN0000" = inl (InvalidFormat "#NAN0000") /\
  Double.hexToRgb "#NANNANNAN" = inl (InvalidFormat "#NANNANNAN").
Proof. repeat split; vm_compute; reflexivity. Qed.

(** *** Bytes written and read back *)

Lemma roundedByte_sound (y : float) (n : int) :
  DoubleCheck.roundedByte y = Some n ->
  Double.Math_round y = of_uint63 n /\ PrimInt63.leb n 255 = true.
Proof.
  unfold DoubleCheck.roundedByte, Double.Math_round.
  destruct (Leibniz.eqb y 0) eqn:Hzero.
  - apply Leibniz.eqb_spec in Hzero. subst y. intros [= <-]. split; reflexivity.
  - destruct (is_nan y || is_infinity y || is_zero y)%bool; [discriminate |].
    destruct (frshiftexp y) as [f e].
    destruct (PrimInt63.leb 2154 e); [discriminate |].
    destruct (get_sign y); [discriminate |].
    destruct (PrimInt63.leb
                (PrimInt63.lsr
                   (PrimInt63.add (normfr_mantissa f)
                      (PrimInt63.lsl 1 (PrimInt63.sub (PrimInt63.sub 2154 e) 1)))
                   (PrimInt63.sub 2154 e)) 255) eqn:Hbyte; [| discriminate].
    intros [= <-]. split; [reflexivity | exact Hbyte].
Qed.

Lemma every_byte_reads_back_double :
  forall k : Z, (0 <= k <= 255)%Z -> DoubleCheck.byteReadsBack k = true.
Proof.
  intros k Hk. apply (range_covers DoubleCheck.byteReadsBack 256 0%Z); [| lia].
  vm_compute. reflexivity.
Qed.

Lemma byte_of_int (n : int) :
  PrimInt63.leb n 255 = true ->
  exists k : Z, (0 <= k <= 255)%Z /\ n = Uint63.of_Z k.
Proof.
  intros Hle. exists (Uint63.to_Z n). split.
  - apply Uint63.leb_spec in Hle. change (Uint63.to_Z 255) with 255%Z in Hle.
    pose proof (Uint63.to_Z_bounded n). lia.
  - symmetry. apply Uint63.of_to_Z.
Qed.

Lemma byte_digits_double (n : int) :
  PrimInt63.leb n 255 = true ->
  exists c1 c2 : ascii,
    toUpperCase (Double.toHex (of_uint63 n)) = String c1 (String c2 EmptyString) /\
    upperChar c1 = c1 /\ upperChar c2 = c2 /\
    Ascii.eqb c1 "#" = false /\ Ascii.eqb c2 "#" = false /\
    Double.parseInt16 (String c1 (String c2 EmptyString)) = Some (of_uint63 n).
Proof.
  intros Hle. destruct (byte_of_int n Hle) as (k & Hk & ->).
  pose proof (every_byte_reads_back_double k Hk) as Hok.
  unfold DoubleCheck.byteReadsBack in Hok. cbv zeta in Hok.
  destruct (toUpperCase (Double.toHex (of_uint63 (Uint63.of_Z k))))
    as [| c1 [| c2 [| c3 rest]]]; try discriminate.
  exists c1, c2.
  repeat rewrite andb_true_iff in Hok.
  destruct Hok as [[[[Hu1 Hu2] Hn1] Hn2] Hparse].
  apply Ascii.eqb_eq in Hu1, Hu2. apply negb_true_iff in Hn1, Hn2.
  repeat (split; [assumption || reflexivity |]).
  destruct (Double.parseInt16 (String c1 (String c2 EmptyString))) as [v |];
    [| discriminate].
  apply Leibniz.eqb_spec in Hparse. rewrite Hparse. reflexivity.
Qed.

(** Reading back what [rgbToHex] wrote for three bytes. *)
Lemma hexToRgb_rgbToHex_double (nr ng nb : int) :
  PrimInt63.leb nr 255 = true -> PrimInt63.leb ng 255 = true ->
  PrimInt63.leb nb 255 = true ->
  Double.hexToRgb (Double.rgbToHex (of_uint63 nr) (of_uint63 ng) (of_uint63 nb)) =
  inr {| Double.r := of_uint63 nr; Double.g := of_uint63 ng; Double.b := of_uint63 nb |}.
Proof.
  intros H1 H2 H3.
  destruct (byte_digits_double nr H1) as (a1 & a2 & Ea & Ua1 & Ua2 & Na1 & Na2 & Pa).
  destruct (byte_digits_double ng H2) as (c1 & c2 & Ec & Uc1 & Uc2 & Nc1 & Nc2 & Pc).
  destruct (byte_digits_double nb H3) as (d1 & d2 & Ed & Ud1 & Ud2 & Nd1 & Nd2 & Pd).
  unfold Double.rgbToHex. cbn [toUpperCase].
  rewrite !toUpperCase_app, Ea, Ec, Ed.
  unfold Double.hexToRgb. cbn [append removeFirst].
  change (Ascii.eqb (upperChar "#") "#") with true. cbv iota.
  cbn [toUpperCase]. rewrite Ua1, Ua2, Uc1, Uc2, Ud1, Ud2.
  cbn [String.length Nat.eqb negb]. cbv iota.
  unfold substring. cbn [Nat.sub String.substring].
  rewrite Pa, Pc, Pd. reflexivity.
Qed.

(** *** From the check to the conversions *)

Lemma hslToRgb_unrounded (h0 s0 l0 : float) :
  Double.hslToRgb h0 s0 l0 =
  let '(yr, yg, yb) :=
    DoubleCheck.unrounded (DoubleCheck.normalHue h0)
      (DoubleCheck.ramp (DoubleCheck.normalHue h0)) s0 l0 in
  {| Double.r := Double.Math_round yr;
     Double.g := Double.Math_round yg;
     Double.b := Double.Math_round yb |}.
Proof.
  unfold Double.hslToRgb, DoubleCheck.unrounded, DoubleCheck.ramp, DoubleCheck.normalHue.
  cbv zeta.
  repeat match goal with
         | |- context [if (?a && ?c)%bool then _ else _] => destruct (a && c)%bool
         end; reflexivity.
Qed.

Lemma roundTrip_sound (h0 s0 l0 : float) (back : Double.HSL) :
  DoubleCheck.roundTrip (DoubleCheck.normalHue h0)
    (DoubleCheck.ramp (DoubleCheck.normalHue h0)) s0 l0 = Some back ->
  Double.hexToHsl (Double.hslToHex h0 s0 l0) = inr back.
Proof.
  unfold DoubleCheck.roundTrip, Double.hslToHex. rewrite hslToRgb_unrounded.
  destruct (DoubleCheck.unrounded (DoubleCheck.normalHue h0)
              (DoubleCheck.ramp (DoubleCheck.normalHue h0)) s0 l0) as [[yr yg] yb].
  destruct (DoubleCheck.roundedByte yr) as [nr |] eqn:Er; [| discriminate].
  destruct (DoubleCheck.roundedByte yg) as [ng |] eqn:Eg; [| discriminate].
  destruct (DoubleCheck.roundedByte yb) as [nb |] eqn:Eb; [| discriminate].
  intros [= <-].
  destruct (roundedByte_sound yr nr Er) as [-> Hr].
  destruct (roundedByte_sound yg ng Eg) as [-> Hg].
  destruct (roundedByte_sound yb nb Eb) as [-> Hb].
  cbv zeta. cbn [Double.r Double.g Double.b].
  unfold Double.hexToHsl. rewrite (hexToRgb_rgbToHex_double nr ng nb Hr Hg Hb).
  reflexivity.
Qed.

(** *** The round trip through RGB and HEX

    The 361 * 41 * 31 triples are gone through one by one. *)

Lemma roundTripSurvives_holds : forallb DoubleCheck.hueSurvives (range 0 361) = true.
Proof. vm_compute. reflexivity. Qed.

(** C7. For whole numbers [h0] in [0,360], [s0] in [60,100] and [l0] in
    [40,70] (the triples the property test of the repository draws),
    converting to RGB with [hslToRgb], writing the channels with
    [rgbToHex] and reading the string back with [hexToHsl] succeeds, and
    the result differs from the start by at most 2 in hue (on the circle),
    in saturation and in lightness. The conversions are those on doubles,
    and the three comparisons are the ones a test in JavaScript would
    make. *)
Theorem hsl_round_trip_within_two :
  forall h0 s0 l0 : Z,
    (0 <= h0 <= 360)%Z -> (60 <= s0 <= 100)%Z -> (40 <= l0 <= 70)%Z ->
    exists back : Double.HSL,
      Double.hexToHsl
        (let rgb := Double.hslToRgb (Double.ofZ h0) (Double.ofZ s0) (Double.ofZ l0) in
         Double.rgbToHex (Double.r rgb) (Double.g rgb) (Double.b rgb)) = inr back /\
      Double.le (DoubleCheck.hueDistance (Double.h back) (Double.ofZ h0)) 2 = true /\
      Double.le (Double.Math_abs (Double.s back - Double.ofZ s0)) 2 = true /\
      Double.le (Double.Math_abs (Double.l back - Double.ofZ l0)) 2 = true.
Proof.
  intros h0 s0 l0 Hh Hs Hl.
  pose proof (range_covers _ _ _ roundTripSurvives_holds h0 ltac:(lia)) as Hhue.
  unfold DoubleCheck.hueSurvives in Hhue. cbv zeta in Hhue.
  pose proof (range_covers _ _ _ Hhue s0 ltac:(lia)) as Hsat. cbv beta in Hsat.
  pose proof (range_covers _ _ _ Hsat l0 ltac:(lia)) as Htriple.
  clear Hhue Hsat. unfold DoubleCheck.tripleSurvives in Htriple.
  destruct (DoubleCheck.roundTrip (DoubleCheck.normalHue (Double.ofZ h0))
              (DoubleCheck.ramp (DoubleCheck.normalHue (Double.ofZ h0)))
              (Double.ofZ s0) (Double.ofZ l0)) as [back |] eqn:Hback; [| discriminate].
  exists back. split; [exact (roundTrip_sound _ _ _ _ Hback) |].
  unfold DoubleCheck.comesBack in Htriple. repeat rewrite andb_true_iff in Htriple.
  destruct Htriple as [[Dh Ds] Dl]. repeat split; assumption.
Qed.

Lemma hsl_round_trip_within_two_witness :
  exists back : Double.HSL,
    Double.hexToHsl
      (let rgb := Double.hslToRgb (Double.ofZ 9) (Double.ofZ 100) (Double.ofZ 60) in
       Double.rgbToHex (Double.r rgb) (Double.g rgb) (Double.b rgb)) = inr back /\
    Double.le (DoubleCheck.hueDistance (Double.h back) (Double.ofZ 9)) 2 = true /\
    Double.le (Double.Math_abs (Double.s back - Double.ofZ 100)) 2 = true /\
    Double.le (Double.Math_abs (Double.l back - Double.ofZ 60)) 2 = true.
Proof.
  apply (hsl_round_trip_within_two 9 100 60); lia.
Defined.

End DoubleConversions.

Lemma tones_depend_on_hue_and_saturation_witness :
  generateTones warmBase = generateTones warmBaseAgain /\
  generateAllTones warmBase = generateAllTones warmBaseAgain /\
  forall (numberToString : Q -> string) (lightness : Q) (label : option string),
    generateSpecificTone numberToString warmBase lightness label =
    generateSpecificTone numberToString warmBaseAgain lightness label.
Proof.
  apply (tones_depend_on_hue_and_saturation warmBase warmBaseAgain); reflexivity.
Defined.

(** ** Two runs *)

(** With the spread source every search accepts its first draw: the
    fresh palette has the hues 0, 72, 144, 216 and 288. *)
Example fresh_palette_of_spread_source :
  exists (palette : Palette) (w' : World),
    generateFreshPalette spreadWorld = inr (palette, w') /\
    map (fun color => h (hsl color)) (colors palette) = [0; 72; 144; 216; 288] /\
    map id (colors palette) = ["A"; "B"; "C"; "D"; "E"]%string /\
    drawn w' = 15%nat.
Proof.
  eexists. eexists. split; [vm_compute; reflexivity |]. repeat split.
Qed.

(** Regenerating the sample palette keeps its two locked colours in
    front, under their own identifiers, and adds three new ones. *)
Example regenerated_sample_palette :
  exists (palette : Palette) (w' : World),
    regeneratePalette samplePalette spreadWorld = inr (palette, w') /\
    map id (colors palette) = ["b"; "e"; "A"; "B"; "C"]%string /\
    map isLocked (colors palette) = [true; true; false; false; false] /\
    firstn 2 (colors palette) = filter isLocked (colors samplePalette).
Proof.
  eexists. eexists. split; [vm_compute; reflexivity |]. repeat split.
Qed.

(** * Further properties of the code *)

(** ** Where the conversions land *)

(** The remainder is smaller than the divisor and is not negative when
    the dividend is not. *)
Lemma rem_bounds (a b : Q) :
  0 < b -> - b < rem a b /\ rem a b < b /\ (0 <= a -> 0 <= rem a b).
Proof.
  intros Hb. unfold rem, trunc.
  assert (Hne : ~ b == 0) by lra.
  pose proof (Qmult_div_r a b Hne) as Ht.
  set (t := a / b) in *. clearbody t.
  destruct (Qle_bool 0 t) eqn:Hsign.
  - apply Qle_bool_iff in Hsign.
    pose proof (Qfloor_le t) as Hlo. pose proof (Qlt_floor t) as Hhi.
    rewrite inject_Z_plus in Hhi. change (inject_Z 1) with 1 in Hhi.
    assert (H0 : 0 <= inject_Z (Qfloor t)).
    { change 0 with (inject_Z 0). rewrite <- Zle_Qle.
      rewrite <- (Qfloor_inject_Z 0). apply Qfloor_resp_le. exact Hsign. }
    set (q := inject_Z (Qfloor t)) in *. clearbody q.
    split; [nra |]. split; [nra |]. intros _. nra.
  - assert (Hneg : t < 0).
    { apply Qnot_le_lt. intros Hle. apply Qle_bool_iff in Hle. congruence. }
    pose proof (Qle_ceiling t) as Hhi. pose proof (Qceiling_lt t) as Hlo.
    unfold Z.sub in Hlo. rewrite inject_Z_plus in Hlo. change (inject_Z (- (1))) with (- (1)) in Hlo.
    assert (H0 : inject_Z (Qceiling t) <= 0).
    { change 0 with (inject_Z 0). rewrite <- Zle_Qle.
      rewrite <- (Qfloor_inject_Z 0).
      assert (Hc : (Qceiling t <= Qceiling 0)%Z) by (apply Qceiling_resp_le; lra).
      exact Hc. }
    set (q := inject_Z (Qceiling t)) in *. clearbody q.
    split; [nra |]. split; [nra |]. intros Ha. nra.
Qed.

(** A number in the unit interval, scaled to a byte and rounded. *)
Lemma Math_round_unit_byte (v : Q) :
  0 <= v -> v <= 1 ->
  exists k : Z, (0 <= k <= 255)%Z /\ Math_round (v * 255) = inject_Z k.
Proof.
  intros Hlo Hhi. exists (Qfloor (v * 255 + (1 # 2))). split; [| reflexivity].
  split.
  - apply (Qfloor_resp_le 0). lra.
  - assert (Hlt : (Qfloor (v * 255 + (1 # 2)) < 256)%Z).
    { rewrite Zlt_Qlt. apply Qle_lt_trans with (v * 255 + (1 # 2)).
      - apply Qfloor_le.
      - change (inject_Z 256) with 256. lra. }
    lia.
Qed.

Lemma Math_round_unit_percent (v : Q) :
  0 <= v -> v <= 1 ->
  exists k : Z, (0 <= k <= 100)%Z /\ Math_round (v * 100) = inject_Z k.
Proof.
  intros Hlo Hhi. exists (Qfloor (v * 100 + (1 # 2))). split; [| reflexivity].
  split.
  - apply (Qfloor_resp_le 0). lra.
  - assert (Hlt : (Qfloor (v * 100 + (1 # 2)) < 101)%Z).
    { rewrite Zlt_Qlt. apply Qle_lt_trans with (v * 100 + (1 # 2)).
      - apply Qfloor_le.
      - change (inject_Z 101) with 101. lra. }
    lia.
Qed.

Lemma clamp_percent_unit (x : Q) : 0 <= clamp 0 100 x / 100 /\ clamp 0 100 x / 100 <= 1.
Proof.
  destruct (clamp_bounds 0 100 x) as [Hlo Hhi]; [lra |].
  unfold Qdiv. change (/ 100) with (1 # 100). lra.
Qed.

Lemma clamp_byte_unit (x : Q) : 0 <= clamp 0 255 x / 255 /\ clamp 0 255 x / 255 <= 1.
Proof.
  destruct (clamp_bounds 0 255 x) as [Hlo Hhi]; [lra |].
  unfold Qdiv. change (/ 255) with (1 # 255). lra.
Qed.

Lemma Math_abs_bounds (x y : Q) : - y <= x -> x <= y -> 0 <= Math_abs x /\ Math_abs x <= y.
Proof.
  intros Hlo Hhi. unfold Math_abs. split.
  - apply Qabs_nonneg.
  - apply Qabs_Qle_condition. split; assumption.
Qed.

Lemma Math_abs_lower (x : Q) : x <= Math_abs x /\ - x <= Math_abs x.
Proof.
  unfold Math_abs. split.
  - apply Qle_Qabs.
  - rewrite <- Qabs_opp. apply Qle_Qabs.
Qed.

(** [hslToRgb] answers three whole bytes, whatever its arguments. *)
Lemma hslToRgb_bytes (h0 s0 l0 : Q) :
  exists kr kg kb : Z,
    (0 <= kr <= 255)%Z /\ (0 <= kg <= 255)%Z /\ (0 <= kb <= 255)%Z /\
    hslToRgb h0 s0 l0 = {| r := inject_Z kr; g := inject_Z kg; b := inject_Z kb |}.
Proof.
  unfold hslToRgb. cbv zeta.
  set (hq := rem (rem h0 360 + 360) 360).
  set (sq := clamp 0 100 s0 / 100).
  set (lq := clamp 0 100 l0 / 100).
  destruct (clamp_percent_unit s0) as [Hs0 Hs1]. fold sq in Hs0, Hs1.
  destruct (clamp_percent_unit l0) as [Hl0 Hl1]. fold lq in Hl0, Hl1.
  destruct (Math_abs_bounds (2 * lq - 1) 1) as [Ha0 Ha1]; [lra | lra |].
  destruct (Math_abs_lower (2 * lq - 1)) as [Ha2 Ha3].
  set (a := Math_abs (2 * lq - 1)) in *. clearbody a.
  destruct (rem_bounds (hq / 60) 2) as (_ & Hf1 & Hf0); [lra |].
  assert (Hhq : 0 <= hq).
  { unfold hq. apply rem_bounds; [lra |].
    destruct (rem_bounds h0 360) as (Hlow & _ & _); lra. }
  assert (Hq : 0 <= hq / 60).
  { unfold Qdiv. change (/ 60) with (1 # 60). lra. }
  specialize (Hf0 Hq).
  destruct (Math_abs_bounds (rem (hq / 60) 2 - 1) 1) as [Hb0 Hb1]; [lra | lra |].
  set (f := Math_abs (rem (hq / 60) 2 - 1)) in *. clearbody f.
  set (c := (1 - a) * sq).
  assert (Hc0 : 0 <= c) by (unfold c; nra).
  assert (Hc1 : c <= 1 - a) by (unfold c; nra).
  set (x := c * (1 - f)).
  assert (Hx0 : 0 <= x) by (unfold x; nra).
  assert (Hx1 : x <= c) by (unfold x; nra).
  set (m := lq - c / 2).
  assert (Hm : m == lq - c * (1 # 2)) by (unfold m, Qdiv; reflexivity).
  assert (Hm0 : 0 <= m) by lra.
  assert (Hm1 : c + m <= 1) by lra.
  clearbody c x m.
  assert (Hbyte : forall v, 0 <= v -> v <= c ->
            exists k : Z, (0 <= k <= 255)%Z /\ Math_round ((v + m) * 255) = inject_Z k).
  { intros v Hv0 Hv1. apply Math_round_unit_byte; lra. }
  destruct (Hbyte c) as (kc & Hkc & Ec); [lra | lra |].
  destruct (Hbyte x) as (kx & Hkx & Ex); [lra | lra |].
  destruct (Hbyte 0) as (k0 & Hk0 & E0); [lra | lra |].
  repeat match goal with
         | |- context [if ?t then _ else _] => destruct t
         end;
    rewrite ?Ec, ?Ex, ?E0;
    do 3 eexists; (split; [| split; [| split; [| reflexivity]]]); assumption.
Qed.

Lemma bytes_valid (kr kg kb : Z) :
  (0 <= kr <= 255)%Z -> (0 <= kg <= 255)%Z -> (0 <= kb <= 255)%Z ->
  isValidRgb (inject_Z kr) (inject_Z kg) (inject_Z kb) = true.
Proof.
  intros Hr Hg Hb. unfold isValidRgb.
  change 0 with (inject_Z 0). change 255 with (inject_Z 255).
  unfold le. rewrite !andb_true_iff, !Qle_bool_iff, <- !Zle_Qle. lia.
Qed.

Lemma unit_ratio (n d : Q) : 0 < d -> 0 <= n -> n <= d -> 0 <= n / d /\ n / d <= 1.
Proof.
  intros Hd Hn Hle.
  destruct (channel_ratio n d Hd) as (_ & Hhi & _ & Hlo); [lra | lra |].
  split; [apply Hlo; exact Hn | exact Hhi].
Qed.

Lemma rgbToHsl_saturation_lightness_range (r0 g0 b0 : Q) :
  exists ks kl : Z,
    (0 <= ks <= 100)%Z /\ (0 <= kl <= 100)%Z /\
    s (rgbToHsl r0 g0 b0) = inject_Z ks /\ l (rgbToHsl r0 g0 b0) = inject_Z kl.
Proof.
  unfold rgbToHsl. cbv zeta.
  destruct (clamp_byte_unit r0) as [Hr0 Hr1].
  destruct (clamp_byte_unit g0) as [Hg0 Hg1].
  destruct (clamp_byte_unit b0) as [Hb0 Hb1].
  set (r1 := clamp 0 255 r0 / 255) in *.
  set (g1 := clamp 0 255 g0 / 255) in *.
  set (b1 := clamp 0 255 b0 / 255) in *.
  set (hi := Qmax (Qmax r1 g1) b1).
  set (lo := Qmin (Qmin r1 g1) b1).
  assert (Hhi : hi <= 1).
  { unfold hi. apply Q.max_lub; [apply Q.max_lub |]; assumption. }
  assert (Hlo : 0 <= lo).
  { unfold lo. apply Q.min_glb; [apply Q.min_glb |]; assumption. }
  assert (Hlohi : lo <= hi).
  { apply Qle_trans with b1; [apply Q.le_min_r | apply Q.le_max_r]. }
  clearbody hi lo r1 g1 b1.
  assert (Hl : exists kl : Z, (0 <= kl <= 100)%Z /\
                 Math_round ((hi + lo) / 2 * 100) = inject_Z kl).
  { apply Math_round_unit_percent; unfold Qdiv; change (/ 2) with (1 # 2); lra. }
  destruct Hl as (kl & Hkl & El).
  destruct (strictEq (hi - lo) 0) eqn:Hflat.
  - cbn [s l]. exists 0%Z, kl. split; [lia |]. split; [exact Hkl |].
    split; [reflexivity | exact El].
  - apply Qeq_bool_neq in Hflat.
    assert (Hd : 0 < hi - lo) by (apply Qnot_le_lt; intros Hle; apply Hflat; lra).
    cbn [s l].
    assert (Hs : exists ks : Z, (0 <= ks <= 100)%Z /\
              Math_round ((if lt (1 # 2) ((hi + lo) / 2)
                           then (hi - lo) / (2 - hi - lo)
                           else (hi - lo) / (hi + lo)) * 100) = inject_Z ks).
    { apply Math_round_unit_percent;
        destruct (lt (1 # 2) ((hi + lo) / 2));
        apply unit_ratio; lra. }
    destruct Hs as (ks & Hks & Es).
    exists ks, kl. split; [exact Hks |]. split; [exact Hkl |].
    split; [exact Es | exact El].
Qed.

Lemma whole_hsl_valid (kh ks kl : Z) :
  (0 <= kh <= 360)%Z -> (0 <= ks <= 100)%Z -> (0 <= kl <= 100)%Z ->
  isValidHsl (inject_Z kh) (inject_Z ks) (inject_Z kl) = true.
Proof.
  intros Hh Hs Hl. unfold isValidHsl.
  change 0 with (inject_Z 0). change 360 with (inject_Z 360).
  change 100 with (inject_Z 100).
  unfold le. rewrite !andb_true_iff, !Qle_bool_iff, <- !Zle_Qle. lia.
Qed.

Lemma rgbToHsl_valid (r0 g0 b0 : Q) :
  isValidHsl (h (rgbToHsl r0 g0 b0)) (s (rgbToHsl r0 g0 b0)) (l (rgbToHsl r0 g0 b0)) = true.
Proof.
  destruct (rgbToHsl_hue_range r0 g0 b0) as (kh & Hkh & Eh).
  destruct (rgbToHsl_saturation_lightness_range r0 g0 b0) as (ks & kl & Hks & Hkl & Es & El).
  rewrite Eh, Es, El. apply whole_hsl_valid; assumption.
Qed.

Lemma hslToRgb_valid (h0 s0 l0 : Q) :
  isValidRgb (r (hslToRgb h0 s0 l0)) (g (hslToRgb h0 s0 l0)) (b (hslToRgb h0 s0 l0)) = true.
Proof.
  destruct (hslToRgb_bytes h0 s0 l0) as (kr & kg & kb & Hr & Hg & Hb & E).
  rewrite E. cbn [r g b]. apply bytes_valid; assumption.
Qed.

(** The bytes of [hslToRgb] come back unchanged from the string
    [hslToHex] writes. *)
Lemma hslToHex_back (h0 s0 l0 : Q) :
  hexToRgb (hslToHex h0 s0 l0) = inr (hslToRgb h0 s0 l0).
Proof.
  unfold hslToHex. cbv zeta.
  destruct (hslToRgb_bytes h0 s0 l0) as (kr & kg & kb & Hr & Hg & Hb & E).
  rewrite E. cbn [r g b]. apply hexToRgb_rgbToHex_bytes; assumption.
Qed.

(** ** The shape of the strings [rgbToHex] writes *)

Lemma every_byte_writes_digits :
  forall k : Z, (0 <= k <= 255)%Z ->
    toUpperCase (toHex (inject_Z k)) =
    String (upperDigit (k / 16)) (String (upperDigit (k mod 16)) EmptyString).
Proof.
  intros k Hk. apply String.eqb_eq.
  apply (range_covers byteWritesDigits 256 0%Z); [| lia].
  vm_compute. reflexivity.
Qed.

Lemma upperDigit_facts (d : Z) :
  (0 <= d <= 15)%Z ->
  isHexDigit (upperDigit d) = true /\ upperChar (upperDigit d) = upperDigit d /\
  Ascii.eqb (upperDigit d) "#" = false /\ digitValue (upperDigit d) = d.
Proof.
  intros Hd.
  assert (Hcases : (d = 0 \/ d = 1 \/ d = 2 \/ d = 3 \/ d = 4 \/ d = 5 \/ d = 6 \/ d = 7 \/
                   d = 8 \/ d = 9 \/ d = 10 \/ d = 11 \/ d = 12 \/ d = 13 \/ d = 14 \/
                   d = 15)%Z) by lia.
  repeat (destruct Hcases as [-> | Hcases]; [vm_compute; repeat split; reflexivity |]).
  subst d. vm_compute. repeat split; reflexivity.
Qed.

Lemma digit_of_value (c : ascii) :
  isHexDigit c = true -> upperDigit (digitValue c) = upperChar c.
Proof. each_char c; vm_compute; intros H; try reflexivity; discriminate H. Qed.

Lemma upperChar_idempotent (c : ascii) : upperChar (upperChar c) = upperChar c.
Proof. each_char c; vm_compute; reflexivity. Qed.

Lemma toUpperCase_idempotent (text : string) :
  toUpperCase (toUpperCase text) = toUpperCase text.
Proof.
  induction text as [| c text IH]; [reflexivity |].
  cbn [toUpperCase]. rewrite upperChar_idempotent, IH. reflexivity.
Qed.

Lemma digitValue_upper (c : ascii) : digitValue (upperChar c) = digitValue c.
Proof. each_char c; vm_compute; reflexivity. Qed.

(** The string written for three bytes, digit by digit. *)
Lemma rgbToHex_digits (k1 k2 k3 : Z) :
  (0 <= k1 <= 255)%Z -> (0 <= k2 <= 255)%Z -> (0 <= k3 <= 255)%Z ->
  rgbToHex (inject_Z k1) (inject_Z k2) (inject_Z k3) =
  String "#"
    (String (upperDigit (k1 / 16)) (String (upperDigit (k1 mod 16))
    (String (upperDigit (k2 / 16)) (String (upperDigit (k2 mod 16))
    (String (upperDigit (k3 / 16)) (String (upperDigit (k3 mod 16)) EmptyString)))))).
Proof.
  intros H1 H2 H3. unfold rgbToHex. cbn [toUpperCase].
  rewrite !toUpperCase_app.
  rewrite (every_byte_writes_digits k1 H1), (every_byte_writes_digits k2 H2),
          (every_byte_writes_digits k3 H3).
  reflexivity.
Qed.

Lemma byte_halves (k : Z) : (0 <= k <= 255)%Z -> (0 <= k / 16 <= 15)%Z /\ (0 <= k mod 16 <= 15)%Z.
Proof.
  intros Hk. split.
  - split; [apply Z.div_pos; lia |].
    assert (k / 16 < 16)%Z by (apply Z.div_lt_upper_bound; lia). lia.
  - pose proof (Z.mod_pos_bound k 16). lia.
Qed.

(** What [rgbToHex] writes: a [#] and six upper-case digits. *)
Lemma rgbToHex_six_digits (r0 g0 b0 : Q) :
  exists c1 c2 c3 c4 c5 c6 : ascii,
    rgbToHex r0 g0 b0 =
      String "#" (String c1 (String c2 (String c3 (String c4 (String c5
        (String c6 EmptyString)))))) /\
    Forall (fun c => isHexDigit c = true /\ upperChar c = c) [c1; c2; c3; c4; c5; c6].
Proof.
  destruct (rgbToHex_bytes r0 g0 b0) as (k1 & k2 & k3 & H1 & H2 & H3 & E).
  rewrite E, (rgbToHex_digits k1 k2 k3 H1 H2 H3).
  destruct (byte_halves k1 H1) as [Ha Hb].
  destruct (byte_halves k2 H2) as [Hc Hd].
  destruct (byte_halves k3 H3) as [He Hf].
  do 6 eexists. split; [reflexivity |].
  repeat constructor; apply upperDigit_facts; assumption.
Qed.

Lemma rgbToHex_valid (r0 g0 b0 : Q) : isValidHex (rgbToHex r0 g0 b0) = true.
Proof.
  destruct (rgbToHex_six_digits r0 g0 b0) as (c1 & c2 & c3 & c4 & c5 & c6 & E & Hall).
  rewrite E. unfold isValidHex. cbn [removeFirst].
  change (Ascii.eqb "#" "#") with true. cbv iota.
  unfold sixHexDigits. cbn [String.length Nat.eqb allHexDigits andb].
  repeat (apply Forall_cons_iff in Hall as [[-> _] Hall]). reflexivity.
Qed.

Lemma two_digit_halves (a c : Z) :
  (0 <= a <= 15)%Z -> (0 <= c <= 15)%Z ->
  ((16 * a + c) / 16 = a)%Z /\ ((16 * a + c) mod 16 = c)%Z.
Proof.
  intros Ha Hc.
  assert (Hq : ((16 * a + c) / 16 = a)%Z).
  { symmetry. apply (Z.div_unique (16 * a + c) 16 a c); lia. }
  split; [exact Hq |].
  pose proof (Z.div_mod (16 * a + c) 16 ltac:(lia)) as Hdm. rewrite Hq in Hdm. lia.
Qed.

(** Writing the byte that two upper-case digits stand for gives the two
    digits again. *)
Lemma upperDigits_of_pair (c1 c2 : ascii) :
  isHexDigit c1 = true -> isHexDigit c2 = true ->
  let k := (16 * digitValue c1 + digitValue c2)%Z in
  upperDigit (k / 16) = upperChar c1 /\ upperDigit (k mod 16) = upperChar c2.
Proof.
  intros D1 D2 k.
  destruct (two_digit_halves _ _ (digitValue_bounds c1) (digitValue_bounds c2)) as [Eq Em].
  unfold k. rewrite Eq, Em. split; apply digit_of_value; assumption.
Qed.

(** From a valid string through [hexToRgb] and back through
    [rgbToHex]. *)
Lemma valid_hex_normalises (hex : string) :
  isValidHex hex = true ->
  exists channels : RGB,
    hexToRgb hex = inr channels /\
    rgbToHex (r channels) (g channels) (b channels) =
    String "#" (toUpperCase (removeFirst "#" hex)).
Proof.
  intros Hvalid. unfold isValidHex in Hvalid.
  pose proof (sixHexDigits_upper _ Hvalid) as Hupper.
  destruct (hexToRgb_reads_six_digits hex Hupper)
    as (red & green & blue & Er & Eg & Eb & Eread & Hr & Hg & Hb).
  eexists. split; [exact Eread |]. cbn [r g b].
  rewrite (rgbToHex_digits red green blue Hr Hg Hb).
  subst red green blue.
  unfold sixHexDigits in Hvalid. apply andb_true_iff in Hvalid as [Hlen Hdigits].
  destruct (removeFirst "#" hex) as [| c1 [| c2 [| c3 [| c4 [| c5 [| c6 [| c7 rest]]]]]]];
    try discriminate Hlen.
  cbn [allHexDigits] in Hdigits. repeat rewrite andb_true_iff in Hdigits.
  destruct Hdigits as (D1 & D2 & D3 & D4 & D5 & D6 & _).
  cbn [toUpperCase]. unfold substring. cbn [Nat.sub String.substring].
  rewrite !base16_two_digits, !digitValue_upper.
  destruct (upperDigits_of_pair c1 c2 D1 D2) as [E1 E2].
  destruct (upperDigits_of_pair c3 c4 D3 D4) as [E3 E4].
  destruct (upperDigits_of_pair c5 c6 D5 D6) as [E5 E6].
  cbv zeta in E1, E2, E3, E4, E5, E6.
  rewrite E1, E2, E3, E4, E5, E6. reflexivity.
Qed.

(** ** What the hexadecimal string keeps of the channels *)

Lemma toHex_rounds (n : Q) : toHex n = toHex (Math_round (clamp 0 255 n)).
Proof.
  destruct (Math_round_clamp_byte n) as (k & Hk & Hround).
  unfold toHex. rewrite Hround.
  assert (Hin : clamp 0 255 (inject_Z k) == inject_Z k).
  { apply clamp_inside.
    - change 0 with (inject_Z 0). rewrite <- Zle_Qle. lia.
    - change 255 with (inject_Z 255). rewrite <- Zle_Qle. lia. }
  rewrite (Math_round_compat _ _ Hin), Math_round_inject_Z. reflexivity.
Qed.

Lemma hexToRgb_rgbToHex_rounds (r0 g0 b0 : Q) :
  hexToRgb (rgbToHex r0 g0 b0) =
  inr {| r := Math_round (clamp 0 255 r0);
         g := Math_round (clamp 0 255 g0);
         b := Math_round (clamp 0 255 b0) |}.
Proof.
  assert (E : rgbToHex r0 g0 b0 =
              rgbToHex (Math_round (clamp 0 255 r0)) (Math_round (clamp 0 255 g0))
                       (Math_round (clamp 0 255 b0))).
  { unfold rgbToHex. rewrite <- !toHex_rounds. reflexivity. }
  rewrite E.
  destruct (Math_round_clamp_byte r0) as (k1 & H1 & E1).
  destruct (Math_round_clamp_byte g0) as (k2 & H2 & E2).
  destruct (Math_round_clamp_byte b0) as (k3 & H3 & E3).
  rewrite E1, E2, E3. apply hexToRgb_rgbToHex_bytes; assumption.
Qed.

(** ** The distance between two hues *)

Lemma hueDistance_bounds (a c : Q) :
  0 <= a -> a <= 360 -> 0 <= c -> c <= 360 ->
  0 <= hueDistance a c /\ hueDistance a c <= 180.
Proof.
  intros Ha0 Ha1 Hc0 Hc1. unfold hueDistance.
  destruct (Math_abs_bounds (a - c) 360) as [Hd0 Hd1]; [lra | lra |].
  set (diff := Math_abs (a - c)) in *. clearbody diff.
  split.
  - apply Q.min_glb; lra.
  - destruct (Qlt_le_dec diff 180) as [Hlt | Hge].
    + apply Qle_trans with diff; [apply Q.le_min_l | lra].
    + apply Qle_trans with (360 - diff); [apply Q.le_min_r | lra].
Qed.

(** ** What the conversions answer, whatever finite numbers they are given

    The numbers of these statements are rationals: every finite number,
    in range or not, and neither [NaN] nor an infinity. What [NaN] does
    to the conversions is in [not_a_number_goes_through]. *)

(** X1. For finite numbers, in range or not, [hslToRgb] answers three
    whole bytes, which pass [isValidRgb]. *)
Theorem hslToRgb_answers_bytes (h0 s0 l0 : Q) :
  (exists kr kg kb : Z,
      (0 <= kr <= 255)%Z /\ (0 <= kg <= 255)%Z /\ (0 <= kb <= 255)%Z /\
      hslToRgb h0 s0 l0 = {| r := inject_Z kr; g := inject_Z kg; b := inject_Z kb |}) /\
  isValidRgb (r (hslToRgb h0 s0 l0)) (g (hslToRgb h0 s0 l0)) (b (hslToRgb h0 s0 l0)) = true.
Proof.
  split; [apply hslToRgb_bytes | apply hslToRgb_valid].
Qed.

(** X2. For finite numbers, in range or not, [rgbToHsl] answers a whole hue
    in [0,360] and a whole saturation and lightness in [0,100], which pass
    [isValidHsl]. *)
Theorem rgbToHsl_answers_valid_hsl (r0 g0 b0 : Q) :
  (exists kh ks kl : Z,
      (0 <= kh <= 360)%Z /\ (0 <= ks <= 100)%Z /\ (0 <= kl <= 100)%Z /\
      rgbToHsl r0 g0 b0 = {| h := inject_Z kh; s := inject_Z ks; l := inject_Z kl |}) /\
  isValidHsl (h (rgbToHsl r0 g0 b0)) (s (rgbToHsl r0 g0 b0)) (l (rgbToHsl r0 g0 b0)) = true.
Proof.
  split; [| apply rgbToHsl_valid].
  destruct (rgbToHsl_hue_range r0 g0 b0) as (kh & Hkh & Eh).
  destruct (rgbToHsl_saturation_lightness_range r0 g0 b0) as (ks & kl & Hks & Hkl & Es & El).
  exists kh, ks, kl. split; [exact Hkh |]. split; [exact Hks |]. split; [exact Hkl |].
  destruct (rgbToHsl r0 g0 b0) as [h1 s1 l1]. cbn [h s l] in *. congruence.
Qed.

(** X3. For finite channels, reading back what [rgbToHex] wrote gives the
    channels clamped to [0,255] and rounded. *)
Theorem hexToRgb_of_rgbToHex (r0 g0 b0 : Q) :
  hexToRgb (rgbToHex r0 g0 b0) =
  inr {| r := Math_round (clamp 0 255 r0);
         g := Math_round (clamp 0 255 g0);
         b := Math_round (clamp 0 255 b0) |}.
Proof. apply hexToRgb_rgbToHex_rounds. Qed.

(** X4. For finite numbers, the string of [hslToHex] is valid and reads back
    as exactly the bytes of [hslToRgb]. *)
Theorem hslToHex_reads_back (h0 s0 l0 : Q) :
  isValidHex (hslToHex h0 s0 l0) = true /\
  hexToRgb (hslToHex h0 s0 l0) = inr (hslToRgb h0 s0 l0) /\
  hexToHsl (hslToHex h0 s0 l0) =
    inr (rgbToHsl (r (hslToRgb h0 s0 l0)) (g (hslToRgb h0 s0 l0)) (b (hslToRgb h0 s0 l0))).
Proof.
  split; [unfold hslToHex; cbv zeta; apply rgbToHex_valid |].
  split; [apply hslToHex_back |].
  unfold hexToHsl. rewrite hslToHex_back. reflexivity.
Qed.

(** X5. The shape of what [rgbToHex] writes for finite channels: seven
    characters, a [#] and six upper-case digits. *)
Theorem rgbToHex_is_canonical (r0 g0 b0 : Q) :
  String.length (rgbToHex r0 g0 b0) = 7%nat /\
  String.get 0 (rgbToHex r0 g0 b0) = Some "#"%char /\
  isValidHex (rgbToHex r0 g0 b0) = true /\
  toUpperCase (rgbToHex r0 g0 b0) = rgbToHex r0 g0 b0.
Proof.
  split; [| split; [| split; [apply rgbToHex_valid |]]];
    destruct (rgbToHex_six_digits r0 g0 b0) as (c1 & c2 & c3 & c4 & c5 & c6 & E & Hall);
    rewrite E; try reflexivity.
  cbn [toUpperCase].
  repeat (apply Forall_cons_iff in Hall as [[_ ->] Hall]). reflexivity.
Qed.

(** X6. From a valid string through [hexToRgb] and back through [rgbToHex]:
    the [#] is put in front and the digits come back in upper case. *)
Theorem hex_round_trip_normalises (text : string) :
  isValidHex text = true ->
  exists channels : RGB,
    hexToRgb text = inr channels /\
    isValidRgb (r channels) (g channels) (b channels) = true /\
    rgbToHex (r channels) (g channels) (b channels) =
    String "#" (toUpperCase (removeFirst "#" text)).
Proof.
  intros Hvalid.
  destruct (valid_hex_normalises text Hvalid) as (channels & Hread & Hwrite).
  exists channels. split; [exact Hread |]. split; [| exact Hwrite].
  destruct (hexToRgb_reads_six_digits text (sixHexDigits_upper _ Hvalid))
    as (red & green & blue & _ & _ & _ & Eread & Hr & Hg & Hb).
  rewrite Eread in Hread. injection Hread as <-. cbn [r g b].
  apply bytes_valid; assumption.
Qed.

Lemma hex_round_trip_normalises_witness :
  exists channels : RGB,
    hexToRgb "ff5733" = inr channels /\
    isValidRgb (r channels) (g channels) (b channels) = true /\
    rgbToHex (r channels) (g channels) (b channels) = "#FF5733"%string.
Proof. apply (hex_round_trip_normalises "ff5733"). reflexivity. Defined.

(** ** The three constructors *)

Lemma isValid_clamp (lo hi x : Q) : le lo x = true -> le x hi = true -> clamp lo hi x == x.
Proof.
  intros Hlo Hhi. apply clamp_inside; apply le_true_iff; assumption.
Qed.

(** X7. [createColorFromHsl] throws exactly when [isValidHsl] refuses its
    arguments; the colour it builds has a string and channels that agree. *)
Theorem createColorFromHsl_outcome (h0 s0 l0 : Q) (locked : bool) (w : World) :
  match createColorFromHsl h0 s0 l0 locked w with
  | inl e => isValidHsl h0 s0 l0 = false /\ e = InvalidHslValues h0 s0 l0
  | inr (color, w') =>
      isValidHsl h0 s0 l0 = true /\
      color = colorOfHsl (uuidSource w (issued w)) h0 s0 l0 locked /\
      hexToRgb (hex color) = inr (rgb color) /\
      isValidHex (hex color) = true /\
      isValidRgb (r (rgb color)) (g (rgb color)) (b (rgb color)) = true
  end.
Proof.
  unfold createColorFromHsl.
  destruct (isValidHsl h0 s0 l0) eqn:Hvalid; cbn [negb].
  - cbn [bind randomUUID ret]. split; [reflexivity |]. split; [reflexivity |].
    cbn [hex rgb colorOfHsl].
    split; [apply hslToHex_back |]. split; [apply rgbToHex_valid | apply hslToRgb_valid].
  - split; reflexivity.
Qed.

(** X8. [createColorFromRgb] throws exactly when [isValidRgb] refuses its
    arguments; the string of the colour it builds reads back as the
    rounded channels. *)
Theorem createColorFromRgb_outcome (r0 g0 b0 : Q) (locked : bool) (w : World) :
  match createColorFromRgb r0 g0 b0 locked w with
  | inl e => isValidRgb r0 g0 b0 = false /\ e = InvalidRgbValues r0 g0 b0
  | inr (color, w') =>
      isValidRgb r0 g0 b0 = true /\
      id color = uuidSource w (issued w) /\ isLocked color = locked /\
      rgb color = {| r := r0; g := g0; b := b0 |} /\
      hsl color = rgbToHsl r0 g0 b0 /\
      isValidHsl (h (hsl color)) (s (hsl color)) (l (hsl color)) = true /\
      isValidHex (hex color) = true /\
      hexToRgb (hex color) =
        inr {| r := Math_round r0; g := Math_round g0; b := Math_round b0 |}
  end.
Proof.
  unfold createColorFromRgb.
  destruct (isValidRgb r0 g0 b0) eqn:Hvalid; cbn [negb].
  - cbn [bind randomUUID ret id isLocked rgb hsl hex].
    do 5 (split; [reflexivity |]).
    split; [apply rgbToHsl_valid |].
    split; [apply rgbToHex_valid |].
    rewrite hexToRgb_rgbToHex_rounds.
    unfold isValidRgb in Hvalid. repeat rewrite andb_true_iff in Hvalid.
    destruct Hvalid as [[[[[R0 R1] G0] G1] B0] B1].
    rewrite (Math_round_compat _ _ (isValid_clamp 0 255 r0 R0 R1)),
            (Math_round_compat _ _ (isValid_clamp 0 255 g0 G0 G1)),
            (Math_round_compat _ _ (isValid_clamp 0 255 b0 B0 B1)).
    reflexivity.
  - split; reflexivity.
Qed.

(** X9. [createColorFromHex] throws exactly when [isValidHex] refuses its
    argument, and never from inside [hexToRgb]; the colour keeps the
    string in upper case, with or without its [#]. *)
Theorem createColorFromHex_outcome (text : string) (locked : bool) (w : World) :
  match createColorFromHex text locked w with
  | inl e => isValidHex text = false /\ e = InvalidHexColor text
  | inr (color, w') =>
      isValidHex text = true /\
      id color = uuidSource w (issued w) /\ isLocked color = locked /\
      hex color = toUpperCase text /\
      hexToRgb text = inr (rgb color) /\
      rgbToHex (r (rgb color)) (g (rgb color)) (b (rgb color)) =
        String "#" (toUpperCase (removeFirst "#" text)) /\
      hsl color = rgbToHsl (r (rgb color)) (g (rgb color)) (b (rgb color)) /\
      isValidHsl (h (hsl color)) (s (hsl color)) (l (hsl color)) = true
  end.
Proof.
  unfold createColorFromHex.
  destruct (isValidHex text) eqn:Hvalid; cbn [negb].
  - destruct (valid_hex_normalises text Hvalid) as (channels & Hread & Hwrite).
    unfold bind, liftE. rewrite Hread.
    cbn [randomUUID ret id isLocked rgb hsl hex].
    do 4 (split; [reflexivity |]). split; [reflexivity |].
    split; [exact Hwrite |]. split; [reflexivity |].
    apply rgbToHsl_valid.
  - split; reflexivity.
Qed.

(** X10. The distance used between hues: symmetric, between 0 and 180, and
    0 exactly for equal hues and for the pair 0 and 360. *)
Theorem hueDistance_is_circular (a c : Q) :
  0 <= a -> a <= 360 -> 0 <= c -> c <= 360 ->
  0 <= hueDistance a c /\ hueDistance a c <= 180 /\
  hueDistance a c == hueDistance c a /\
  hueDistance a a == 0 /\
  (hueDistance a c == 0 <-> a == c \/ Qabs (a - c) == 360).
Proof.
  intros Ha0 Ha1 Hc0 Hc1.
  destruct (hueDistance_bounds a c Ha0 Ha1 Hc0 Hc1) as [H0 H180].
  split; [exact H0 |]. split; [exact H180 |].
  split; [apply hueDistance_sym |]. split.
  - unfold hueDistance, Math_abs.
    assert (E : Qabs (a - a) == 0).
    { assert (Ez : a - a == 0) by ring. rewrite Ez. reflexivity. }
    rewrite E. reflexivity.
  - unfold hueDistance, Math_abs.
    destruct (Math_abs_bounds (a - c) 360) as [Hd0 Hd1]; [lra | lra |].
    unfold Math_abs in Hd0, Hd1.
    assert (Hzero : Qabs (a - c) == 0 <-> a == c).
    { split.
      - intros Habs. pose proof (Qle_Qabs (a - c)) as H1.
        pose proof (Qle_Qabs (c - a)) as H2.
        assert (E : Qabs (c - a) == Qabs (a - c)).
        { rewrite <- (Qabs_opp (a - c)). apply Qabs_wd. ring. }
        rewrite E in H2. lra.
      - intros Eac. assert (Ez : a - c == 0) by lra. rewrite Ez. reflexivity. }
    set (diff := Qabs (a - c)) in *. clearbody diff.
    split.
    + intros Hmin.
      destruct (Q.min_spec diff (360 - diff)) as [[_ E] | [_ E]]; rewrite E in Hmin.
      * left. apply Hzero. exact Hmin.
      * right. lra.
    + intros [Eac | E360].
      * apply Hzero in Eac. rewrite Eac. reflexivity.
      * rewrite E360. reflexivity.
Qed.

Lemma hueDistance_is_circular_witness :
  0 <= hueDistance 350 20 /\ hueDistance 350 20 <= 180 /\
  hueDistance 350 20 == hueDistance 20 350 /\
  hueDistance 350 350 == 0 /\
  (hueDistance 350 20 == 0 <-> 350 == 20 \/ Qabs (350 - 20) == 360).
Proof.
  apply (hueDistance_is_circular 350 20); unfold Qle; simpl; lia.
Defined.

(** ** What a run of the generator consumes and makes *)

Lemma advanced_refl (w : World) : advanced w w 0 0 0.
Proof. unfold advanced. repeat split; lia. Qed.

Lemma advanced_trans (w w1 w2 : World) (a c i a' c' i' : nat) :
  advanced w w1 a c i -> advanced w1 w2 a' c' i' ->
  advanced w w2 (a + a') (c + c') (i + i').
Proof.
  unfold advanced. intros (R1 & U1 & N1 & L1 & M1 & I1) (R2 & U2 & N2 & L2 & M2 & I2).
  split; [congruence |]. split; [congruence |]. split; [congruence |].
  split; [lia |]. split; lia.
Qed.

Lemma advanced_weaken (w w' : World) (a c i a' c' : nat) :
  (a' <= a)%nat -> (c <= c')%nat -> advanced w w' a c i -> advanced w w' a' c' i.
Proof.
  unfold advanced. intros Ha Hc (R1 & U1 & N1 & L1 & M1 & I1).
  repeat (split; [assumption || lia |]). exact I1.
Qed.

Lemma advanced_unitInterval (w w' : World) (a c i : nat) :
  advanced w w' a c i -> unitInterval w -> unitInterval w'.
Proof.
  intros (R1 & _) Hw n. rewrite R1. apply Hw.
Qed.

Lemma randomInRange_advances (lo hi : Z) (w : World) :
  unitInterval w -> (lo <= hi)%Z ->
  returns (randomInRange (inject_Z lo) (inject_Z hi)) w
    (fun v w' => (exists k : Z, (lo <= k <= hi)%Z /\ v == inject_Z k) /\
                 advanced w w' 1 1 0).
Proof.
  intros Hw Hle.
  destruct (randomInRange_returns lo hi w Hw Hle) as (v & w' & Hrun & _ & Hk).
  exists v, w'. split; [exact Hrun |]. split; [exact Hk |].
  unfold randomInRange, bind, Math_random, ret in Hrun.
  injection Hrun as _ <-. unfold advanced. cbn. repeat split; lia.
Qed.

Lemma colorOfHsl_generated (uuid : string) (hue saturation lightness : Q) (kh ks kl : Z) :
  hue == inject_Z kh -> (0 <= kh <= 359)%Z ->
  saturation == inject_Z ks -> (60 <= ks <= 100)%Z ->
  lightness == inject_Z kl -> (40 <= kl <= 70)%Z ->
  generatedColor (colorOfHsl uuid hue saturation lightness false).
Proof.
  intros Eh Hh Es Hs El Hl. unfold generatedColor, colorOfHsl.
  cbn [hsl h s l isLocked rgb hex].
  split; [| split; [reflexivity | split; reflexivity]].
  exists kh, ks, kl. repeat (split; [assumption |]). assumption.
Qed.

(** Drawing a saturation and a lightness and building the colour, as
    both [generateRandomColor] and the search do once a hue is chosen. *)
Lemma finish_color_advances (hue : Q) (kh : Z) (w : World) :
  unitInterval w -> hue == inject_Z kh -> (0 <= kh <= 359)%Z ->
  returns
    (bind (randomInRange SATURATION_MIN SATURATION_MAX) (fun saturation =>
     bind (randomInRange LIGHTNESS_MIN LIGHTNESS_MAX) (fun lightness =>
     createColorFromHsl hue saturation lightness false))) w
    (fun color w' =>
       generatedColor color /\ h (hsl color) = hue /\
       id color = uuidSource w (issued w) /\ advanced w w' 2 2 1).
Proof.
  intros Hw Eh Hh.
  apply returns_bind.
  eapply returns_weaken; [| exact (randomInRange_advances 60 100 w Hw ltac:(lia))].
  intros saturation w1 ((ks & Hs & Es) & Hadv1).
  pose proof (advanced_unitInterval _ _ _ _ _ Hadv1 Hw) as Hw1.
  apply returns_bind.
  eapply returns_weaken; [| exact (randomInRange_advances 40 70 w1 Hw1 ltac:(lia))].
  intros lightness w2 ((kl & Hl & El) & Hadv2).
  pose proof (isValidHsl_generated _ _ _ kh ks kl Eh Hh Es Hs El Hl) as Hvalid.
  unfold createColorFromHsl. rewrite Hvalid. cbn [negb].
  eexists. eexists. split; [reflexivity |].
  fold (colorOfHsl (uuidSource w2 (issued w2)) hue saturation lightness false).
  split; [exact (colorOfHsl_generated _ _ _ _ kh ks kl Eh Hh Es Hs El Hl) |].
  split; [reflexivity |].
  pose proof (advanced_trans _ _ _ _ _ _ _ _ _ Hadv1 Hadv2) as Hadv.
  destruct Hadv as (R & U & N & L & M & I).
  split.
  - cbn [id colorOfHsl]. rewrite U. f_equal. lia.
  - unfold advanced. cbn. repeat split; try assumption; lia.
Qed.

Lemma generateRandomColor_advances (w : World) :
  unitInterval w ->
  returns generateRandomColor w
    (fun color w' =>
       generatedColor color /\ id color = uuidSource w (issued w) /\ advanced w w' 3 3 1).
Proof.
  intros Hw. unfold generateRandomColor.
  apply returns_bind.
  eapply returns_weaken; [| exact (randomInRange_advances 0 359 w Hw ltac:(lia))].
  intros hue w1 ((kh & Hh & Eh) & Hadv1).
  pose proof (advanced_unitInterval _ _ _ _ _ Hadv1 Hw) as Hw1.
  eapply returns_weaken; [| exact (finish_color_advances hue kh w1 Hw1 Eh Hh)].
  intros color w2 (Hgen & _ & Hid & Hadv2).
  split; [exact Hgen |].
  pose proof (advanced_trans _ _ _ _ _ _ _ _ _ Hadv1 Hadv2) as Hadv.
  split; [| exact Hadv].
  destruct Hadv1 as (_ & U & _ & _ & _ & I). rewrite Hid, U. f_equal. lia.
Qed.

(** The search either accepts a colour after at most [attempts] hue
    draws, or runs out after exactly [attempts] draws without having
    asked for an identifier. *)
Lemma searchDistinctHue_advances (attempts : nat) (existingHues : list Q) :
  forall w : World,
    unitInterval w ->
    returns (searchDistinctHue attempts existingHues) w
      (fun found w' =>
         match found with
         | Some color =>
             generatedColor color /\ id color = uuidSource w (issued w) /\
             advanced w w' 3 (attempts + 2) 1
         | None => advanced w w' attempts attempts 0
         end).
Proof.
  induction attempts as [| attempts IH]; intros w Hw.
  - apply returns_ret. apply advanced_refl.
  - cbn [searchDistinctHue]. apply returns_bind.
    eapply returns_weaken; [| exact (randomInRange_advances 0 359 w Hw ltac:(lia))].
    intros hue w1 ((kh & Hh & Eh) & Hadv1).
    pose proof (advanced_unitInterval _ _ _ _ _ Hadv1 Hw) as Hw1.
    destruct (le MIN_HUE_DIFFERENCE (getMinHueDifference hue existingHues)).
    + destruct (finish_color_advances hue kh w1 Hw1 Eh Hh)
        as (color & w2 & Hrun & Hgen & _ & Hid & Hadv2).
      exists (Some color), w2. split.
      * unfold bind in Hrun |- *.
        destruct (randomInRange SATURATION_MIN SATURATION_MAX w1) as [e | [sat wa]];
          [discriminate Hrun |].
        destruct (randomInRange LIGHTNESS_MIN LIGHTNESS_MAX wa) as [e | [lig wb]];
          [discriminate Hrun |].
        rewrite Hrun. reflexivity.
      * split; [exact Hgen |].
        pose proof (advanced_trans _ _ _ _ _ _ _ _ _ Hadv1 Hadv2) as Hadv.
        split.
        -- destruct Hadv1 as (_ & U & _ & _ & _ & I). rewrite Hid, U. f_equal. lia.
        -- apply (advanced_weaken _ _ 3 3 1); [lia | lia | exact Hadv].
    + eapply returns_weaken; [| exact (IH w1 Hw1)].
      intros [color |] w2.
      * intros (Hgen & Hid & Hadv2). split; [exact Hgen |].
        pose proof (advanced_trans _ _ _ _ _ _ _ _ _ Hadv1 Hadv2) as Hadv.
        split.
        -- destruct Hadv1 as (_ & U & _ & _ & _ & I). rewrite Hid, U. f_equal. lia.
        -- apply (advanced_weaken _ _ (1 + 3) (1 + (attempts + 2)) (0 + 1));
             [lia | lia | exact Hadv].
      * intros Hadv2.
        exact (advanced_trans _ _ _ _ _ _ _ _ _ Hadv1 Hadv2).
Qed.

Lemma generateDistinctColor_advances (existingColors : list Color) (maxAttempts : nat)
    (w : World) :
  unitInterval w ->
  returns (generateDistinctColor existingColors maxAttempts) w
    (fun color w' =>
       generatedColor color /\ id color = uuidSource w (issued w) /\
       advanced w w' 3 (maxAttempts + 3) 1).
Proof.
  intros Hw. unfold generateDistinctColor. apply returns_bind.
  eapply returns_weaken; [| exact (searchDistinctHue_advances _ _ w Hw)].
  intros [color |] w1.
  - intros (Hgen & Hid & Hadv). apply returns_ret.
    split; [exact Hgen |]. split; [exact Hid |].
    apply (advanced_weaken _ _ 3 (maxAttempts + 2) 1); [lia | lia | exact Hadv].
  - intros Hadv1.
    pose proof (advanced_unitInterval _ _ _ _ _ Hadv1 Hw) as Hw1.
    eapply returns_weaken; [| exact (generateRandomColor_advances w1 Hw1)].
    intros color w2 (Hgen & Hid & Hadv2). split; [exact Hgen |].
    pose proof (advanced_trans _ _ _ _ _ _ _ _ _ Hadv1 Hadv2) as Hadv.
    split.
    + destruct Hadv1 as (_ & U & _ & _ & _ & I). rewrite Hid, U. f_equal. lia.
    + apply (advanced_weaken _ _ (maxAttempts + 3) (maxAttempts + 3) (0 + 1));
        [lia | lia | exact Hadv].
Qed.

Lemma fillPalette_advances (colorsNeeded : nat) :
  forall (newColors : list Color) (w : World),
    unitInterval w ->
    returns (fillPalette colorsNeeded newColors) w
      (fun filled w' =>
         exists generated : list Color,
           filled = newColors ++ generated /\
           List.length generated = colorsNeeded /\
           Forall generatedColor generated /\
           map id generated = map (uuidSource w) (seq (issued w) colorsNeeded) /\
           advanced w w' (3 * colorsNeeded) (53 * colorsNeeded) colorsNeeded).
Proof.
  induction colorsNeeded as [| rest IH]; intros newColors w Hw.
  - apply returns_ret. exists []. rewrite app_nil_r.
    split; [reflexivity |]. split; [reflexivity |]. split; [constructor |].
    split; [reflexivity | apply advanced_refl].
  - cbn [fillPalette]. apply returns_bind.
    eapply returns_weaken; [| exact (generateDistinctColor_advances _ 50 w Hw)].
    intros newColor w1 (Hgen & Hid & Hadv1).
    pose proof (advanced_unitInterval _ _ _ _ _ Hadv1 Hw) as Hw1.
    eapply returns_weaken; [| exact (IH (newColors ++ [newColor]) w1 Hw1)].
    intros filled w2 (generated & Hfilled & Hlen & Hall & Hids & Hadv2).
    exists (newColor :: generated).
    split; [rewrite Hfilled, <- app_assoc; reflexivity |].
    split; [simpl; rewrite Hlen; reflexivity |].
    split; [constructor; assumption |].
    split.
    + cbn [map seq]. rewrite Hid, Hids. f_equal.
      destruct Hadv1 as (_ & U & _ & _ & _ & I). rewrite U, I.
      replace (issued w + 1)%nat with (S (issued w)) by lia. reflexivity.
    + pose proof (advanced_trans _ _ _ _ _ _ _ _ _ Hadv1 Hadv2) as Hadv.
      apply (advanced_weaken _ _ (3 + 3 * rest) (50 + 3 + 53 * rest) (1 + rest));
        [lia | lia | exact Hadv].
Qed.

Lemma generateHarmoniousPalette_advances
    (existingColors : list Color) (options : option PaletteGenerationOptions)
    (w : World) :
  unitInterval w ->
  let lockedColors := lockedColorsOf existingColors options in
  let colorsNeeded := (5 - List.length lockedColors)%nat in
  returns (generateHarmoniousPalette existingColors options) w
    (fun palette w' =>
       exists generated : list Color,
         palette = {| colors := firstn 5 (lockedColors ++ generated);
                      name := None; createdAt := now w |} /\
         List.length generated = colorsNeeded /\
         Forall generatedColor generated /\
         map id generated = map (uuidSource w) (seq (issued w) colorsNeeded) /\
         advanced w w' (3 * colorsNeeded) (53 * colorsNeeded) colorsNeeded).
Proof.
  intros Hw lockedColors colorsNeeded. unfold generateHarmoniousPalette.
  change (if match options with
             | Some o => match preserveLocked o with Some v => v | None => true end
             | None => true
             end
          then filter isLocked existingColors else [])
    with lockedColors.
  assert (Hneed : Z.to_nat (Z.of_nat PALETTE_SIZE - Z.of_nat (List.length lockedColors))
                  = colorsNeeded) by (unfold colorsNeeded, PALETTE_SIZE; lia).
  rewrite Hneed.
  apply returns_bind.
  eapply returns_weaken; [| exact (fillPalette_advances colorsNeeded lockedColors w Hw)].
  intros filled w1 (generated & Hfilled & Hlen & Hall & Hids & Hadv).
  apply returns_bind. exists (now w1), w1. split; [reflexivity |].
  apply returns_ret. exists generated.
  split.
  - rewrite Hfilled. destruct Hadv as (_ & _ & N & _). rewrite N. reflexivity.
  - repeat (split; [assumption |]). exact Hadv.
Qed.

(** ** What [validatePalette] accepts *)

Lemma distinctFromLater_iff (hue : Q) (later : list Q) :
  distinctFromLater hue later = true <->
  Forall (fun other => MIN_HUE_DIFFERENCE <= hueDistance hue other) later.
Proof.
  induction later as [| other later IH]; cbn [distinctFromLater].
  - split; [constructor | reflexivity].
  - fold (hueDistance hue other).
    destruct (lt (hueDistance hue other) MIN_HUE_DIFFERENCE) eqn:Hnear.
    + apply lt_true_iff in Hnear. split; [discriminate |].
      intros Hall. apply Forall_inv in Hall. lra.
    + apply lt_false_iff in Hnear. rewrite IH. split.
      * intros Hall. constructor; assumption.
      * intros Hall. apply Forall_inv_tail in Hall. exact Hall.
Qed.

Lemma huesDistinct_iff (cs : list Color) :
  huesDistinct (map (fun color => h (hsl color)) cs) = true <-> pairwiseApart cs.
Proof.
  induction cs as [| c cs IH]; cbn [map huesDistinct pairwiseApart].
  - split; [constructor | reflexivity].
  - destruct (distinctFromLater (h (hsl c)) (map (fun color => h (hsl color)) cs)) eqn:Hfar.
    + apply distinctFromLater_iff in Hfar. rewrite Forall_map in Hfar.
      rewrite IH. split; [intros Hrest; split; assumption | intros [_ Hrest]; exact Hrest].
    + split; [discriminate |]. intros [Hhead _].
      assert (Htrue : distinctFromLater (h (hsl c)) (map (fun color => h (hsl color)) cs)
                      = true).
      { apply distinctFromLater_iff. rewrite Forall_map. exact Hhead. }
      congruence.
Qed.

Lemma validatePalette_true_iff (palette : Palette) :
  validatePalette palette = true <->
  List.length (colors palette) = 5%nat /\
  forallb colorWithinConstraints (colors palette) = true /\
  pairwiseApart (colors palette).
Proof.
  unfold validatePalette, PALETTE_SIZE.
  destruct (Nat.eqb_spec (List.length (colors palette)) 5) as [Hlen | Hlen]; cbn [negb].
  - destruct (forallb colorWithinConstraints (colors palette)); cbn [negb].
    + rewrite huesDistinct_iff. tauto.
    + split; [discriminate | intros (_ & Hno & _); discriminate Hno].
  - split; [discriminate | intros (Hyes & _); contradiction].
Qed.

Lemma colorWithinConstraints_iff (color : Color) :
  colorWithinConstraints color = true <->
  (60 <= s (hsl color) /\ s (hsl color) <= 100) /\
  (40 <= l (hsl color) /\ l (hsl color) <= 70) /\
  (0 <= h (hsl color) /\ h (hsl color) < 360).
Proof.
  unfold colorWithinConstraints, SATURATION_MIN, SATURATION_MAX, LIGHTNESS_MIN,
    LIGHTNESS_MAX. cbv zeta.
  destruct (lt (s (hsl color)) 60) eqn:S0;
    [apply lt_true_iff in S0; cbn [orb]; split; [discriminate | lra] |
     apply lt_false_iff in S0].
  destruct (lt 100 (s (hsl color))) eqn:S1;
    [apply lt_true_iff in S1; cbn [orb]; split; [discriminate | lra] |
     apply lt_false_iff in S1].
  destruct (lt (l (hsl color)) 40) eqn:L0;
    [apply lt_true_iff in L0; cbn [orb]; split; [discriminate | lra] |
     apply lt_false_iff in L0].
  destruct (lt 70 (l (hsl color))) eqn:L1;
    [apply lt_true_iff in L1; cbn [orb]; split; [discriminate | lra] |
     apply lt_false_iff in L1].
  destruct (lt (h (hsl color)) 0) eqn:H0;
    [apply lt_true_iff in H0; cbn [orb]; split; [discriminate | lra] |
     apply lt_false_iff in H0].
  destruct (le 360 (h (hsl color))) eqn:H1; cbn [orb].
  - apply le_true_iff in H1. split; [discriminate | lra].
  - assert (Hlt : h (hsl color) < 360).
    { apply Qnot_le_lt. intros Hle. apply le_true_iff in Hle. congruence. }
    split; [intros _; lra | reflexivity].
Qed.

Lemma generatedColor_within (color : Color) :
  generatedColor color -> colorWithinConstraints color = true.
Proof.
  intros ((kh & ks & kl & Hh & Hs & Hl & Eh & Es & El) & _).
  apply colorWithinConstraints_iff. rewrite Eh, Es, El.
  change 60 with (inject_Z 60). change 100 with (inject_Z 100).
  change 40 with (inject_Z 40). change 70 with (inject_Z 70).
  change 0 with (inject_Z 0). change 360 with (inject_Z 360).
  rewrite <- !Zle_Qle, <- Zlt_Qlt. lia.
Qed.

Lemma pairwiseApart_app_l (cs ds : list Color) :
  pairwiseApart (cs ++ ds) -> pairwiseApart cs.
Proof.
  induction cs as [| c cs IH]; cbn [app pairwiseApart]; [constructor |].
  intros [Hhead Htail]. split; [| exact (IH Htail)].
  apply Forall_app in Hhead. apply Hhead.
Qed.

Lemma pairwiseApart_app (cs ds : list Color) :
  pairwiseApart (cs ++ ds) ->
  pairwiseApart ds /\ Forall (fun d => Forall (fun c => apart c d) cs) ds.
Proof.
  induction cs as [| c cs IH]; cbn [app pairwiseApart].
  - intros Hds. split; [exact Hds |].
    apply Forall_forall. intros d _. constructor.
  - intros [Hhead Htail]. destruct (IH Htail) as [Hds Hcross].
    split; [exact Hds |].
    apply Forall_app in Hhead as [_ Hcd].
    rewrite Forall_forall in Hcross, Hcd |- *.
    intros d Hd. constructor; [apply Hcd; exact Hd | apply Hcross; exact Hd].
Qed.

(** ** Toggling twice, and validating a toggled palette *)

Lemma toggled_twice (colorId : string) (c : Color) :
  toggled colorId (toggled colorId c) = c.
Proof.
  unfold toggled. destruct (String.eqb (id c) colorId) eqn:Hid.
  - cbn [id]. rewrite Hid. cbn [hex rgb hsl isLocked]. rewrite negb_involutive.
    destruct c; reflexivity.
  - rewrite Hid. reflexivity.
Qed.

Lemma colorWithinConstraints_toggled (colorId : string) (c : Color) :
  colorWithinConstraints (toggled colorId c) = colorWithinConstraints c.
Proof.
  unfold colorWithinConstraints.
  destruct (toggled_fields colorId c) as (_ & _ & _ & -> & _). reflexivity.
Qed.

(** ** Colours added without a fallback *)

Lemma fillPalette_apart_from (lockedColors : list Color) (colorsNeeded : nat) :
  forall (added : list Color) (w : World),
    unitInterval w ->
    pairwiseApart added ->
    Forall (fun c => Forall (fun e => apart e c) lockedColors) added ->
    noFallback colorsNeeded (lockedColors ++ added) w = true ->
    returns (fillPalette colorsNeeded (lockedColors ++ added)) w
      (fun filled _ =>
         exists generated : list Color,
           filled = lockedColors ++ generated /\
           pairwiseApart generated /\
           Forall (fun c => Forall (fun e => apart e c) lockedColors) generated).
Proof.
  induction colorsNeeded as [| rest IH]; intros added w Hw Hpair Hcross Hno.
  - apply returns_ret. exists added. repeat split; assumption.
  - cbn [noFallback] in Hno. apply andb_true_iff in Hno as [Hacc Hrest].
    destruct (generateDistinctColor_accepted (lockedColors ++ added) w Hw Hacc)
      as (color & w1 & Hrun & Hw1 & Hfar).
    rewrite Hrun in Hrest.
    cbn [fillPalette]. apply returns_bind.
    exists color, w1. split; [exact Hrun |].
    apply Forall_app in Hfar as [Hlocked Hadded].
    rewrite <- app_assoc in Hrest |- *.
    apply IH; [exact Hw1 | | | exact Hrest].
    + apply pairwiseApart_snoc; assumption.
    + apply Forall_app. split; [exact Hcross | constructor; [exact Hlocked | constructor]].
Qed.

Lemma firstn_five_all (lockedColors generated : list Color) :
  List.length generated = (5 - List.length lockedColors)%nat ->
  (List.length lockedColors <= 5)%nat ->
  firstn 5 (lockedColors ++ generated) = lockedColors ++ generated.
Proof.
  intros Hlen Hle. apply firstn_all2. rewrite length_app. lia.
Qed.

Lemma generateHarmoniousPalette_fill
    (existingColors : list Color) (options : option PaletteGenerationOptions) (w : World)
    (post : list Color -> World -> Prop) :
  returns (fillPalette (5 - List.length (lockedColorsOf existingColors options))
             (lockedColorsOf existingColors options)) w post ->
  returns (generateHarmoniousPalette existingColors options) w
    (fun palette w' =>
       exists filled : list Color, colors palette = firstn 5 filled /\ post filled w').
Proof.
  intros (filled & w1 & Hrun & Hpost).
  unfold generateHarmoniousPalette.
  change (if match options with
             | Some o => match preserveLocked o with Some v => v | None => true end
             | None => true
             end
          then filter isLocked existingColors else [])
    with (lockedColorsOf existingColors options).
  assert (Hneed : Z.to_nat (Z.of_nat PALETTE_SIZE -
                            Z.of_nat (List.length (lockedColorsOf existingColors options)))
                  = (5 - List.length (lockedColorsOf existingColors options))%nat)
    by (unfold PALETTE_SIZE; lia).
  rewrite Hneed. unfold returns, bind. rewrite Hrun.
  eexists. eexists. split; [reflexivity |].
  exists filled. split; [reflexivity | exact Hpost].
Qed.

(** ** Locking, regenerating and validating together *)

(** X11. Toggling the same identifier twice gives the palette back. *)
Theorem toggleColorLock_twice (palette : Palette) (colorId : string) :
  toggleColorLock (toggleColorLock palette colorId) colorId = palette.
Proof.
  destruct palette as [cs nm created].
  unfold toggleColorLock. cbn [colors name createdAt]. f_equal.
  rewrite map_map. fold (toggled colorId).
  rewrite <- (map_id cs) at 2. apply map_ext. intros c.
  apply (toggled_twice colorId c).
Qed.

(** X12. [validatePalette] does not look at the locks. *)
Theorem validatePalette_ignores_locks (palette : Palette) (colorId : string) :
  validatePalette (toggleColorLock palette colorId) = validatePalette palette.
Proof.
  unfold validatePalette. rewrite toggleColorLock_colors.
  rewrite length_map, map_map.
  assert (Hwithin : forallb colorWithinConstraints (map (toggled colorId) (colors palette))
                    = forallb colorWithinConstraints (colors palette)).
  { induction (colors palette) as [| c cs IH]; [reflexivity |].
    cbn [map forallb]. rewrite colorWithinConstraints_toggled, IH. reflexivity. }
  rewrite Hwithin.
  assert (Hhues : map (fun x => h (hsl (toggled colorId x))) (colors palette)
                  = map (fun color => h (hsl color)) (colors palette)).
  { apply map_ext. intros c.
    destruct (toggled_fields colorId c) as (_ & _ & _ & -> & _). reflexivity. }
  rewrite Hhues. reflexivity.
Qed.

(** X13. With every colour locked nothing is generated. *)
Theorem regeneratePalette_all_locked (current : Palette) (w : World) :
  (forall color : Color, In color (colors current) -> isLocked color = true) ->
  (5 <= List.length (colors current))%nat ->
  regeneratePalette current w =
  inr ({| colors := firstn 5 (colors current); name := None; createdAt := now w |}, w).
Proof.
  intros Hall Hlen. unfold regeneratePalette, generateHarmoniousPalette.
  cbn [onlyPreserveLocked preserveLocked].
  assert (Hfilter : filter isLocked (colors current) = colors current).
  { clear Hlen. induction (colors current) as [| c cs IH]; [reflexivity |].
    cbn [filter]. rewrite (Hall c (or_introl eq_refl)).
    rewrite IH; [reflexivity |]. intros c' Hin. apply Hall. right. exact Hin. }
  rewrite Hfilter.
  assert (Hneed : Z.to_nat (Z.of_nat PALETTE_SIZE - Z.of_nat (List.length (colors current)))
                  = 0%nat) by (unfold PALETTE_SIZE; lia).
  rewrite Hneed. reflexivity.
Qed.

Lemma regeneratePalette_all_locked_witness :
  regeneratePalette greenPalette stuckWorld =
  inr ({| colors := firstn 5 (colors greenPalette); name := None; createdAt := 0 |},
       stuckWorld).
Proof.
  apply (regeneratePalette_all_locked greenPalette stuckWorld).
  - intros color Hin. cbn [colors greenPalette map] in Hin.
    repeat (destruct Hin as [<- | Hin]; [reflexivity |]). contradiction.
  - cbn. lia.
Defined.

(** X14. A colour that is locked through [toggleColorLock] survives the next
    [regeneratePalette]. *)
Theorem locking_then_regenerating_keeps (current : Palette) (color : Color) (w : World) :
  unitInterval w ->
  (List.length (colors current) <= 5)%nat ->
  In color (colors current) ->
  isLocked color = false ->
  exists (palette : Palette) (w' : World),
    regeneratePalette (toggleColorLock current (id color)) w = inr (palette, w') /\
    In {| id := id color; hex := hex color; rgb := rgb color; hsl := hsl color;
          isLocked := true |} (colors palette).
Proof.
  intros Hw Hlen Hin Hopen.
  destruct (generateHarmoniousPalette_returns
              (colors (toggleColorLock current (id color)))
              (Some (onlyPreserveLocked true)) w Hw)
    as (palette & w' & Hrun & _ & _ & generated & Hcolors & Hgen & _).
  exists palette, w'. split; [exact Hrun |].
  change (lockedColorsOf (colors (toggleColorLock current (id color)))
            (Some (onlyPreserveLocked true)))
    with (filter isLocked (colors (toggleColorLock current (id color))))
    in Hcolors, Hgen.
  rewrite toggleColorLock_colors in Hcolors, Hgen.
  pose proof (filter_length_le isLocked (map (toggled (id color)) (colors current))) as Hle.
  rewrite length_map in Hle.
  rewrite firstn_five_all in Hcolors; [| exact Hgen | lia].
  rewrite Hcolors. apply in_or_app. left. apply filter_In. split; [| reflexivity].
  apply in_map_iff. exists color. split; [| exact Hin].
  unfold toggled. rewrite String.eqb_refl, Hopen. reflexivity.
Qed.

Lemma locking_then_regenerating_keeps_witness :
  exists (palette : Palette) (w' : World),
    regeneratePalette (toggleColorLock samplePalette "c") spreadWorld = inr (palette, w') /\
    In (colorOfHsl "c" 95 90 60 true) (colors palette).
Proof.
  apply (locking_then_regenerating_keeps samplePalette (colorOfHsl "c" 95 90 60 false)
           spreadWorld).
  - exact spreadWorld_unitInterval.
  - cbn. lia.
  - cbn. right. right. left. reflexivity.
  - reflexivity.
Defined.

(** ** What is generated *)

(** X15. Every colour that [generateHarmoniousPalette] adds is one the
    generator's ranges allow, with [rgb] and [hex] that agree with its
    [hsl]. *)
Theorem generated_colours_within_ranges
    (existingColors : list Color) (options : option PaletteGenerationOptions) (w : World) :
  unitInterval w ->
  exists (palette : Palette) (w' : World) (generated : list Color),
    generateHarmoniousPalette existingColors options w = inr (palette, w') /\
    colors palette = firstn 5 (lockedColorsOf existingColors options ++ generated) /\
    List.length generated = (5 - List.length (lockedColorsOf existingColors options))%nat /\
    Forall (fun color =>
              generatedColor color /\
              colorWithinConstraints color = true /\
              hexToRgb (hex color) = inr (rgb color)) generated.
Proof.
  intros Hw.
  destruct (generateHarmoniousPalette_advances existingColors options w Hw)
    as (palette & w' & Hrun & generated & Hpal & Hlen & Hall & _).
  exists palette, w', generated. split; [exact Hrun |].
  split; [rewrite Hpal; reflexivity |]. split; [exact Hlen |].
  apply Forall_impl with (2 := Hall). intros color Hgen.
  split; [exact Hgen |]. split; [apply generatedColor_within; exact Hgen |].
  destruct Hgen as (_ & _ & Hrgb & Hhex).
  rewrite Hhex, Hrgb. apply hslToHex_back.
Qed.

Lemma generated_colours_within_ranges_witness :
  exists (palette : Palette) (w' : World) (generated : list Color),
    regeneratePalette samplePalette spreadWorld = inr (palette, w') /\
    colors palette = firstn 5 (filter isLocked (colors samplePalette) ++ generated) /\
    List.length generated = 3%nat /\
    Forall (fun color =>
              generatedColor color /\
              colorWithinConstraints color = true /\
              hexToRgb (hex color) = inr (rgb color)) generated.
Proof.
  apply (generated_colours_within_ranges (colors samplePalette)
           (Some (onlyPreserveLocked true)) spreadWorld).
  exact spreadWorld_unitInterval.
Defined.

(** X16. What a run of [generateHarmoniousPalette] consumes. *)
Theorem generation_draws_and_identifiers
    (existingColors : list Color) (options : option PaletteGenerationOptions) (w : World) :
  unitInterval w ->
  let colorsNeeded := (5 - List.length (lockedColorsOf existingColors options))%nat in
  exists (palette : Palette) (w' : World),
    generateHarmoniousPalette existingColors options w = inr (palette, w') /\
    createdAt palette = now w /\ name palette = None /\
    advanced w w' (3 * colorsNeeded) (53 * colorsNeeded) colorsNeeded.
Proof.
  intros Hw colorsNeeded.
  destruct (generateHarmoniousPalette_advances existingColors options w Hw)
    as (palette & w' & Hrun & generated & Hpal & _ & _ & _ & Hadv).
  exists palette, w'. split; [exact Hrun |]. rewrite Hpal.
  split; [reflexivity |]. split; [reflexivity | exact Hadv].
Qed.

Lemma generation_draws_and_identifiers_witness :
  exists (palette : Palette) (w' : World),
    generateFreshPalette spreadWorld = inr (palette, w') /\
    createdAt palette = 0%Z /\ name palette = None /\
    advanced spreadWorld w' 15 265 5.
Proof.
  apply (generation_draws_and_identifiers [] (Some (onlyPreserveLocked false)) spreadWorld).
  exact spreadWorld_unitInterval.
Defined.

(** X17. The colours of a fresh palette carry the next five identifiers. *)
Theorem fresh_palette_identifiers (w : World) :
  unitInterval w ->
  (forall i j : nat,
      (issued w <= i < issued w + 5)%nat -> (issued w <= j < issued w + 5)%nat ->
      uuidSource w i = uuidSource w j -> i = j) ->
  exists (palette : Palette) (w' : World),
    generateFreshPalette w = inr (palette, w') /\
    map id (colors palette) = map (uuidSource w) (seq (issued w) 5) /\
    NoDup (map id (colors palette)).
Proof.
  intros Hw Hinj.
  destruct (generateHarmoniousPalette_advances [] (Some (onlyPreserveLocked false)) w Hw)
    as (palette & w' & Hrun & generated & Hpal & Hlen & _ & Hids & _).
  cbn [lockedColorsOf onlyPreserveLocked preserveLocked List.length Nat.sub app]
    in Hpal, Hlen, Hids.
  exists palette, w'. split; [exact Hrun |].
  assert (Hcolors : colors palette = generated).
  { rewrite Hpal. cbn [colors]. apply firstn_all2. lia. }
  rewrite Hcolors, Hids. split; [reflexivity |].
  apply NoDup_nth_error. intros i j Hi Hij.
  rewrite length_map, length_seq in Hi.
  assert (Hj : (j < 5)%nat).
  { assert (Hsome : nth_error (map (uuidSource w) (seq (issued w) 5)) j <> None).
    { rewrite <- Hij. apply nth_error_Some. rewrite length_map, length_seq. exact Hi. }
    apply nth_error_Some in Hsome. rewrite length_map, length_seq in Hsome. exact Hsome. }
  rewrite !nth_error_map in Hij.
  rewrite (nth_error_nth' _ 0%nat) in Hij by (rewrite length_seq; exact Hi).
  rewrite (nth_error_nth' _ 0%nat) in Hij by (rewrite length_seq; exact Hj).
  rewrite !seq_nth in Hij by assumption.
  cbn [option_map] in Hij. injection Hij as Hij.
  apply Hinj in Hij; lia.
Qed.

Lemma fresh_palette_identifiers_witness :
  exists (palette : Palette) (w' : World),
    generateFreshPalette spreadWorld = inr (palette, w') /\
    map id (colors palette) = ["A"; "B"; "C"; "D"; "E"]%string /\
    NoDup (map id (colors palette)).
Proof.
  apply (fresh_palette_identifiers spreadWorld).
  - exact spreadWorld_unitInterval.
  - cbn [issued spreadWorld uuidSource]. intros i j Hi Hj.
    assert (Ci : (i = 0 \/ i = 1 \/ i = 2 \/ i = 3 \/ i = 4)%nat) by lia.
    assert (Cj : (j = 0 \/ j = 1 \/ j = 2 \/ j = 3 \/ j = 4)%nat) by lia.
    destruct Ci as [-> | [-> | [-> | [-> | ->]]]];
      destruct Cj as [-> | [-> | [-> | [-> | ->]]]];
      vm_compute; intros E; try reflexivity; discriminate E.
Defined.

(** X18. When no search falls back, every added colour is apart from every
    locked colour and from every other added colour. *)
Theorem added_colours_apart_from_locked
    (existingColors : list Color) (options : option PaletteGenerationOptions) (w : World) :
  unitInterval w ->
  noFallback (5 - List.length (lockedColorsOf existingColors options))
    (lockedColorsOf existingColors options) w = true ->
  exists (palette : Palette) (w' : World) (generated : list Color),
    generateHarmoniousPalette existingColors options w = inr (palette, w') /\
    colors palette = firstn 5 (lockedColorsOf existingColors options ++ generated) /\
    pairwiseApart generated /\
    Forall (fun added =>
              Forall (fun locked => apart locked added)
                     (lockedColorsOf existingColors options)) generated.
Proof.
  intros Hw Hno.
  pose proof (fillPalette_apart_from (lockedColorsOf existingColors options)
                (5 - List.length (lockedColorsOf existingColors options)) [] w Hw I
                (Forall_nil _)) as Hfill.
  rewrite app_nil_r in Hfill. specialize (Hfill Hno).
  destruct (generateHarmoniousPalette_fill existingColors options w _ Hfill)
    as (palette & w' & Hrun & filled & Hcolors & generated & Hfilled & Hpair & Hcross).
  exists palette, w', generated. split; [exact Hrun |].
  split; [rewrite Hcolors, Hfilled; reflexivity |]. split; assumption.
Qed.

Lemma added_colours_apart_from_locked_witness :
  exists (palette : Palette) (w' : World) (generated : list Color),
    regeneratePalette samplePalette spreadWorld = inr (palette, w') /\
    colors palette = firstn 5 (filter isLocked (colors samplePalette) ++ generated) /\
    pairwiseApart generated /\
    Forall (fun added =>
              Forall (fun locked => apart locked added)
                     (filter isLocked (colors samplePalette))) generated.
Proof.
  apply (added_colours_apart_from_locked (colors samplePalette)
           (Some (onlyPreserveLocked true)) spreadWorld).
  - exact spreadWorld_unitInterval.
  - vm_compute. reflexivity.
Defined.

(** X19. A palette generated without a fallback from locked colours that
    are themselves acceptable passes [validatePalette]. *)
Theorem generated_palette_validates
    (existingColors : list Color) (options : option PaletteGenerationOptions) (w : World) :
  unitInterval w ->
  (List.length (lockedColorsOf existingColors options) <= 5)%nat ->
  forallb colorWithinConstraints (lockedColorsOf existingColors options) = true ->
  pairwiseApart (lockedColorsOf existingColors options) ->
  noFallback (5 - List.length (lockedColorsOf existingColors options))
    (lockedColorsOf existingColors options) w = true ->
  exists (palette : Palette) (w' : World),
    generateHarmoniousPalette existingColors options w = inr (palette, w') /\
    validatePalette palette = true.
Proof.
  intros Hw Hle Hwithin Hpair Hno.
  set (lockedColors := lockedColorsOf existingColors options) in *.
  destruct (returns_both _ _ _ _
              (fillPalette_advances (5 - List.length lockedColors) lockedColors w Hw)
              (fillPalette_apart (5 - List.length lockedColors) lockedColors w Hw Hpair Hno))
    as (filled & w1 & Hfill & (generated & Hfilled & Hlen & Hall & _) & Hapart).
  assert (Hrun : returns (fillPalette (5 - List.length lockedColors) lockedColors) w
                   (fun out _ => out = filled)).
  { exists filled, w1. split; [exact Hfill | reflexivity]. }
  apply generateHarmoniousPalette_fill in Hrun.
  destruct Hrun as (palette & w' & Hrun & out & Hcolors & ->).
  exists palette, w'. split; [exact Hrun |].
  apply validatePalette_true_iff.
  rewrite Hcolors, Hfilled, (firstn_five_all _ _ Hlen Hle).
  split; [rewrite length_app; lia |]. split.
  - rewrite forallb_app, Hwithin. cbn [andb].
    apply forallb_forall. intros color Hin.
    apply generatedColor_within. rewrite Forall_forall in Hall. apply Hall. exact Hin.
  - rewrite <- Hfilled. exact Hapart.
Qed.

Lemma generated_palette_validates_witness :
  exists (palette : Palette) (w' : World),
    generateFreshPalette spreadWorld = inr (palette, w') /\
    validatePalette palette = true.
Proof.
  apply (generated_palette_validates [] (Some (onlyPreserveLocked false)) spreadWorld).
  - exact spreadWorld_unitInterval.
  - cbn. lia.
  - reflexivity.
  - exact I.
  - vm_compute. reflexivity.
Defined.

(** X20. Two locked colours that are too close make every regenerated
    palette fail [validatePalette]. *)
Theorem locked_clash_never_validates (current : Palette) (w : World) :
  unitInterval w ->
  (List.length (colors current) <= 5)%nat ->
  ~ pairwiseApart (filter isLocked (colors current)) ->
  exists (palette : Palette) (w' : World),
    regeneratePalette current w = inr (palette, w') /\
    validatePalette palette = false.
Proof.
  intros Hw Hlen Hclash.
  destruct (generateHarmoniousPalette_returns (colors current)
              (Some (onlyPreserveLocked true)) w Hw)
    as (palette & w' & Hrun & _ & _ & generated & Hcolors & Hgen & _).
  exists palette, w'. split; [exact Hrun |].
  change (lockedColorsOf (colors current) (Some (onlyPreserveLocked true)))
    with (filter isLocked (colors current)) in Hcolors, Hgen.
  pose proof (filter_length_le isLocked (colors current)) as Hle.
  rewrite firstn_five_all in Hcolors; [| exact Hgen | lia].
  apply not_true_iff_false. intros Hvalid.
  apply validatePalette_true_iff in Hvalid as (_ & _ & Hpair).
  rewrite Hcolors in Hpair. apply pairwiseApart_app_l in Hpair. contradiction.
Qed.

Lemma locked_clash_never_validates_witness :
  exists (palette : Palette) (w' : World),
    regeneratePalette samplePalette spreadWorld = inr (palette, w') /\
    validatePalette palette = false.
Proof.
  apply (locked_clash_never_validates samplePalette spreadWorld).
  - exact spreadWorld_unitInterval.
  - cbn. lia.
  - cbn [samplePalette colors filter colorOfHsl isLocked pairwiseApart].
    intros [Hfirst _]. apply Forall_inv in Hfirst.
    vm_compute in Hfirst. apply Hfirst. reflexivity.
Defined.

(** ** The tone ladder *)

Lemma In_slice {A : Type} (from to : nat) (xs : list A) (x : A) :
  In x (slice from to xs) -> In x xs.
Proof.
  unfold slice. intros Hin. rewrite <- (firstn_skipn from xs).
  apply in_or_app. right.
  rewrite <- (firstn_skipn (to - from) (skipn from xs)).
  apply in_or_app. left. exact Hin.
Qed.

(** X21. The two ladders carry the standard labels and lightnesses, and the
    short one is the middle of the long one. *)
Theorem tone_ladders_shape (baseColor : Color) :
  map label (generateAllTones baseColor) = getStandardLabels /\
  map Types.lightness (generateAllTones baseColor) = getStandardLightness /\
  List.length (generateAllTones baseColor) = 10%nat /\
  generateTones baseColor = slice 1 8 (generateAllTones baseColor) /\
  List.length (generateTones baseColor) = 7%nat /\
  map label (generateTones baseColor) =
    ["100"; "200"; "300"; "400"; "500"; "600"; "700"]%string.
Proof.
  unfold generateAllTones, generateTones, getStandardLabels, getStandardLightness.
  rewrite !map_map. cbn [toneOf label Types.lightness].
  repeat split; reflexivity.
Qed.

(** X22. For a base colour whose hue and saturation are finite numbers,
    every tone of the ladder has a valid colour string, which reads back as
    the bytes [hslToRgb] computes for the tone. *)
Theorem ladder_tones_read_back (baseColor : Color) :
  Forall (fun tone =>
            isValidHex (toneHex tone) = true /\
            hexToRgb (toneHex tone) =
            inr (hslToRgb (h (hsl baseColor)) (s (hsl baseColor)) (Types.lightness tone)))
         (generateAllTones baseColor).
Proof.
  unfold generateAllTones. rewrite Forall_map. apply Forall_forall. intros step _.
  cbn [toneOf toneHex Types.lightness]. split.
  - unfold hslToHex. cbv zeta. apply rgbToHex_valid.
  - apply hslToHex_back.
Qed.

(** X23. [toneToColor] on a tone of the ladder. *)
Theorem toneToColor_of_ladder_tone
    (baseColor : Color) (tone : ColorTone) (locked : bool) (w : World) :
  In tone (generateAllTones baseColor) ->
  match toneToColor tone baseColor locked w with
  | inl e =>
      isValidHsl (h (hsl baseColor)) (s (hsl baseColor)) 50 = false /\
      e = InvalidHslValues (h (hsl baseColor)) (s (hsl baseColor)) (Types.lightness tone)
  | inr (color, w') =>
      isValidHsl (h (hsl baseColor)) (s (hsl baseColor)) 50 = true /\
      hex color = toneHex tone /\
      hsl color = {| h := h (hsl baseColor); s := s (hsl baseColor);
                     l := Types.lightness tone |} /\
      hexToRgb (hex color) = inr (rgb color) /\
      isLocked color = locked /\ id color = uuidSource w (issued w)
  end.
Proof.
  intros Hin. unfold generateAllTones in Hin. apply in_map_iff in Hin as (step & <- & Hstep).
  unfold toneToColor, toneOf. cbn [Types.lightness toneHex].
  assert (Hsame : isValidHsl (h (hsl baseColor)) (s (hsl baseColor)) (Types.lightness step)
                  = isValidHsl (h (hsl baseColor)) (s (hsl baseColor)) 50).
  { unfold TONE_STEPS in Hstep. cbn [In] in Hstep.
    unfold isValidHsl.
    repeat (destruct Hstep as [<- | Hstep]; [reflexivity |]). contradiction. }
  rewrite <- Hsame.
  destruct (isValidHsl (h (hsl baseColor)) (s (hsl baseColor)) (Types.lightness step))
    eqn:Hvalid.
  - destruct (createColorFromHsl_runs _ _ _ locked w Hvalid) as (w' & ->).
    cbn [colorOfHsl hex hsl rgb isLocked id].
    split; [reflexivity |]. split; [reflexivity |]. split; [reflexivity |].
    split; [apply hslToHex_back |]. split; reflexivity.
  - unfold createColorFromHsl. rewrite Hvalid. cbn [negb throw].
    split; reflexivity.
Qed.

Lemma toneToColor_of_ladder_tone_witness :
  match toneToColor (toneOf coolBase {| label := "300"; lightness := 70;
                                        toneHex := EmptyString |})
          coolBase true stuckWorld with
  | inl e =>
      isValidHsl 200 65 50 = false /\ e = InvalidHslValues 200 65 70
  | inr (color, w') =>
      isValidHsl 200 65 50 = true /\
      hex color = hslToHex 200 65 70 /\
      hsl color = {| h := 200; s := 65; l := 70 |} /\
      hexToRgb (hex color) = inr (rgb color) /\
      isLocked color = true /\ id color = "A"%string
  end.
Proof.
  apply (toneToColor_of_ladder_tone coolBase
           (toneOf coolBase {| label := "300"; lightness := 70; toneHex := EmptyString |})
           true stuckWorld).
  cbn. right. right. right. left. reflexivity.
Defined.

(** *** The consistency of the ladder, on doubles *)

Section DoubleLadder.

Import Floats PrimInt63.
Local Open Scope float_scope.

Lemma toneLadderSurvives_holds : forallb DoubleCheck.ladderSurvives (range 0 361) = true.
Proof. vm_compute. reflexivity. Qed.

(** X24. The ladder of a base colour with a whole hue in [0,360] and a
    whole saturation in [46,100] passes [validateToneConsistency], and
    so does the short ladder; the conversions are those on doubles. *)
Theorem generated_tones_are_consistent (baseColor : Double.Color) (h0 s0 : Z) :
  Double.h (Double.hsl baseColor) = Double.ofZ h0 ->
  Double.s (Double.hsl baseColor) = Double.ofZ s0 ->
  (0 <= h0 <= 360)%Z -> (46 <= s0 <= 100)%Z ->
  Double.validateToneConsistency baseColor (Double.generateAllTones baseColor) = true /\
  Double.validateToneConsistency baseColor (Double.generateTones baseColor) = true.
Proof.
  intros Eh Es Hh Hs.
  assert (Hstep : forall step : Double.ColorTone,
             In step Double.TONE_STEPS ->
             Double.toneIsConsistent (Double.h (Double.hsl baseColor))
               (Double.s (Double.hsl baseColor)) (Double.toneOf baseColor step) = true).
  { intros step Hin.
    pose proof (range_covers _ _ _ toneLadderSurvives_holds h0 ltac:(lia)) as Hhue.
    unfold DoubleCheck.ladderSurvives in Hhue. cbv zeta in Hhue.
    pose proof (range_covers _ _ _ Hhue s0 ltac:(lia)) as Hsat. cbv beta in Hsat.
    rewrite forallb_forall in Hsat. specialize (Hsat step Hin).
    clear Hhue. unfold DoubleCheck.toneSurvives in Hsat.
    destruct (DoubleCheck.roundTrip (DoubleCheck.normalHue (Double.ofZ h0))
                (DoubleCheck.ramp (DoubleCheck.normalHue (Double.ofZ h0)))
                (Double.ofZ s0) (Double.lightness step)) as [back |] eqn:Hback;
      [| discriminate].
    unfold Double.toneIsConsistent, Double.toneOf.
    cbn [Double.toneHex Double.lightness]. rewrite Eh, Es.
    rewrite (roundTrip_sound _ _ _ _ Hback). exact Hsat. }
  unfold Double.validateToneConsistency. split; apply forallb_forall; intros tone Hin.
  - unfold Double.generateAllTones in Hin. apply in_map_iff in Hin as (step & <- & Hin).
    apply Hstep. exact Hin.
  - unfold Double.generateTones in Hin. cbv zeta in Hin.
    apply in_map_iff in Hin as (step & <- & Hin).
    apply Hstep. exact (In_slice 1 8 _ _ Hin).
Qed.

Lemma generated_tones_are_consistent_witness :
  Double.validateToneConsistency DoubleCheck.coolBase
    (Double.generateAllTones DoubleCheck.coolBase) = true /\
  Double.validateToneConsistency DoubleCheck.coolBase
    (Double.generateTones DoubleCheck.coolBase) = true.
Proof.
  apply (generated_tones_are_consistent DoubleCheck.coolBase 200 65);
    try reflexivity; lia.
Defined.

(** Below that saturation the ladder can fail the test: the lightest
    tone of hue 5 and saturation 45 reads back with hue 0. *)
Example pale_tones_are_not_consistent :
  Double.validateToneConsistency DoubleCheck.paleBase
    (Double.generateAllTones DoubleCheck.paleBase) = false /\
  Double.hexToHsl (Double.hslToHex 5 45 95) =
    inr {| Double.h := 0; Double.s := 44; Double.l := 95 |}.
Proof. split; vm_compute; reflexivity. Qed.

End DoubleLadder.

(** X25. A tone whose string [hexToHsl] refuses makes the check answer
    [false]; nothing is thrown. *)
Theorem unreadable_tone_fails_consistency
    (baseColor : Color) (tones : list ColorTone) (tone : ColorTone) (e : Error) :
  In tone tones -> hexToRgb (toneHex tone) = inl e ->
  validateToneConsistency baseColor tones = false.
Proof.
  intros Hin Hbad. unfold validateToneConsistency.
  apply not_true_iff_false. intros Hall.
  rewrite forallb_forall in Hall. specialize (Hall tone Hin).
  unfold toneIsConsistent, hexToHsl in Hall. rewrite Hbad in Hall. discriminate Hall.
Qed.

Lemma unreadable_tone_fails_consistency_witness :
  validateToneConsistency coolBase TONE_STEPS = false.
Proof.
  apply (unreadable_tone_fails_consistency coolBase TONE_STEPS
           {| label := "50"; lightness := 95; toneHex := EmptyString |}
           (InvalidFormat EmptyString)).
  - left. reflexivity.
  - reflexivity.
Defined.

(** Some step of the table is near any lightness of the range. *)
Lemma some_step_near (x : Q) :
  0 <= x -> x <= 100 ->
  exists (j : nat) (u : ColorTone),
    nth_error TONE_STEPS j = Some u /\
    gap x u <= 10 /\ (5 <= x -> gap x u <= 5).
Proof.
  intros Hlo Hhi.
  assert (Hnear : forall (j : nat) (u : ColorTone),
             nth_error TONE_STEPS j = Some u ->
             (5 <= x -> Types.lightness u - 5 <= x) -> Types.lightness u - 10 <= x ->
             x <= Types.lightness u + 5 ->
             exists (j : nat) (u : ColorTone),
               nth_error TONE_STEPS j = Some u /\
               gap x u <= 10 /\ (5 <= x -> gap x u <= 5)).
  { intros j u Hj H5 H10 Hup. exists j, u. split; [exact Hj |].
    unfold gap, Math_abs. split.
    - apply Qabs_Qle_condition. split; lra.
    - intros Hx. specialize (H5 Hx). apply Qabs_Qle_condition. split; lra. }
  destruct (Qlt_le_dec x 15) as [H15 | H15];
    [apply (Hnear 9%nat _ eq_refl); cbn [Types.lightness]; intros; lra |].
  destruct (Qlt_le_dec x 25) as [H25 | H25];
    [apply (Hnear 8%nat _ eq_refl); cbn [Types.lightness]; intros; lra |].
  destruct (Qlt_le_dec x 35) as [H35 | H35];
    [apply (Hnear 7%nat _ eq_refl); cbn [Types.lightness]; intros; lra |].
  destruct (Qlt_le_dec x 45) as [H45 | H45];
    [apply (Hnear 6%nat _ eq_refl); cbn [Types.lightness]; intros; lra |].
  destruct (Qlt_le_dec x 55) as [H55 | H55];
    [apply (Hnear 5%nat _ eq_refl); cbn [Types.lightness]; intros; lra |].
  destruct (Qlt_le_dec x 65) as [H65 | H65];
    [apply (Hnear 4%nat _ eq_refl); cbn [Types.lightness]; intros; lra |].
  destruct (Qlt_le_dec x 75) as [H75 | H75];
    [apply (Hnear 3%nat _ eq_refl); cbn [Types.lightness]; intros; lra |].
  destruct (Qlt_le_dec x 85) as [H85 | H85];
    [apply (Hnear 2%nat _ eq_refl); cbn [Types.lightness]; intros; lra |].
  destruct (Qlt_le_dec x 93) as [H93 | H93];
    [apply (Hnear 1%nat _ eq_refl); cbn [Types.lightness]; intros; lra |].
  apply (Hnear 0%nat _ eq_refl); cbn [Types.lightness]; intros; lra.
Qed.

(** X26. The step [findClosestTone] answers is within 10 of the lightness
    asked for, within 5 from lightness 5 upwards, and a lightness of the
    table gets its own step. *)
Theorem findClosestTone_is_near :
  (forall x : Q,
      0 <= x /\ x <= 100 ->
      exists tone : ColorTone,
        findClosestTone x = inr tone /\ In tone TONE_STEPS /\
        Qabs (x - Types.lightness tone) <= 10 /\
        (5 <= x -> Qabs (x - Types.lightness tone) <= 5)) /\
  Forall (fun step => findClosestTone (Types.lightness step) = inr step) TONE_STEPS.
Proof.
  split.
  - intros x [Hlo Hhi]. unfold findClosestTone.
    destruct (outOfRange x) eqn:Hout.
    + apply outOfRange_true_iff in Hout. lra.
    + pose proof (scanned_from_first x (nth 0 TONE_STEPS undefinedTone)
                    (tl TONE_STEPS)) as [_ (i & Hi & Hmin)].
      destruct (some_step_near x Hlo Hhi) as (j & u & Hj & H10 & H5).
      destruct (Hmin j u Hj) as [Hle _].
      set (tone := fst (fold_left (closer x)
                          (nth 0 TONE_STEPS undefinedTone :: tl TONE_STEPS)
                          (nth 0 TONE_STEPS undefinedTone,
                           gap x (nth 0 TONE_STEPS undefinedTone)))) in *.
      exists tone. split; [reflexivity |].
      split; [exact (nth_error_In _ _ Hi) |].
      unfold gap, Math_abs in Hle, H10, H5.
      split; [lra |]. intros Hx. specialize (H5 Hx). lra.
  - unfold TONE_STEPS. repeat constructor; vm_compute; reflexivity.
Qed.

Section SpecificToneOutcome.

Variable numberToString : Q -> string.

(** X27. For a finite lightness and a base colour whose hue and saturation
    are finite, [generateSpecificTone] throws exactly outside [0,100]; what
    it returns reads back as the bytes of the tone, and at a step of the
    table with the step's label it is the tone of the ladder. *)
Theorem generateSpecificTone_outcome (baseColor : Color) :
  (forall (x : Q) (text : option string),
      match generateSpecificTone numberToString baseColor x text with
      | inl e => (x < 0 \/ 100 < x) /\ e = InvalidLightness x
      | inr tone =>
          (0 <= x /\ x <= 100) /\
          Types.lightness tone = x /\
          label tone = orElse text (numberToString x) /\
          isValidHex (toneHex tone) = true /\
          hexToRgb (toneHex tone) =
            inr (hslToRgb (h (hsl baseColor)) (s (hsl baseColor)) x)
      end) /\
  generateAllTones baseColor =
  map (fun step => match generateSpecificTone numberToString baseColor
                           (Types.lightness step) (Some (label step)) with
                   | inr tone => tone
                   | inl _ => step
                   end) TONE_STEPS.
Proof.
  split.
  - intros x text. unfold generateSpecificTone.
    destruct (outOfRange x) eqn:Hout.
    + apply outOfRange_true_iff in Hout. split; [exact Hout | reflexivity].
    + cbn [Types.lightness label toneHex].
      split.
      * unfold outOfRange in Hout. apply orb_false_iff in Hout as [H0 H1].
        apply lt_false_iff in H0, H1. split; assumption.
      * split; [reflexivity |]. split; [reflexivity |].
        split; [unfold hslToHex; cbv zeta; apply rgbToHex_valid | apply hslToHex_back].
  - unfold generateAllTones, TONE_STEPS. cbn [map]. reflexivity.
Qed.

End SpecificToneOutcome.

(** ** The hook and the component *)

(** X28. [updateColor] keeps the identifiers and their order, whatever the
    identifier of the new colour. *)
Theorem updateColor_keeps_identifiers
    (prevPalette palette : Palette) (colorId : string) (newColor : Color) :
  let result := updateColor prevPalette palette colorId newColor in
  name result = name prevPalette /\ createdAt result = createdAt prevPalette /\
  map id (colors result) = map id (colors palette) /\
  (forall (i : nat) (color : Color),
      nth_error (colors palette) i = Some color ->
      exists color' : Color,
        nth_error (colors result) i = Some color' /\
        id color' = id color /\
        (id color = colorId ->
         hex color' = hex newColor /\ rgb color' = rgb newColor /\
         hsl color' = hsl newColor /\ isLocked color' = isLocked newColor) /\
        (id color <> colorId -> color' = color)) /\
  ((forall color : Color, In color (colors palette) -> id color <> colorId) ->
   colors result = colors palette).
Proof.
  cbv zeta. unfold updateColor. cbn [colors name createdAt].
  split; [reflexivity |]. split; [reflexivity |]. split; [| split].
  - rewrite map_map. apply map_ext. intros color.
    destruct (String.eqb_spec (id color) colorId) as [-> | _]; reflexivity.
  - intros i color Hi. rewrite nth_error_map, Hi. cbn [option_map].
    eexists. split; [reflexivity |].
    destruct (String.eqb_spec (id color) colorId) as [Heq | Hne].
    + split; [symmetry; exact Heq |]. split.
      * intros _. repeat split.
      * intros Hne. contradiction.
    + split; [reflexivity |]. split; [intros Heq; contradiction | reflexivity].
  - intros Habsent. rewrite <- (map_id (colors palette)) at 2.
    apply map_ext_in. intros color Hin.
    destruct (String.eqb_spec (id color) colorId) as [Heq | _]; [| reflexivity].
    exfalso. exact (Habsent color Hin Heq).
Qed.

(** X29. Selecting a tone of the ladder of a colour gives the colour that
    [hslToRgb] and [rgbToHex] make of the new lightness, with the
    identifier and the lock of the old one. *)
Theorem selecting_a_ladder_tone (selected : Color) (tone : ColorTone) :
  In tone (generateAllTones selected) ->
  colorWithTone selected tone =
  inr (colorOfHsl (id selected) (h (hsl selected)) (s (hsl selected))
         (Types.lightness tone) (isLocked selected)).
Proof.
  intros Hin. unfold generateAllTones in Hin. apply in_map_iff in Hin as (step & <- & _).
  unfold colorWithTone, toneOf. cbn [toneHex Types.lightness].
  rewrite hslToHex_back. reflexivity.
Qed.

Lemma selecting_a_ladder_tone_witness :
  colorWithTone coolBase (toneOf coolBase {| label := "300"; lightness := 70;
                                            toneHex := EmptyString |}) =
  inr (colorOfHsl "a" 200 65 70 false).
Proof.
  apply (selecting_a_ladder_tone coolBase
           (toneOf coolBase {| label := "300"; lightness := 70; toneHex := EmptyString |})).
  cbn. right. right. right. left. reflexivity.
Defined.
